(** * Federated search bar: a shallow embedding of the search pipeline

    The development follows the JavaScript sources of the AdvancedSearch
    component:
    - [engine/scorer.js]        match detection, scoring, ranking, deduplication;
    - [engine/queryParser.js]   the query parser and its serializer;
    - [store/searchSlice.js]    participant helpers, the local search stage,
                                the remote fan-out, the merge and the cache.

    Conventions of the embedding.
    - A JavaScript string is a [string]: a sequence of 8-bit code units read as
      U+0000..U+00FF.  Case mapping and white space follow ECMAScript on that
      range; code units above U+00FF are outside the model.
    - A JavaScript number is a decimal fixed-point value with six fractional
      digits, stored as an integer count of millionths.  Six digits is the
      precision the scorer itself keeps ([toFixed(6)]); NaN only appears as the
      [None] of [to_number].
    - Code that can throw returns a [result]. *)

From Stdlib Require Import ZArith Lia Bool List Ascii String DecimalString.
From Stdlib Require Import Sorted Permutation.
From stdpp Require Import base strings gmap.
Import ListNotations.

Open Scope string_scope.
Open Scope Z_scope.

(** String concatenation unfolds on a constructor, as list concatenation does. *)
Arguments String.append !_ _ / : simpl nomatch.

(* ===================================================================== *)
(** * JavaScript strings *)
(* ===================================================================== *)

Module JsString.

Definition code (c : ascii) : N := N_of_ascii c.

(** [WhiteSpace] and [LineTerminator] code points below U+0100: this is the
    set used both by [String.prototype.trim] and by the regex class [\s]. *)
Definition is_space (c : ascii) : bool :=
  let n := code c in
  ((9 <=? n) && (n <=? 13) || (n =? 32) || (n =? 160))%N.

(** The regex class [\w], i.e. [[A-Za-z0-9_]]. *)
Definition is_word (c : ascii) : bool :=
  let n := code c in
  ((65 <=? n) && (n <=? 90) || (97 <=? n) && (n <=? 122)
   || (48 <=? n) && (n <=? 57) || (n =? 95))%N.

(** Upper-case letters with a lower-case partner 32 code points above:
    A-Z and the Latin-1 capitals U+00C0..U+00DE, the sign U+00D7 apart. *)
Definition is_upper (c : ascii) : bool :=
  let n := code c in
  ((65 <=? n) && (n <=? 90)
   || (192 <=? n) && (n <=? 222) && negb (n =? 215))%N.

Definition lower_char (c : ascii) : ascii :=
  if is_upper c then ascii_of_N (code c + 32) else c.

Fixpoint toLowerCase (s : string) : string :=
  match s with
  | EmptyString => EmptyString
  | String c s' => String (lower_char c) (toLowerCase s')
  end.

Fixpoint trimStart (s : string) : string :=
  match s with
  | EmptyString => EmptyString
  | String c s' => if is_space c then trimStart s' else s
  end.

Fixpoint trimEnd (s : string) : string :=
  match s with
  | EmptyString => EmptyString
  | String c s' =>
      match trimEnd s' with
      | EmptyString => if is_space c then EmptyString else String c EmptyString
      | r => String c r
      end
  end.

Definition trim (s : string) : string := trimEnd (trimStart s).

(** [s.startsWith(t)]. *)
Fixpoint startsWith (t s : string) : bool :=
  match t, s with
  | EmptyString, _ => true
  | String a t', String b s' => Ascii.eqb a b && startsWith t' s'
  | String _ _, EmptyString => false
  end.

(** [s.includes(t)]. *)
Fixpoint includes (t s : string) : bool :=
  startsWith t s ||
  match s with
  | EmptyString => false
  | String _ s' => includes t s'
  end.

(** Truthiness of a string: [!s] holds exactly for the empty string. *)
Definition nonempty (s : string) : bool :=
  match s with EmptyString => false | _ => true end.

Fixpoint drop (n : nat) (s : string) : string :=
  match n, s with
  | O, _ => s
  | S n', String _ s' => drop n' s'
  | S _, EmptyString => EmptyString
  end.

(** Every character of [s] satisfies [p]. *)
Fixpoint allb (p : ascii -> bool) (s : string) : bool :=
  match s with
  | EmptyString => true
  | String c s' => p c && allb p s'
  end.

(** [s.replace(/^[@#]/, '')]: one leading marker is removed. *)
Definition is_marker (c : ascii) : bool :=
  (Ascii.eqb c "@" || Ascii.eqb c "#")%char.

Definition stripMarker (s : string) : string :=
  match s with
  | String c s' => if is_marker c then s' else s
  | EmptyString => EmptyString
  end.

End JsString.

Import JsString.

(* ===================================================================== *)
(** * Numbers: decimal fixed point, six fractional digits *)
(* ===================================================================== *)

Definition micro : Z := 1000000.

(** An integer as a number of the model. *)
Definition of_int (n : Z) : Z := n * micro.

(** [+(a * b).toFixed(6)] on two numbers of the model: the exact product has
    twelve fractional digits; [toFixed] keeps six, rounding to nearest and,
    on a tie, away from zero.  The code rounds the product of two doubles:
    where the exact product sits on a tie (1.5 times 0.100003) its sixth
    digit can be the neighbouring one.  A product with at most six
    fractional digits, as with the weight 1, is not rounded at all. *)
Definition mul_toFixed6 (a b : Z) : Z :=
  let p := a * b in
  if p <? 0 then - ((- p + micro / 2) / micro) else (p + micro / 2) / micro.

(** Decimal rendering of an integer, as [String(n)] prints it. *)
Definition int_to_string (n : Z) : string :=
  NilZero.string_of_int (Z.to_int n).

(** The six fractional digits of [f] (0 <= f < 10^6), most significant first,
    without the trailing zeros. *)
Fixpoint frac_digits (width : nat) (f : Z) : string :=
  match width with
  | O => EmptyString
  | S w =>
      let unit := 10 ^ Z.of_nat w in
      if f =? 0 then EmptyString
      else (int_to_string (f / unit) ++ frac_digits w (f mod unit))%string
  end.

(** [String(x)] for a number: integers print without a fraction.  Exponent
    notation (magnitudes from 10^21 on) is outside the model. *)
Definition num_to_string (m : Z) : string :=
  let a := Z.abs m in
  let sign := if m <? 0 then "-" else "" in
  if a mod micro =? 0 then int_to_string (m / micro)
  else (sign ++ int_to_string (a / micro) ++ "." ++ frac_digits 6 (a mod micro))%string.

(* ===================================================================== *)
(** * JavaScript values and exceptions *)
(* ===================================================================== *)

(** The values the pipeline handles are JSON-like: no functions, no cyclic
    or shared objects.  An object is its list of own properties in insertion
    order. *)
#[warnings="-register-all"]
Inductive jsval :=
| JUndefined
| JNull
| JBool (b : bool)
| JNum (n : Z)
| JStr (s : string)
| JArr (l : list jsval)
| JObj (props : list (string * jsval)).

(** An integer literal. *)
Definition JInt (n : Z) : jsval := JNum (of_int n).

Record JsError := { e_name : string; e_message : string }.

Definition TypeError (msg : string) : JsError :=
  {| e_name := "TypeError"; e_message := msg |}.
Definition SyntaxError (msg : string) : JsError :=
  {| e_name := "SyntaxError"; e_message := msg |}.

Inductive result (A : Type) :=
| Ok (a : A)
| Throw (e : JsError).
Arguments Ok {A} a.
Arguments Throw {A} e.

Definition bind {A B} (r : result A) (k : A -> result B) : result B :=
  match r with
  | Ok a => k a
  | Throw e => Throw e
  end.

Notation "'let!' x ':=' r 'in' k" := (bind r (fun x => k))
  (at level 10, x name, r at level 100, k at level 200).

(** [arr.map(f)] and [arr.filter(f)] with a callback that may throw: the
    elements are visited left to right and the first exception escapes. *)
Fixpoint mapM {A B} (f : A -> result B) (l : list A) : result (list B) :=
  match l with
  | [] => Ok []
  | x :: l' => let! y := f x in let! ys := mapM f l' in Ok (y :: ys)
  end.

Fixpoint filterM {A} (f : A -> result bool) (l : list A) : result (list A) :=
  match l with
  | [] => Ok []
  | x :: l' =>
      let! b := f x in let! ys := filterM f l' in Ok (if b then x :: ys else ys)
  end.

(** [arr.find(f)]: stops at the first element the callback accepts. *)
Fixpoint findM {A} (f : A -> result bool) (l : list A) : result (option A) :=
  match l with
  | [] => Ok None
  | x :: l' => let! b := f x in if b then Ok (Some x) else findM f l'
  end.

Module Js.

(** Truthiness ([ToBoolean]). *)
Definition truthy (v : jsval) : bool :=
  match v with
  | JUndefined | JNull => false
  | JBool b => b
  | JNum n => negb (n =? 0)
  | JStr s => nonempty s
  | JArr _ | JObj _ => true
  end.

(** [a || b] and [a ?? b] on values. *)
Definition or (a b : jsval) : jsval := if truthy a then a else b.
Definition nullish (v : jsval) : bool :=
  match v with JUndefined | JNull => true | _ => false end.
Definition coalesce (a b : jsval) : jsval := if nullish a then b else a.

Fixpoint lookup (k : string) (props : list (string * jsval)) : jsval :=
  match props with
  | [] => JUndefined
  | (k', v) :: r => if String.eqb k' k then v else lookup k r
  end.

(** [o[k] = v] on a property list: an existing key keeps its place. *)
Fixpoint assign (k : string) (v : jsval) (props : list (string * jsval))
  : list (string * jsval) :=
  match props with
  | [] => [(k, v)]
  | (k', v') :: r =>
      if String.eqb k' k then (k, v) :: r else (k', v') :: assign k v r
  end.

Fixpoint index_props (i : nat) (l : list jsval) : list (string * jsval) :=
  match l with
  | [] => []
  | x :: r => (int_to_string (Z.of_nat i), x) :: index_props (S i) r
  end.

Fixpoint chars (s : string) : list jsval :=
  match s with
  | EmptyString => []
  | String c r => JStr (String c EmptyString) :: chars r
  end.

(** The own enumerable properties copied by [{ ...v }]. *)
Definition spread (v : jsval) : list (string * jsval) :=
  match v with
  | JObj props => props
  | JArr l => index_props 0 l
  | JStr s => index_props 0 (chars s)
  | _ => []
  end.

(** [{ ...v, k1: v1, ..., kn: vn }] *)
Definition extend (v : jsval) (kvs : list (string * jsval)) : jsval :=
  JObj (fold_left (fun props kv => assign (fst kv) (snd kv) props) kvs (spread v)).

(** Reading a data property that exists only on plain objects ([zuid],
    [title], [_score], ...): [undefined] on every other non-nullish value. *)
Definition field (v : jsval) (k : string) : jsval :=
  match v with
  | JObj props => lookup k props
  | _ => JUndefined
  end.

(** [v.k], which throws on [null] and [undefined]. *)
Definition prop (v : jsval) (k : string) : result jsval :=
  if nullish v
  then Throw (TypeError ("Cannot read properties of " ++ (if v is JNull then "null" else "undefined")))
  else Ok (field v k).

(** [v?.k] *)
Definition opt_prop (v : jsval) (k : string) : jsval :=
  if nullish v then JUndefined else field v k.

Fixpoint join (sep : string) (l : list string) : string :=
  match l with
  | [] => ""
  | [x] => x
  | x :: r => (x ++ sep ++ join sep r)%string
  end.

(** [String(v)] *)
Fixpoint String_ (v : jsval) : string :=
  match v with
  | JUndefined => "undefined"
  | JNull => "null"
  | JBool true => "true"
  | JBool false => "false"
  | JNum n => num_to_string n
  | JStr s => s
  | JArr l =>
      join "," (map (fun x => if nullish x then "" else String_ x) l)
  | JObj _ => "[object Object]"
  end.

(** [ToNumber] on the values the pipeline compares as numbers; [None] is
    NaN.  The numeric reading of a string is not modelled. *)
Definition to_number (v : jsval) : option Z :=
  match v with
  | JNum n => Some n
  | JNull => Some 0
  | JBool b => Some (if b then micro else 0)
  | _ => None
  end.

(** [a > b] on numbers; a NaN operand makes it false. *)
Definition gt (a b : jsval) : bool :=
  match to_number a, to_number b with
  | Some x, Some y => y <? x
  | _, _ => false
  end.

(** [a - b] as the result of a sort comparator: [Array.prototype.sort]
    reads a NaN result as [+0]. *)
Definition sub_cmp (a b : jsval) : Z :=
  match to_number a, to_number b with
  | Some x, Some y => x - y
  | _, _ => 0
  end.

(** [a === b].  Two arrays or objects are equal only when they are the same
    reference; the values compared here come from different places, so
    they never are. *)
Definition strict_eq (a b : jsval) : bool :=
  match a, b with
  | JUndefined, JUndefined | JNull, JNull => true
  | JBool x, JBool y => Bool.eqb x y
  | JNum x, JNum y => x =? y
  | JStr x, JStr y => String.eqb x y
  | _, _ => false
  end.

Definition is_string (v : jsval) : bool :=
  match v with JStr _ => true | _ => false end.

(** [Array.prototype.sort(cmp)]: a stable sort; [cmp a b <= 0] keeps [a]
    before [b].  For a comparator that is not a consistent order the
    standard leaves the result to the engine; the model then gives the
    result of a stable insertion from the right. *)
Fixpoint insert {A} (cmp : A -> A -> Z) (x : A) (l : list A) : list A :=
  match l with
  | [] => [x]
  | y :: r => if cmp x y <=? 0 then x :: y :: r else y :: insert cmp x r
  end.

Definition sort {A} (cmp : A -> A -> Z) (l : list A) : list A :=
  fold_right (insert cmp) [] l.

(** [arr.slice(0, n)] *)
Definition slice0 {A} (n : Z) (l : list A) : list A :=
  if n <? 0 then firstn (Z.to_nat (Z.of_nat (length l) + n)) l
  else firstn (Z.to_nat n) l.

End Js.

(* ===================================================================== *)
(** * scorer.js *)
(* ===================================================================== *)

(** The scorer is typed as its callers use it: keywords, phrase and fields
    are strings, weights are numbers or missing, items are plain objects. *)
Module Scorer.

Inductive MatchType := exact | startsWithT | afterSpace | middle.

Definition MatchType_name (t : MatchType) : string :=
  match t with
  | exact => "exact"
  | startsWithT => "startsWith"
  | afterSpace => "afterSpace"
  | middle => "middle"
  end.

(** [cfg.matchScores]. *)
Record MatchScores := {
  sc_exact : Z;
  sc_startsWith : Z;
  sc_afterSpace : Z;
  sc_middle : Z
}.

(** [{ exact: 1.5, startsWith: 1.0, afterSpace: 0.6, middle: 0.3 }] *)
Definition DEFAULT_SCORER_CONFIG : MatchScores :=
  {| sc_exact := 1500000; sc_startsWith := 1000000;
     sc_afterSpace := 600000; sc_middle := 300000 |}.

(** [{ type, score }] *)
Record ScoreMatch := { m_type : MatchType; m_score : Z }.

Definition detectMatch (kw field : string) (scores : MatchScores)
  : option ScoreMatch :=
  if negb (nonempty kw) || negb (nonempty field) then None else
  let k := trim (toLowerCase kw) in
  let f := trim (toLowerCase field) in
  if negb (nonempty k) || negb (nonempty f) then None else
  if String.eqb f k then
    Some {| m_type := exact; m_score := sc_exact scores |}
  else if startsWith k f then
    Some {| m_type := startsWithT; m_score := sc_startsWith scores |}
  else if includes (" " ++ k) f then
    Some {| m_type := afterSpace; m_score := sc_afterSpace scores |}
  else if includes k f then
    Some {| m_type := middle; m_score := sc_middle scores |}
  else None.

(** The loop of [bestFieldMatch] and of [scoreQuery]: a later match
    replaces the best one only when it scores strictly higher. *)
Definition better (best : option ScoreMatch) (m : option ScoreMatch)
  : option ScoreMatch :=
  match m, best with
  | Some m', None => Some m'
  | Some m', Some b => if m_score b <? m_score m' then Some m' else Some b
  | None, _ => best
  end.

Definition bestFieldMatch (kw : string) (fields : list string)
  (scores : MatchScores) : option ScoreMatch :=
  fold_left (fun best f => better best (detectMatch kw f scores)) fields None.

Definition scoreQuery (keywords : list string) (phrase : string)
  (fields : list string) (scores : MatchScores) : option ScoreMatch :=
  let phraseMatch :=
    if (1 <? length keywords)%nat then bestFieldMatch phrase fields scores
    else None in
  let bestMatch :=
    fold_left (fun best kw => better best (bestFieldMatch kw fields scores))
      keywords None in
  match phraseMatch, bestMatch with
  | None, None => None
  | Some a, None => Some a
  | None, Some b => Some b
  | Some a, Some b => Some (if m_score a <? m_score b then b else a)
  end.

(** [rawModuleWeight || 1]: a missing or zero weight counts as 1. *)
Definition weight_or_1 (w : option Z) : Z :=
  match w with
  | Some x => if x =? 0 then micro else x
  | None => micro
  end.

Definition computeScore (item : jsval) (keywords : list string)
  (phrase : string) (fields : list string) (rawModuleWeight : option Z)
  (cfg : MatchScores) : option jsval :=
  match scoreQuery keywords phrase fields cfg with
  | None => None
  | Some m =>
      Some (Js.extend item
              [("_score", JNum (mul_toFixed6 (m_score m) (weight_or_1 rawModuleWeight)));
               ("_matchType", JStr (MatchType_name (m_type m)));
               ("_matchScore", JNum (m_score m))])
  end.

(** [(a, b) => b._score - a._score] *)
Definition by_score_desc (a b : jsval) : Z :=
  Js.sub_cmp (Js.field b "_score") (Js.field a "_score").

Fixpoint scoreAll (items : list jsval) (keywords : list string)
  (phrase : string) (getFields : jsval -> list string)
  (getWeight : jsval -> option Z) (cfg : MatchScores) : list jsval :=
  match items with
  | [] => []
  | item :: rest =>
      let tl := scoreAll rest keywords phrase getFields getWeight cfg in
      match computeScore item keywords phrase (getFields item) (getWeight item) cfg with
      | Some r => r :: tl
      | None => tl
      end
  end.

Definition rankResults (items : list jsval) (keywords : list string)
  (phrase : string) (getFields : jsval -> list string)
  (getWeight : jsval -> option Z) (cfg : MatchScores) : list jsval :=
  Js.sort by_score_desc (scoreAll items keywords phrase getFields getWeight cfg).

Section Dedup.
Context {K : Type} `{EqDecision K}.

(** A [Map]: its entries in insertion order. *)
Fixpoint map_get (k : K) (seen : list (K * jsval)) : option jsval :=
  match seen with
  | [] => None
  | (k', v) :: r => if decide (k' = k) then Some v else map_get k r
  end.

(** [seen.set(k, v)]: an existing key keeps its place. *)
Fixpoint map_set (k : K) (v : jsval) (seen : list (K * jsval))
  : list (K * jsval) :=
  match seen with
  | [] => [(k, v)]
  | (k', v') :: r =>
      if decide (k' = k) then (k, v) :: r else (k', v') :: map_set k v r
  end.

Definition dedupStep (getKey : jsval -> K) (seen : list (K * jsval))
  (item : jsval) : list (K * jsval) :=
  let k := getKey item in
  match map_get k seen with
  | None => map_set k item seen
  | Some old =>
      if Js.gt (Js.field item "_score") (Js.field old "_score")
      then map_set k item seen else seen
  end.

Definition deduplicateBy (items : list jsval) (getKey : jsval -> K)
  : list jsval :=
  Js.sort by_score_desc (map snd (fold_left (dedupStep getKey) items [])).
End Dedup.

End Scorer.

(* ===================================================================== *)
(** * queryParser.js *)
(* ===================================================================== *)

Module QueryParser.

Definition FILTER_TOKENS : list string :=
  ["from"; "to"; "in"; "after"; "before"; "on";
   "filenamehas"; "linkhas"; "filehas"; "fileobject"].

Fixpoint takeWhile (p : ascii -> bool) (s : string) : string :=
  match s with
  | EmptyString => EmptyString
  | String c s' => if p c then String c (takeWhile p s') else EmptyString
  end.

Fixpoint dropWhile (p : ascii -> bool) (s : string) : string :=
  match s with
  | EmptyString => EmptyString
  | String c s' => if p c then dropWhile p s' else s
  end.

Definition non_space (c : ascii) : bool := negb (is_space c).

(** [TOKEN_RE = /(\w+):([^\s]+)/] tried at the head of [s]: the captures
    [(m[1], m[2])] of the match, if there is one.  [\w+] is greedy; giving
    back characters cannot help, since a shorter run of word characters is
    followed by a word character and not by the colon.  [[^\s]+] ends the
    pattern and takes every character up to the next white space. *)
Definition matchAt (s : string) : option (string * string) :=
  match takeWhile is_word s, dropWhile is_word s with
  | String _ _ as key, String ":" rest =>
      match takeWhile non_space rest with
      | String _ _ as value => Some (key, value)
      | EmptyString => None
      end
  | _, _ => None
  end.

(** [m[0]], the matched text. *)
Definition tokenText (m : string * string) : string :=
  (fst m ++ ":" ++ snd m)%string.

(** The loop [while ((m = TOKEN_RE.exec(raw)) !== null)] of a global regex:
    every position is tried from left to right, and after a match the search
    resumes at [lastIndex], the end of the match.  [skip] counts the
    characters of the last match that are still to be passed over. *)
Fixpoint execAll (skip : nat) (s : string) : list (string * string) :=
  match s with
  | EmptyString => []
  | String _ s' =>
      match skip with
      | S n => execAll n s'
      | O =>
          match matchAt s with
          | Some m => m :: execAll (String.length (fst m) + String.length (snd m)) s'
          | None => execAll 0 s'
          end
      end
  end.

(** [validTokens.includes(key)] *)
Definition includesToken (validTokens : list string) (key : string) : bool :=
  existsb (String.eqb key) validTokens.

(** [remaining.replace(tok, '')] with a string pattern: the first
    occurrence of [tok] is removed. *)
Fixpoint removeFirst (tok : string) (s : string) : string :=
  if startsWith tok s then drop (String.length tok) s
  else match s with
       | EmptyString => EmptyString
       | String c s' => String c (removeFirst tok s')
       end.

(** [s.replace(/\s+/g, ' ')]; [in_ws] tells that the previous character was
    white space, already replaced. *)
Fixpoint collapseFrom (in_ws : bool) (s : string) : string :=
  match s with
  | EmptyString => EmptyString
  | String c s' =>
      if is_space c
      then if in_ws then collapseFrom true s'
           else String " " (collapseFrom true s')
      else String c (collapseFrom false s')
  end.

Definition collapseSpaces (s : string) : string := collapseFrom false s.

(** [s.split(/\s+/)]: the head of the result is the piece being read. *)
Fixpoint splitFrom (in_ws : bool) (s : string) : list string :=
  match s with
  | EmptyString => [EmptyString]
  | String c s' =>
      if is_space c
      then if in_ws then splitFrom true s'
           else EmptyString :: splitFrom true s'
      else match splitFrom false s' with
           | p :: ps => String c p :: ps
           | [] => [String c EmptyString]
           end
  end.

Definition splitSpaces (s : string) : list string := splitFrom false s.

Record ParsedQuery := {
  raw : string;
  trimmed : string;
  phrase : string;
  keywords : list string;
  isEmpty : bool;
  isMultiWord : bool;
  filters : gmap string string
}.

(** The body of the [while] loop, for one match. *)
Definition collect (validTokens : list string)
  (acc : gmap string string * list string) (m : string * string)
  : gmap string string * list string :=
  let key := toLowerCase (fst m) in
  if includesToken validTokens key
  then (<[key := stripMarker (snd m)]> (fst acc), (snd acc ++ [tokenText m])%list)
  else acc.

Definition parseQueryWith (validTokens : list string) (raw : string)
  : ParsedQuery :=
  let '(filters, removed) :=
    fold_left (collect validTokens) (execAll 0 raw) (∅, []) in
  let remaining := fold_left (fun r tok => removeFirst tok r) removed raw in
  let trimmed := trim (collapseSpaces remaining) in
  let keywords := if nonempty trimmed then splitSpaces trimmed else [] in
  {| raw := raw;
     trimmed := trimmed;
     phrase := trimmed;
     keywords := keywords;
     isEmpty := (length keywords =? 0)%nat && (size filters =? 0)%nat;
     isMultiWord := (1 <? length keywords)%nat;
     filters := filters |}.

(** [parseQuery(raw)] with the default vocabulary. *)
Definition parseQuery (raw : string) : ParsedQuery :=
  parseQueryWith FILTER_TOKENS raw.

(** [a.localeCompare(b)] as a comparator result.  On the keys of the
    vocabulary, lower-case ASCII letters, it is the order of code units. *)
Definition localeCompare (a b : string) : Z :=
  match String.compare a b with
  | Lt => -1
  | Eq => 0
  | Gt => 1
  end.

Definition serializeQuery (pq : ParsedQuery) : string :=
  let entries :=
    Js.sort (fun x y => localeCompare (fst x) (fst y))
      (map_to_list (filters pq)) in
  let filterStr := Js.join " " (map tokenText entries) in
  Js.join " " (List.filter nonempty [trimmed pq; filterStr]).

Definition needsServerFetch (pq : ParsedQuery) (minLen : nat) : bool :=
  (minLen <=? String.length (trimmed pq))%nat
  || (0 <? size (filters pq))%nat.

End QueryParser.

(* ===================================================================== *)
(** * searchSlice.js: constants and participant helpers *)
(* ===================================================================== *)

Module Slice.
Import Scorer QueryParser.

Definition DEFAULT_MODULE_WEIGHTS : gmap string Z :=
  list_to_map
    [("users", 1500000); ("chats", 1400000); ("channels", 1200000);
     ("department", 1100000); ("messages", 1000000); ("files", 950000);
     ("bots", 900000); ("threads", 850000); ("widgets", 750000);
     ("apps", 750000); ("connections", 600000); ("settings", 600000)].

Definition MAX_CLIENT_CHATS : nat := 500.
Definition MAX_CLIENT_USERS : nat := 100.
(** [10 * 60 * 1000] milliseconds. *)
Definition CACHE_TIMEOUT_MS : Z := 10 * 60 * 1000.

(** [try { body } catch { return null; }] *)
Definition orNull (body : result jsval) : result jsval :=
  match body with
  | Ok v => Ok v
  | Throw _ => Ok JNull
  end.

Definition is_array (v : jsval) : bool :=
  match v with JArr _ => true | _ => false end.

Section WithJSON.
(** [JSON.parse] is the host's decoder: [None] stands for the
    [SyntaxError] it throws on malformed text. *)
Variable JSON_parse : string -> option jsval.

Definition parseJSON (s : string) : result jsval :=
  match JSON_parse s with
  | Some v => Ok v
  | None => Throw (SyntaxError "Unexpected token in JSON")
  end.

(** [participants.find(p => String(p.zuid) !== String(loggedInZuid))] *)
Definition differsFrom (loggedInZuid : jsval) (p : jsval) : result bool :=
  let! z := Js.prop p "zuid" in
  Ok (negb (String.eqb (Js.String_ z) (Js.String_ loggedInZuid))).

(** [participants.find(p => p.dname === chatTitle)] *)
Definition namedAs (chatTitle : jsval) (p : jsval) : result bool :=
  let! d := Js.prop p "dname" in
  Ok (Js.strict_eq d chatTitle).

(** [cond && participants.find(f)]: the condition itself when it is
    falsy, else the element found, or [undefined]. *)
Definition andFind (cond : jsval) (f : jsval -> result bool)
  (participants : list jsval) : result jsval :=
  if Js.truthy cond
  then let! r := findM f participants in
       Ok (match r with Some p => p | None => JUndefined end)
  else Ok cond.

Definition getOtherUserId (summary loggedInZuid chatTitle : jsval)
  : result jsval :=
  orNull (
    let! participants :=
      match summary with
      | JStr s => parseJSON s
      | _ => Ok (Js.or summary (JArr []))
      end in
    match participants with
    | JArr ps =>
        let! a := andFind loggedInZuid (differsFrom loggedInZuid) ps in
        let! otherUser :=
          if Js.truthy a then Ok a else
          let! b := andFind chatTitle (namedAs chatTitle) ps in
          if Js.truthy b then Ok b else
          Ok (match ps with [p] => p | _ => JNull end) in
        Ok (Js.or (Js.opt_prop otherUser "zuid") JNull)
    | _ => Ok JNull
    end).

(** Derive [_module] from [chat_type]. *)
Definition chatTypeToModule (chatType : jsval) : string :=
  let t := Js.String_ chatType in
  if String.eqb t "8" then "channels"
  else if String.eqb t "1" then "users"
  else if String.eqb t "11" then "threads"
  else if String.eqb t "9" then "bot"
  else "".

(** The identifier sets, as [(existingChatIds, existingUserIds)]. *)
Definition ExclusionSets : Type := gset string * gset string.

Definition excludeChat (loggedUserZuid : jsval) (sets : ExclusionSets)
  (chat : jsval) : result ExclusionSets :=
  let! chatid := Js.prop chat "chatid" in
  let chatIds :=
    if Js.truthy chatid then {[ Js.String_ chatid ]} ∪ fst sets else fst sets in
  if String.eqb (Js.String_ (Js.field chat "chat_type")) "1" then
    let! otherZuid :=
      getOtherUserId (Js.field chat "recipantssummary") loggedUserZuid
        (Js.field chat "title") in
    Ok (chatIds,
        if Js.truthy otherZuid then {[ Js.String_ otherZuid ]} ∪ snd sets
        else snd sets)
  else Ok (chatIds, snd sets).

Definition excludeUser (sets : ExclusionSets) (u : jsval)
  : result ExclusionSets :=
  let! zuid := Js.prop u "zuid" in
  Ok (fst sets,
      if Js.truthy zuid then {[ Js.String_ zuid ]} ∪ snd sets else snd sets).

(** [arr.forEach(f)] threading the sets. *)
Fixpoint forEachM {A S} (f : S -> A -> result S) (s : S) (l : list A)
  : result S :=
  match l with
  | [] => Ok s
  | x :: l' => let! s' := f s x in forEachM f s' l'
  end.

Definition buildExclusionSets (chats users : list jsval)
  (loggedUserZuid : jsval) : result ExclusionSets :=
  let! s := forEachM (excludeChat loggedUserZuid) (∅, ∅) chats in
  forEachM excludeUser s users.

(* ----------------------------------------------------------------- *)
(** ** The local search stage *)

(** [title.replace(/^[@#]/, '')]: only a string has the method. *)
Definition replaceMarker (title : jsval) : result jsval :=
  match title with
  | JStr s => Ok (JStr (stripMarker s))
  | JUndefined =>
      Throw (TypeError "Cannot read properties of undefined (reading 'replace')")
  | JNull =>
      Throw (TypeError "Cannot read properties of null (reading 'replace')")
  | _ => Throw (TypeError "c.title.replace is not a function")
  end.

(** The identifier of a chat-like record: for a one-to-one conversation
    the other party when it resolves, else the conversation's own id. *)
Definition chatItemId (loggedUserZuid : jsval) (c : jsval) : result jsval :=
  if String.eqb (Js.String_ (Js.field c "chat_type")) "1" then
    let! other :=
      getOtherUserId (Js.field c "recipantssummary") loggedUserZuid
        (Js.field c "title") in
    Ok (Js.or other (Js.field c "chatid"))
  else Ok (Js.field c "chatid").

(** The callback of [chats.slice(0, MAX_CLIENT_CHATS).map(...)]. *)
Definition localChat (loggedUserZuid : jsval) (c : jsval) : result jsval :=
  let! title := Js.prop c "title" in
  let! title' := replaceMarker title in
  let! id := chatItemId loggedUserZuid c in
  Ok (Js.extend c
        [("title", title');
         ("_module", JStr (chatTypeToModule (Js.field c "chat_type")));
         ("_source", JStr "client");
         ("id", id)]).

(** [c.title?.toLowerCase().startsWith(queryLower)] *)
Definition titleMatches (queryLower : string) (c : jsval) : result bool :=
  match Js.field c "title" with
  | JStr t => Ok (startsWith queryLower (toLowerCase t))
  | JUndefined | JNull => Ok false
  | _ => Throw (TypeError "c.title?.toLowerCase is not a function")
  end.

(** [(a, b) => (b.score || 0) - (a.score || 0)] *)
Definition byChatScore (a b : jsval) : Z :=
  Js.sub_cmp (Js.or (Js.field b "score") (JInt 0))
             (Js.or (Js.field a "score") (JInt 0)).

(** The callback of [users.slice(0, MAX_CLIENT_USERS).map(...)]. *)
Definition localUser (u : jsval) : result jsval :=
  let! Zuid := Js.prop u "Zuid" in
  Ok (Js.extend u
        [("_module", JStr "users");
         ("_source", JStr "client");
         ("id", Js.or (Js.or Zuid (Js.field u "zuid")) (Js.field u "id"))]).

(** [v.toLowerCase()]: only a string has the method. *)
Definition lowerOf (v : jsval) : result string :=
  match v with
  | JStr s => Ok (toLowerCase s)
  | _ => Throw (TypeError "toLowerCase is not a function")
  end.

Definition userMatches (queryLower : string) (clientChatZuids : gset string)
  (u : jsval) : result bool :=
  let! name :=
    lowerOf (Js.or (Js.or (Js.field u "full_name") (Js.field u "display_name"))
                   (JStr "")) in
  let! email := lowerOf (Js.or (Js.field u "email") (JStr "")) in
  Ok ((startsWith queryLower name || startsWith queryLower email)
      && negb (bool_decide (Js.String_ (Js.field u "id") ∈ clientChatZuids))).

Record ClientSearch := {
  clientChats : list jsval;
  clientUsers : list jsval;
  clientResults : list jsval
}.

Definition isUsersModule (c : jsval) : bool :=
  Js.strict_eq (Js.field c "_module") (JStr "users").

Definition runClientSearch (chats users : list jsval) (queryLower : string)
  (loggedUserZuid : jsval) : result ClientSearch :=
  let! mapped := mapM (localChat loggedUserZuid) (firstn MAX_CLIENT_CHATS chats) in
  let! kept := filterM (titleMatches queryLower) mapped in
  let clientChats := Js.sort byChatScore kept in
  let clientChatZuids : gset string :=
    list_to_set
      (map (fun c => Js.String_ (Js.field c "id"))
           (List.filter isUsersModule clientChats)) in
  let! mappedUsers := mapM localUser (firstn MAX_CLIENT_USERS users) in
  let! clientUsers := filterM (userMatches queryLower clientChatZuids) mappedUsers in
  Ok {| clientChats := clientChats;
        clientUsers := clientUsers;
        clientResults := (clientChats ++ clientUsers)%list |}.

(* ----------------------------------------------------------------- *)
(** ** The remote fan-out *)

(** How a module call settles. *)
Inductive ApiOutcome :=
| Resolved (raw : jsval)
| Failed (e : JsError).

(** [moduleApis]: [globalsearch] is present in both tables the API file
    exports; the other entries are optional. *)
Record ModuleApis := {
  globalsearch : ParsedQuery -> ApiOutcome;
  moduleApi : string -> option (ParsedQuery -> ApiOutcome)
}.

(** [{ globalSearchResults, usersApiResults }] *)
Record Captured := {
  globalSearchResults : list jsval;
  usersApiResults : list jsval
}.

(** [Array.isArray(raw) ? raw : []] *)
Definition arrayOrEmpty (raw : jsval) : list jsval :=
  match raw with JArr l => l | _ => [] end.

Definition tagGlobal (loggedUserZuid : jsval) (item : jsval) : result jsval :=
  let! m := Js.prop item "_module" in
  let! id := chatItemId loggedUserZuid item in
  Ok (Js.extend item
        [("_module", Js.or m (JStr ""));
         ("_source", Js.or (Js.field item "_source") (JStr "server"));
         ("id", id)]).

(** [{ ...item, _module: item._module || modName, _source: item._source ||
    'server', id: item[idField] }] *)
Definition tagModule (modName idField : string) (item : jsval) : result jsval :=
  let! m := Js.prop item "_module" in
  Ok (Js.extend item
        [("_module", Js.or m (JStr modName));
         ("_source", Js.or (Js.field item "_source") (JStr "server"));
         ("id", Js.field item idField)]).

(** [!filterSet || !filterSet.has(String(item.id))] *)
Definition notExcluded (filterSet : option (gset string)) (item : jsval) : bool :=
  match filterSet with
  | None => true
  | Some ids => negb (bool_decide (Js.String_ (Js.field item "id") ∈ ids))
  end.

(** The value a module promise settles to: the [.then] callback tags and
    filters the records, and the [.catch] turns a failed call, or a
    callback that threw, into the empty list. *)
Definition settle (o : ApiOutcome) (tag : jsval -> result jsval)
  (keep : jsval -> bool) : list jsval :=
  match o with
  | Resolved raw =>
      match mapM tag (arrayOrEmpty raw) with
      | Ok l => List.filter keep l
      | Throw _ => []
      end
  | Failed _ => []
  end.

(** [enabledModules.includes(modName)] *)
Definition enabled (enabledModules : list string) (modName : string) : bool :=
  existsb (String.eqb modName) enabledModules.

(** [activeCategory === 'all' || activeCategory === modName] *)
Definition inCategory (activeCategory modName : string) : bool :=
  String.eqb activeCategory "all" || String.eqb activeCategory modName.

(** One [addModule(modName, moduleApis[modName], filterSet, idField)]: the promise
    it pushes, if any, as the module name with the settled value. *)
Definition addModule (apis : ModuleApis) (pq : ParsedQuery)
  (enabledModules : list string) (activeCategory : string)
  (modName : string) (filterSet : option (gset string)) (idField : string)
  : list (string * list jsval) :=
  match moduleApi apis modName with
  | None => []
  | Some apiFn =>
      if enabled enabledModules modName && inCategory activeCategory modName
      then [(modName, settle (apiFn pq) (tagModule modName idField) (notExcluded filterSet))]
      else []
  end.

(** The promises in the order they are pushed, each with the value it
    settles to, and what the callbacks leave in [captured]. *)
Definition buildServerPromises (apis : ModuleApis) (pq : ParsedQuery)
  (loggedUserZuid : jsval) (enabledModules : list string)
  (activeCategory : string) (sets : ExclusionSets)
  : list (string * list jsval) * Captured :=
  let '(existingChatIds, existingUserIds) := sets in
  let glob := settle (globalsearch apis pq) (tagGlobal loggedUserZuid) (fun _ => true) in
  let usersP :=
    addModule apis pq enabledModules activeCategory "users" (Some existingUserIds) "zuid" in
  let add := addModule apis pq enabledModules activeCategory in
  ((("globalsearch", glob) :: usersP
    ++ add "chats" (Some existingChatIds) "chatid"
    ++ add "channels" (Some existingChatIds) "chatid"
    ++ add "bots" (Some existingChatIds) "chatid"
    ++ add "threads" (Some existingChatIds) "chatid"
    ++ add "messages" None "msguid"
    ++ add "files" None "id"
    ++ add "department" None "id"
    ++ add "widgets" None "id"
    ++ add "apps" None "id"
    ++ add "connections" None "id"
    ++ add "settings" None "id")%list,
   {| globalSearchResults := glob;
      usersApiResults := concat (map snd usersP) |}).

(** [enrichClientData]: the unseen records are pushed onto the arrays of
    [clientData], in place. *)
Definition enrichStep (idField : string) (acc : list jsval * gset string)
  (item : jsval) : list jsval * gset string :=
  let v := Js.field item idField in
  if Js.truthy v && negb (bool_decide (Js.String_ v ∈ snd acc))
  then ((fst acc ++ [item])%list, {[ Js.String_ v ]} ∪ snd acc)
  else acc.

Definition enrichClientData (chats users : list jsval) (sets : ExclusionSets)
  (captured : Captured) : list jsval * list jsval :=
  (fst (fold_left (enrichStep "chatid") (globalSearchResults captured) (chats, fst sets)),
   fst (fold_left (enrichStep "zuid") (usersApiResults captured) (users, snd sets))).

(* ----------------------------------------------------------------- *)
(** ** The store: state, actions, reducers *)

(** [{ results, timestamp, activeCategory }] *)
Record CacheEntry := {
  c_results : list jsval;
  c_timestamp : Z;
  c_activeCategory : string
}.

(** The part of [state.search] the pipeline reads and writes. *)
Record SearchState := {
  cache : gmap string CacheEntry;
  results : list jsval;
  isLoading : bool;
  error : option string
}.

Inductive Action :=
| updateResults (results : list jsval) (isPartial : bool)
| setCacheEntry (key : string) (value : CacheEntry)
| clearExpiredCache (now : Z)
| clearAllCache.

Definition reducer (st : SearchState) (a : Action) : SearchState :=
  match a with
  | updateResults rs isPartial =>
      {| cache := cache st; results := rs; isLoading := isPartial; error := error st |}
  | setCacheEntry key value =>
      {| cache := <[key := value]> (cache st); results := results st;
         isLoading := isLoading st; error := error st |}
  | clearExpiredCache now =>
      {| cache := filter (fun kv => now - c_timestamp (snd kv) < CACHE_TIMEOUT_MS) (cache st);
         results := results st; isLoading := isLoading st; error := error st |}
  | clearAllCache =>
      {| cache := ∅; results := results st; isLoading := isLoading st; error := error st |}
  end.

(* ----------------------------------------------------------------- *)
(** ** The thunk [executeSearch] *)

Record ClientData := {
  chats : list jsval;
  users : list jsval
}.

Record Payload := {
  parsedQuery : ParsedQuery;
  activeCategory : string;
  clientData : ClientData;
  enabledModules : list string;
  moduleWeights : gmap string Z;
  scorerConfig : option MatchScores;
  (** [getFields ?? getDefaultResolveFields] and [getDedupKey ??
      getDefaultDedupKey], as the pure functions the caller's resolvers are;
      the default key of a record with neither [id] nor [name] draws
      [Math.random()] and is not such a function. *)
  resolveFields : jsval -> list string;
  resolveDedupKey : jsval -> string;
  maxResults : option Z;
  loggedUser : jsval
}.

(** What the payload creator returns. *)
Inductive Outcome :=
| Fulfilled (rs : list jsval) (fromCache : bool)
| Aborted
| Rejected (message : string)
| Threw (e : JsError).

(** What one invocation does, in order. *)
Inductive Event :=
| EvAbortSignal
| EvExclusionSets
| EvLocalSearch
| EvDispatch (a : Action)
| EvModuleCall (modName : string)
| EvEnrich
| EvMerge.

Record Run := {
  outcome : Outcome;
  trace : list Event;
  data : ClientData
}.

(** [parsedQuery.trimmed.toLowerCase()] *)
Definition cacheKey (pq : ParsedQuery) : string := toLowerCase (trimmed pq).

(** Step 0: the entry under the key, when its category is the active one
    and it is younger than the timeout. *)
Definition cacheHit (st : SearchState) (p : Payload) (now : Z)
  : option CacheEntry :=
  match cache st !! cacheKey (parsedQuery p) with
  | Some cached =>
      if String.eqb (c_activeCategory cached) (activeCategory p)
         && (now - c_timestamp cached <? CACHE_TIMEOUT_MS)
      then Some cached else None
  | None => None
  end.

(** [moduleWeights[item._module] ?? DEFAULT_MODULE_WEIGHTS[item._module]] *)
Definition getWeight (p : Payload) (item : jsval) : option Z :=
  let m := Js.String_ (Js.field item "_module") in
  match moduleWeights p !! m with
  | Some w => Some w
  | None => DEFAULT_MODULE_WEIGHTS !! m
  end.

(** [clientResults.some(cItem => key(cItem) === key(sItem))] *)
Definition collides (key : jsval -> string) (clientResults : list jsval)
  (sItem : jsval) : bool :=
  existsb (fun cItem => String.eqb (key cItem) (key sItem)) clientResults.

(** Step 6. *)
Definition mergeResults (key : jsval -> string)
  (clientResults serverResults : list jsval) : list jsval :=
  (clientResults
   ++ List.filter (fun sItem => negb (collides key clientResults sItem))
        (deduplicateBy serverResults key))%list.

(** [maxResults ? merged.slice(0, maxResults) : merged] *)
Definition capResults (maxResults : option Z) (merged : list jsval) : list jsval :=
  match maxResults with
  | Some n => if n =? 0 then merged else Js.slice0 n merged
  | None => merged
  end.

(** The [catch] of the pipeline. *)
Definition caught (e : JsError) : Outcome :=
  if String.eqb (e_name e) "AbortError" then Aborted else Rejected (e_message e).

(** [clientChats.length < 15 || clientUsers.length < 15] *)
Definition shouldFetchServer (cs : ClientSearch) : bool :=
  (length (clientChats cs) <? 15)%nat || (length (clientUsers cs) <? 15)%nat.

(** Step 3: [shouldFetchServer ? buildServerPromises({...}) : []], with the
    [captured] object the callbacks fill. *)
Definition serverPromises (apis : ModuleApis) (p : Payload)
  (loggedUserZuid : jsval) (sets : ExclusionSets) (cs : ClientSearch)
  : list (string * list jsval) * Captured :=
  if shouldFetchServer cs
  then buildServerPromises apis (parsedQuery p) loggedUserZuid (enabledModules p)
         (activeCategory p) sets
  else ([], {| globalSearchResults := []; usersApiResults := [] |}).

(** Steps 4 and 6: [(await Promise.all(serverPromises)).flat()], ranked. *)
Definition serverResults (p : Payload) (promises : list (string * list jsval))
  : list jsval :=
  rankResults (concat (map snd promises)) (keywords (parsedQuery p))
    (phrase (parsedQuery p)) (resolveFields p) (getWeight p)
    (default DEFAULT_SCORER_CONFIG (scorerConfig p)).

(** Steps 1 to 7, after a cache miss.  The steps that fail here are the two
    local ones.  Past them the run is taken to its end: the resolvers of the
    payload are total functions that return strings, and the cache key is
    one the store accepts. *)
Definition runPipeline (apis : ModuleApis) (p : Payload) (now' : Z) : Run :=
  let pq := parsedQuery p in
  let cd := clientData p in
  let loggedUserZuid := Js.opt_prop (loggedUser p) "Zuid" in
  match buildExclusionSets (chats cd) (users cd) loggedUserZuid with
  | Throw e =>
      {| outcome := Threw e; trace := [EvAbortSignal; EvExclusionSets]; data := cd |}
  | Ok sets =>
      match runClientSearch (chats cd) (users cd) (toLowerCase (trimmed pq)) loggedUserZuid with
      | Throw e =>
          {| outcome := caught e;
             trace := [EvAbortSignal; EvExclusionSets; EvLocalSearch];
             data := cd |}
      | Ok cs =>
          let fetched := serverPromises apis p loggedUserZuid sets cs in
          let enriched := enrichClientData (chats cd) (users cd) sets (snd fetched) in
          let merged :=
            mergeResults (resolveDedupKey p) (clientResults cs)
              (serverResults p (fst fetched)) in
          let final := capResults (maxResults p) merged in
          {| outcome := Fulfilled final false;
             trace :=
               ([EvAbortSignal; EvExclusionSets; EvLocalSearch;
                 EvDispatch (updateResults (clientResults cs) true)]
                ++ map EvModuleCall (map fst (fst fetched))
                ++ [EvEnrich; EvMerge;
                    EvDispatch
                      (setCacheEntry (cacheKey pq)
                         {| c_results := final; c_timestamp := now';
                            c_activeCategory := activeCategory p |})])%list;
             data := {| chats := fst enriched; users := snd enriched |} |}
      end
  end.

(** The payload creator: [now] is the clock at the cache check and [now']
    the clock when the entry is written. *)
Definition executeSearch (apis : ModuleApis) (p : Payload) (st : SearchState)
  (now now' : Z) : Run :=
  match cacheHit st p now with
  | Some cached =>
      {| outcome := Fulfilled (c_results cached) true; trace := [];
         data := clientData p |}
  | None => runPipeline apis p now'
  end.

(** The actions an invocation dispatched. *)
Definition dispatched (tr : list Event) : list Action :=
  omap (fun ev => match ev with EvDispatch a => Some a | _ => None end) tr.

(** The remote module calls an invocation issued. *)
Definition moduleCalls (tr : list Event) : list string :=
  omap (fun ev => match ev with EvModuleCall m => Some m | _ => None end) tr.

(** The store after the dispatches of the invocation, and after the
    [fulfilled] or [rejected] case the thunk ends with. *)
Definition settled (st : SearchState) (o : Outcome) : SearchState :=
  match o with
  | Fulfilled rs _ =>
      {| cache := cache st; results := rs; isLoading := false; error := error st |}
  | Aborted => st
  | Rejected msg =>
      {| cache := cache st; results := results st; isLoading := false;
         error := Some msg |}
  | Threw _ =>
      {| cache := cache st; results := results st; isLoading := false;
         error := Some "Search error" |}
  end.

(** [executeSearch.pending], which the thunk dispatches before it starts. *)
Definition pending (st : SearchState) : SearchState :=
  {| cache := cache st; results := results st; isLoading := true; error := None |}.

Definition storeAfter (st : SearchState) (r : Run) : SearchState :=
  settled (fold_left reducer (dispatched (trace r)) (pending st)) (outcome r).

End WithJSON.

(* ----------------------------------------------------------------- *)
(** ** The default deduplication key *)

(** [getDefaultDedupKey(item)]; [random] is the number [Math.random()]
    returns when it is drawn. *)
Definition getDefaultDedupKey (random : jsval) (item : jsval) : result string :=
  let! m := Js.prop item "_module" in
  let name :=
    Js.or (Js.or (Js.field item "full_name") (Js.field item "name"))
          (Js.field item "title") in
  if Js.strict_eq m (JStr "users") && Js.truthy name
  then let! lower := lowerOf name in Ok ("users::name::" ++ lower)%string
  else Ok (Js.String_ (Js.coalesce m (JStr "unknown")) ++ "::"
           ++ Js.String_ (Js.coalesce (Js.field item "id")
                            (Js.coalesce (Js.field item "name") random)))%string.

(* ----------------------------------------------------------------- *)
(** ** Reducers and selectors of the user interface state

    Each reducer is given the fields of [state.search] it reads and returns
    the fields it assigns.  Indices and counts are integers; the results
    are the records the pipeline stored, none of them [null] or
    [undefined]. *)

Definition MAX_HISTORY : Z := 20.

(** [addToHistory]: the new [state.searchHistory].  The payload is a string
    or missing ([action.payload?.trim()]).  The write to [localStorage] sits
    in its own [try] and does not touch the state. *)
Definition addToHistory (searchHistory : list string) (payload : option string)
  : list string :=
  match payload with
  | None => searchHistory
  | Some s =>
      let q := trim s in
      if nonempty q
      then Js.slice0 MAX_HISTORY
             (q :: List.filter (fun x => negb (String.eqb x q)) searchHistory)
      else searchHistory
  end.

(** [r => r._module === activeCategory] *)
Definition ofCategory (activeCategory : string) (r : jsval) : bool :=
  Js.strict_eq (Js.field r "_module") (JStr activeCategory).

(** [moveHighlight]: the new [state.highlightedIndex]. *)
Definition moveHighlight (results : list jsval) (activeCategory : string)
  (highlightedIndex payload : Z) : Z :=
  let len :=
    Z.of_nat (length (List.filter
                        (fun r => String.eqb activeCategory "all"
                                  || ofCategory activeCategory r) results)) in
  Z.max (-1) (Z.min (highlightedIndex + payload) (len - 1)).

Definition selectFilteredResults (results : list jsval) (activeCategory : string)
  : list jsval :=
  if String.eqb activeCategory "all" then results
  else List.filter (ofCategory activeCategory) results.

(** The body of the loop of [selectCategoryCounts]:
    [if (item._module) counts[item._module] = (counts[item._module] || 0) + 1]. *)
Definition countStep (counts : gmap string Z) (item : jsval) : gmap string Z :=
  let m := Js.field item "_module" in
  if Js.truthy m
  then <[Js.String_ m := default 0 (counts !! Js.String_ m) + 1]> counts
  else counts.

(** The [counts] object: the properties of its own, by name.  Under a name
    of a member of [Object.prototype] the code reads the inherited member
    where the table has no entry; what is proved of the counts leaves those
    names out ([Spec.plainModule]). *)
Definition selectCategoryCounts (results : list jsval) : gmap string Z :=
  fold_left countStep results {[ "all" := Z.of_nat (length results) ]}.

(** [idx >= 0 ? results[idx] : null] on the filtered results. *)
Definition selectHighlightedResult (results : list jsval) (activeCategory : string)
  (highlightedIndex : Z) : jsval :=
  let filtered := selectFilteredResults results activeCategory in
  if 0 <=? highlightedIndex
  then match nth_error filtered (Z.to_nat highlightedIndex) with
       | Some r => r
       | None => JUndefined
       end
  else JNull.

(** [Object.entries(filters).map(([k, v]) => `${k}:${v}`).join(' ')]; the
    object is its list of properties in insertion order. *)
Definition filterString (activeFilters : list (string * jsval)) : string :=
  Js.join " "
    (map (fun kv => (fst kv ++ ":" ++ Js.String_ (snd kv))%string) activeFilters).

(** [addFilter]: the new [state.activeFilters] and [state.parsedQuery]. *)
Definition addFilter (query : string) (activeFilters : list (string * jsval))
  (key : string) (value : jsval) : list (string * jsval) * ParsedQuery :=
  let next := Js.assign key value activeFilters in
  (next, parseQuery (query ++ " " ++ filterString next)).

End Slice.

(* ===================================================================== *)
(** * A small data set *)
(* ===================================================================== *)

Module Example.
Import QueryParser Slice.

(** A decoder that rejects every text. *)
Definition noJSON : string -> option jsval := fun _ => None.

Definition alice : jsval := JObj [("zuid", JStr "1"); ("dname", JStr "Alice")].
Definition bob : jsval := JObj [("zuid", JStr "2"); ("dname", JStr "Bob")].

(** The one-to-one conversation of Alice and Bob, as Bob's client holds it. *)
Definition chatAlice : jsval :=
  JObj [("chatid", JStr "c1"); ("title", JStr "@Alice"); ("chat_type", JInt 1);
        ("recipantssummary", JArr [alice; bob])].

Definition channelAlpha : jsval :=
  JObj [("chatid", JStr "c9"); ("title", JStr "#alpha"); ("chat_type", JInt 8)].

Definition userAlan : jsval := JObj [("zuid", JStr "3"); ("full_name", JStr "Alan")].
Definition userAlma : jsval := JObj [("zuid", JStr "7"); ("full_name", JStr "Alma")].

(** A person record whose name is a number. *)
Definition userNumbered : jsval := JObj [("zuid", JStr "8"); ("full_name", JInt 42)].

(** The remote side: a global search that knows one more channel, and a
    users module that knows Alan and Alma. *)
Definition apis : ModuleApis :=
  {| globalsearch := fun _ =>
       Resolved (JArr [JObj [("chatid", JStr "c5"); ("title", JStr "Alumni");
                             ("chat_type", JInt 8); ("_module", JStr "channels")]]);
     moduleApi := fun m =>
       if String.eqb m "users" then Some (fun _ => Resolved (JArr [userAlan; userAlma]))
       else None |}.

(** Module and identifier, as the default key of records that have an id. *)
Definition moduleAndId (item : jsval) : string :=
  (Js.String_ (Js.field item "_module") ++ "::" ++ Js.String_ (Js.field item "id"))%string.

Definition titleAndName (item : jsval) : list string :=
  [Js.String_ (Js.field item "title"); Js.String_ (Js.field item "full_name")].

Definition payload (query category : string) (cap : option Z) : Payload :=
  {| parsedQuery := parseQuery query;
     activeCategory := category;
     clientData := {| chats := [chatAlice; channelAlpha]; users := [userAlan] |};
     enabledModules := ["users"; "channels"];
     moduleWeights := ∅;
     scorerConfig := None;
     resolveFields := titleAndName;
     resolveDedupKey := moduleAndId;
     maxResults := cap;
     loggedUser := JObj [("Zuid", JStr "2")] |}.

Definition emptyStore : SearchState :=
  {| cache := ∅; results := []; isLoading := false; error := None |}.

(** A store that cached one channel for the query [al] under [all]. *)
Definition cachedEntry : CacheEntry :=
  {| c_results := [channelAlpha]; c_timestamp := 0; c_activeCategory := "all" |}.

Definition cachedStore : SearchState :=
  {| cache := {[ "al" := cachedEntry ]}; results := []; isLoading := false;
     error := None |}.

End Example.

(* ===================================================================== *)
(** * Vocabulary of the statements *)
(* ===================================================================== *)

Module Spec.
Import Scorer.

(** The numeric [_score] of a ranked record. *)
Definition scoreOf (x : jsval) : option Z := Js.to_number (Js.field x "_score").

Definition hasScore (x : jsval) : Prop := exists s, scoreOf x = Some s.

(** [a] scores at least as high as [b]. *)
Definition geScore (a b : jsval) : Prop :=
  exists sa sb, scoreOf a = Some sa /\ scoreOf b = Some sb /\ sb <= sa.

Section DedupInvariant.
Context {K : Type} `{EqDecision K} (getKey : jsval -> K).

(** What holds of the [Map] while [deduplicateBy] reads its input: the keys
    are distinct, and every entry files an item already read under the
    item's own key. *)
Definition seenOk (seen : list (K * jsval)) (read : list jsval) : Prop :=
  NoDup (map fst seen)
  /\ Forall (fun kv => getKey (snd kv) = fst kv /\ snd kv ∈ read) seen.

(** With numeric scores, every item read is filed under its key behind an
    item that scores at least as high. *)
Definition seenBest (seen : list (K * jsval)) (read : list jsval) : Prop :=
  forall y, y ∈ read ->
    exists v, map_get (getKey y) seen = Some v /\ geScore v y.

End DedupInvariant.

(** *** Other-party resolution, as an ordered list of strategies *)

(** An optional argument counts as given when it is truthy: [undefined],
    [null] and the empty string all stand for "not supplied". *)
Definition supplied (v : jsval) : bool := Js.truthy v.

Definition isRecord (p : jsval) : Prop := exists props, p = JObj props.

(** (a) the first participant whose [zuid] differs from the logged-in
    identifier, both read as strings. *)
Definition strategyLoggedIn (loggedInZuid : jsval) (ps : list jsval) : option jsval :=
  if supplied loggedInZuid
  then List.find
         (fun p => negb (String.eqb (Js.String_ (Js.field p "zuid"))
                                    (Js.String_ loggedInZuid))) ps
  else None.

(** (b) the first participant whose [dname] is the chat title. *)
Definition strategyTitle (chatTitle : jsval) (ps : list jsval) : option jsval :=
  if supplied chatTitle
  then List.find (fun p => Js.strict_eq (Js.field p "dname") chatTitle) ps
  else None.

(** (c) the only participant. *)
Definition strategyOnly (ps : list jsval) : option jsval :=
  match ps with
  | [p] => Some p
  | _ => None
  end.

(** The first strategy that succeeds wins. *)
Fixpoint firstSuccess {A} (attempts : list (option A)) : option A :=
  match attempts with
  | [] => None
  | Some a :: _ => Some a
  | None :: rest => firstSuccess rest
  end.

Definition resolveOther (loggedInZuid chatTitle : jsval) (ps : list jsval)
  : option jsval :=
  firstSuccess [strategyLoggedIn loggedInZuid ps;
                strategyTitle chatTitle ps;
                strategyOnly ps].

(** The [zuid] of the participant resolved, [null] when nobody was resolved
    or the participant has no [zuid] (missing or empty). *)
Definition zuidOrNull (o : option jsval) : jsval :=
  match o with
  | Some p => Js.or (Js.field p "zuid") JNull
  | None => JNull
  end.

(** What the summary decodes to: a string goes through the decoder, a
    missing summary is the empty list. *)
Definition decoded (JSON_parse : string -> option jsval) (summary : jsval)
  : option jsval :=
  match summary with
  | JStr s => JSON_parse s
  | v => Some (Js.or v (JArr []))
  end.

(** *** The local stage *)

(** The record has a [title] that is a string. *)
Definition hasStringTitle (c : jsval) : Prop :=
  exists s, Js.field c "title" = JStr s.

(** The value is absent (falsy) or a string. *)
Definition stringOrAbsent (v : jsval) : Prop :=
  Js.truthy v = false \/ exists s, v = JStr s.

(** A person record whose name and email fields are strings when present. *)
Definition wellFormedUser (u : jsval) : Prop :=
  isRecord u
  /\ stringOrAbsent (Js.field u "full_name")
  /\ stringOrAbsent (Js.field u "display_name")
  /\ stringOrAbsent (Js.field u "email").

Definition isTypeError (e : JsError) : Prop := e_name e = "TypeError".

(** The invocation ended in an error: a rejection carrying a message, or an
    exception that escaped the payload creator. *)
Definition isRejection (o : Slice.Outcome) : Prop :=
  match o with
  | Slice.Rejected _ | Slice.Threw _ => True
  | _ => False
  end.

(** The store without the entry under [key]. *)
Definition forget (key : string) (st : Slice.SearchState) : Slice.SearchState :=
  {| Slice.cache := delete key (Slice.cache st);
     Slice.results := Slice.results st;
     Slice.isLoading := Slice.isLoading st;
     Slice.error := Slice.error st |}.

(** *** The round trip of the parser *)

(** Every extracted filter value is non-empty and does not begin with a
    marker [@] or [#]. *)
Definition cleanValues (pq : QueryParser.ParsedQuery) : bool :=
  forallb (fun kv => nonempty (snd kv) && String.eqb (stripMarker (snd kv)) (snd kv))
    (map_to_list (QueryParser.filters pq)).

(** The text left after the removal holds no recognised filter token, and
    nowhere the text [key:value] of an extracted filter. *)
Definition tokenFree (pq : QueryParser.ParsedQuery) : bool :=
  forallb (fun m => negb (QueryParser.includesToken QueryParser.FILTER_TOKENS
                            (toLowerCase (fst m))))
    (QueryParser.execAll 0 (QueryParser.trimmed pq))
  && forallb (fun kv => negb (includes (QueryParser.tokenText kv) (QueryParser.trimmed pq)))
       (map_to_list (QueryParser.filters pq)).

(** A key as the vocabulary has them: word characters, lower case. *)
Definition keyShape (k : string) : Prop :=
  k <> "" /\ allb is_word k = true /\ toLowerCase k = k.

(** A text without white space. *)
Definition spaceFree (s : string) : Prop := allb QueryParser.non_space s = true.

(** White space only. *)
Definition blank (s : string) : Prop := allb is_space s = true.

(** The text has no run of white space other than a single space: [prev]
    tells that the character before it is a space. *)
Fixpoint collapsed (prev : bool) (s : string) : bool :=
  match s with
  | EmptyString => true
  | String c s' =>
      if is_space c then negb prev && Ascii.eqb c " " && collapsed true s'
      else collapsed false s'
  end.

(** The text does not end with white space (and is not empty). *)
Fixpoint endsWithWord (s : string) : bool :=
  match s with
  | EmptyString => false
  | String c EmptyString => negb (is_space c)
  | String _ s' => endsWithWord s'
  end.

(** The text does not start with white space (and is not empty). *)
Definition startsWithWord (s : string) : bool :=
  match s with
  | EmptyString => false
  | String c _ => negb (is_space c)
  end.

(** An extracted filter that survives the round trip next to the text [T]. *)
Definition goodEntry (T : string) (kv : string * string) : Prop :=
  QueryParser.includesToken QueryParser.FILTER_TOKENS (fst kv) = true
  /\ snd kv <> ""
  /\ spaceFree (snd kv)
  /\ stripMarker (snd kv) = snd kv
  /\ includes (QueryParser.tokenText kv) T = false.

(** *** Tables keyed by module *)

(** The names of the members of [Object.prototype].  A plain object used as
    a table ([moduleWeights], the counts of [selectCategoryCounts]) answers
    for these names with the inherited member, which is no number. *)
Definition objectPrototypeNames : list string :=
  ["constructor"; "__defineGetter__"; "__defineSetter__"; "hasOwnProperty";
   "__lookupGetter__"; "__lookupSetter__"; "isPrototypeOf";
   "propertyIsEnumerable"; "toString"; "valueOf"; "__proto__"; "toLocaleString"].

Definition inherited (k : string) : bool :=
  existsb (String.eqb k) objectPrototypeNames.

(** The module of [item], read as a property key, is no inherited name: a
    table keyed by module holds for it what was written under it, or
    nothing. *)
Definition plainModule (item : jsval) : Prop :=
  inherited (Js.String_ (Js.field item "_module")) = false.

(** *** The scorer *)

(** The terms [scoreQuery] tries on the fields: every keyword, and the
    phrase when there are two keywords or more. *)
Definition searchTerms (keywords : list string) (phrase : string) : list string :=
  (keywords ++ if (1 <? length keywords)%nat then [phrase] else [])%list.

(** [r] is the first best match of [g] along [xs]: nothing before it scores
    as high, nothing after it scores higher; [None] when [g] matches
    nowhere. *)
Definition firstBest {A} (g : A -> option ScoreMatch) (xs : list A)
  (r : option ScoreMatch) : Prop :=
  match r with
  | Some m =>
      exists l1 x l2,
        xs = (l1 ++ x :: l2)%list /\ g x = Some m
        /\ (forall y m', y ∈ l1 -> g y = Some m' -> m_score m' < m_score m)
        /\ (forall y m', y ∈ l2 -> g y = Some m' -> m_score m' <= m_score m)
  | None => forall x, x ∈ xs -> g x = None
  end.

(** [r] is the best match over every pair of a term and a field: [None]
    when no pair matches. *)
Definition bestPair (terms fields : list string) (scores : MatchScores)
  (r : option ScoreMatch) : Prop :=
  match r with
  | Some m =>
      (exists t f, t ∈ terms /\ f ∈ fields /\ detectMatch t f scores = Some m)
      /\ forall t f m', t ∈ terms -> f ∈ fields ->
           detectMatch t f scores = Some m' -> m_score m' <= m_score m
  | None => forall t f, t ∈ terms -> f ∈ fields -> detectMatch t f scores = None
  end.

(** The three properties [computeScore] writes. *)
Definition scoreProps (m : ScoreMatch) (w : option Z) : list (string * jsval) :=
  [("_score", JNum (mul_toFixed6 (m_score m) (weight_or_1 w)));
   ("_matchType", JStr (MatchType_name (m_type m)));
   ("_matchScore", JNum (m_score m))].

(** The three properties of a ranked record whose final score is [score]. *)
Definition rankProps (m : ScoreMatch) (score : Z) : list (string * jsval) :=
  [("_score", JNum score);
   ("_matchType", JStr (MatchType_name (m_type m)));
   ("_matchScore", JNum (m_score m))].

(** [scoreQuery] finds a match among the fields of [item]. *)
Definition matching (keywords : list string) (phrase : string)
  (getFields : jsval -> list string) (cfg : MatchScores) (item : jsval) : bool :=
  match scoreQuery keywords phrase (getFields item) cfg with
  | Some _ => true
  | None => false
  end.

(** [r] is [item] as ranked: [scoreQuery] matched the item, and [r] is the
    item with a final score, the kind of the match and the match score
    written over it.  The final score is left open: it is the match score
    times the module weight, rounded. *)
Definition rankedAs (keywords : list string) (phrase : string)
  (getFields : jsval -> list string) (cfg : MatchScores) (item r : jsval) : Prop :=
  exists m score,
    scoreQuery keywords phrase (getFields item) cfg = Some m
    /\ r = Js.extend item (rankProps m score).

(** [rawServer]: the records the remote calls of an invocation settled to,
    in the order of the calls ([(await Promise.all(serverPromises)).flat()]);
    none when the invocation does not get to the calls. *)
Definition rawServer (JSON_parse : string -> option jsval) (apis : Slice.ModuleApis)
  (p : Slice.Payload) : list jsval :=
  let cd := Slice.clientData p in
  let logged := Js.opt_prop (Slice.loggedUser p) "Zuid" in
  match Slice.buildExclusionSets JSON_parse (Slice.chats cd) (Slice.users cd) logged,
        Slice.runClientSearch JSON_parse (Slice.chats cd) (Slice.users cd)
          (toLowerCase (QueryParser.trimmed (Slice.parsedQuery p))) logged with
  | Ok sets, Ok cs =>
      concat (map snd (fst (Slice.serverPromises JSON_parse apis p logged sets cs)))
  | _, _ => []
  end.

(** *** The remote fan-out *)

(** A module call that failed, or resolved to something that is not an
    array, replaced by one that resolves to the empty array. *)
Definition silenced (o : Slice.ApiOutcome) : Slice.ApiOutcome :=
  match o with
  | Slice.Resolved (JArr l) => Slice.Resolved (JArr l)
  | _ => Slice.Resolved (JArr [])
  end.

Definition silencedApis (apis : Slice.ModuleApis) : Slice.ModuleApis :=
  {| Slice.globalsearch := fun pq => silenced (Slice.globalsearch apis pq);
     Slice.moduleApi := fun m =>
       match Slice.moduleApi apis m with
       | Some f => Some (fun pq => silenced (f pq))
       | None => None
       end |}.

(** The modules [buildServerPromises] can add, in the order it adds them. *)
Definition optionalModules : list string :=
  ["users"; "chats"; "channels"; "bots"; "threads"; "messages"; "files";
   "department"; "widgets"; "apps"; "connections"; "settings"].

(** The identifier set a module's records are checked against. *)
Definition exclusionOf (sets : Slice.ExclusionSets) (modName : string)
  : option (gset string) :=
  if String.eqb modName "users" then Some (snd sets)
  else if existsb (String.eqb modName) ["chats"; "channels"; "bots"; "threads"]
       then Some (fst sets)
       else None.

(** *** The parser *)

(** The value the scan leaves under [k]: that of the last match whose key,
    lower-cased, is [k]. *)
Definition lastValue (k : string) (ms : list (string * string)) : option string :=
  fold_left
    (fun acc m => if String.eqb (toLowerCase (fst m)) k
                  then Some (stripMarker (snd m)) else acc)
    ms None.

(** A keyword: not empty, no white space. *)
Definition isKeyword (w : string) : Prop := w <> "" /\ spaceFree w.

(** *** Identifier sets and the remote modules *)

(** [String(item[idField])] *)
Definition idText (idField : string) (item : jsval) : string :=
  Js.String_ (Js.field item idField).

(** The other party of a one-to-one conversation resolves to [v]. *)
Definition otherParty (JSON_parse : string -> option jsval) (logged c v : jsval) : Prop :=
  Js.String_ (Js.field c "chat_type") = "1"
  /\ Slice.getOtherUserId JSON_parse (Js.field c "recipantssummary") logged
       (Js.field c "title") = Ok v
  /\ Js.truthy v = true.

(** A module is called when its API is present, the module is enabled, and
    the active category is [all] or the module itself. *)
Definition called (apis : Slice.ModuleApis) (enabledModules : list string)
  (activeCategory modName : string) : bool :=
  match Slice.moduleApi apis modName with
  | Some _ =>
      Slice.enabled enabledModules modName && Slice.inCategory activeCategory modName
  | None => false
  end.

(** What [enrichClientData] appends from [source] to a list whose
    identifiers are [known]: records of [source], in their order, with an
    identifier that is not known and not appended before; and afterwards
    every identifier of [source] is known or appended. *)
Definition appendedFrom (idField : string) (known : gset string)
  (source added : list jsval) : Prop :=
  sublist added source
  /\ Forall (fun item => Js.truthy (Js.field item idField) = true
                         /\ idText idField item ∉ known) added
  /\ NoDup (map (idText idField) added)
  /\ forall item, item ∈ source -> Js.truthy (Js.field item idField) = true ->
       idText idField item ∈ known \/ idText idField item ∈ map (idText idField) added.

(** *** What the local stage returns *)

(** A local conversation record: its title, markers removed, starts with
    the query when lower-cased. *)
Definition localChatHit (queryLower : string) (c : jsval) : Prop :=
  (exists t, Js.field c "title" = JStr t
             /\ startsWith queryLower (toLowerCase t) = true)
  /\ Js.field c "_source" = JStr "client".

(** A local person record: its name or its email starts with the query. *)
Definition localUserHit (queryLower : string) (u : jsval) : Prop :=
  Js.field u "_module" = JStr "users"
  /\ Js.field u "_source" = JStr "client"
  /\ exists name email,
       Slice.lowerOf (Js.or (Js.or (Js.field u "full_name") (Js.field u "display_name"))
                        (JStr "")) = Ok name
       /\ Slice.lowerOf (Js.or (Js.field u "email") (JStr "")) = Ok email
       /\ startsWith queryLower name || startsWith queryLower email = true.

(** *** The default key *)

(** [item.full_name || item.name || item.title] *)
Definition personName (item : jsval) : jsval :=
  Js.or (Js.or (Js.field item "full_name") (Js.field item "name"))
        (Js.field item "title").

(** The record is keyed by its name: it is tagged [users] and has one. *)
Definition namedPerson (item : jsval) : bool :=
  Js.strict_eq (Js.field item "_module") (JStr "users") && Js.truthy (personName item).

(** *** Filters added through the user interface *)

(** A key and a value that together read as one token [key:value]. *)
Definition wellFormedToken (kv : string * string) : Prop :=
  fst kv <> "" /\ allb is_word (fst kv) = true
  /\ snd kv <> "" /\ spaceFree (snd kv).

(** An entry of [activeFilters] with its value as text. *)
Definition entryText (kv : string * jsval) : string * string :=
  (fst kv, Js.String_ (snd kv)).

End Spec.

(* ===================================================================== *)
(** * Properties *)
(* ===================================================================== *)

(** ** Strings *)

Section StringFacts.

Lemma append_nil_r (s : string) : (s ++ "")%string = s.
Proof. induction s as [|c s IH]; simpl; [reflexivity|f_equal; exact IH]. Qed.

Lemma append_assoc (a b c : string) :
  ((a ++ b) ++ c)%string = (a ++ (b ++ c))%string.
Proof. induction a as [|x a IH]; simpl; [reflexivity|f_equal; exact IH]. Qed.

Lemma length_append (a b : string) :
  String.length (a ++ b) = (String.length a + String.length b)%nat.
Proof. induction a as [|x a IH]; simpl; [reflexivity|f_equal; exact IH]. Qed.

Lemma nonempty_true (s : string) : nonempty s = true <-> s <> "".
Proof. destruct s; simpl; split; congruence. Qed.

Lemma nonempty_false (s : string) : nonempty s = false <-> s = "".
Proof. destruct s; simpl; split; congruence. Qed.

Lemma startsWith_spec (t s : string) :
  startsWith t s = true <-> exists r, s = (t ++ r)%string.
Proof.
  revert s. induction t as [|a t IH]; intros s.
  - simpl. split; [intros _; now exists s|reflexivity].
  - destruct s as [|b s]; simpl.
    + split; [discriminate|intros [r Hr]; discriminate].
    + rewrite andb_true_iff, Ascii.eqb_eq, IH. split.
      * intros [-> [r ->]]. now exists r.
      * intros [r Hr]. injection Hr as -> ->. split; [reflexivity|now exists r].
Qed.

Lemma startsWith_append (t r : string) : startsWith t (t ++ r) = true.
Proof. apply startsWith_spec. now exists r. Qed.

Lemma includes_cons (t : string) (c : ascii) (s : string) :
  includes t (String c s) = startsWith t (String c s) || includes t s.
Proof. destruct t; reflexivity. Qed.

Lemma includes_spec (t s : string) :
  includes t s = true <-> exists a b, s = (a ++ t ++ b)%string.
Proof.
  induction s as [|c s IH].
  - cbn [includes]. rewrite orb_false_r, startsWith_spec. split.
    + intros [r Hr]. now exists "", r.
    + intros [a [b Hab]]. destruct a; [now exists b|discriminate].
  - rewrite includes_cons, orb_true_iff, startsWith_spec, IH. split.
    + intros [[r Hr]|[a [b Hab]]].
      * now exists "", r.
      * exists (String c a), b. simpl. now rewrite Hab.
    + intros [a [b Hab]]. destruct a as [|x a].
      * left. now exists b.
      * right. simpl in Hab. injection Hab as _ ->. now exists a, b.
Qed.

End StringFacts.

(** ** scorer.js: match detection *)

Section DetectMatch.
Import Scorer.

(** C6.  [detectMatch] lower-cases and trims both operands.  It returns
    nothing when an operand is empty, before or after trimming.  Otherwise,
    with the default scores, the first case that applies decides: the field
    equals the keyword ([exact], 1.5); the field starts with the keyword
    ([startsWith], 1.0); the field contains a space followed by the keyword
    ([afterSpace], 0.6); the field contains the keyword ([middle], 0.3); none
    of these (no match). *)
Theorem detectMatch_classification (kw field : string) :
  let k := trim (toLowerCase kw) in
  let f := trim (toLowerCase field) in
  let starts := exists r, f = (k ++ r)%string in
  let after_space := exists a b, f = (a ++ (" " ++ k) ++ b)%string in
  let inside := exists a b, f = (a ++ k ++ b)%string in
  let found ty sc := detectMatch kw field DEFAULT_SCORER_CONFIG
                     = Some {| m_type := ty; m_score := sc |} in
  (kw = "" \/ field = "" \/ k = "" \/ f = "" ->
   detectMatch kw field DEFAULT_SCORER_CONFIG = None)
  /\ (k <> "" -> f <> "" ->
      (f = k -> found exact 1500000)
      /\ (f <> k -> starts -> found startsWithT 1000000)
      /\ (~ starts -> after_space -> found afterSpace 600000)
      /\ (~ starts -> ~ after_space -> inside -> found middle 300000)
      /\ (~ inside -> detectMatch kw field DEFAULT_SCORER_CONFIG = None)).
Proof.
  intros k f starts after_space inside found. split.
  - intros H. unfold detectMatch. fold k f.
    destruct (nonempty kw) eqn:Ekw; [|reflexivity].
    destruct (nonempty field) eqn:Efd; [|reflexivity]. simpl.
    destruct (nonempty k) eqn:Ek; [|reflexivity].
    destruct (nonempty f) eqn:Ef; [|reflexivity].
    apply nonempty_true in Ekw, Efd, Ek, Ef. tauto.
  - intros Hk Hf.
    assert (Hkw : nonempty kw = true).
    { destruct kw; [|reflexivity]. now contradiction Hk. }
    assert (Hfd : nonempty field = true).
    { destruct field; [|reflexivity]. now contradiction Hf. }
    assert (Hstep : detectMatch kw field DEFAULT_SCORER_CONFIG =
      if String.eqb f k then Some {| m_type := exact; m_score := 1500000 |}
      else if startsWith k f then Some {| m_type := startsWithT; m_score := 1000000 |}
      else if includes (" " ++ k) f then Some {| m_type := afterSpace; m_score := 600000 |}
      else if includes k f then Some {| m_type := middle; m_score := 300000 |}
      else None).
    { unfold detectMatch. fold k f. rewrite Hkw, Hfd. simpl.
      apply nonempty_true in Hk, Hf. now rewrite Hk, Hf. }
    unfold found. rewrite Hstep. clear Hstep Hkw Hfd found.
    subst starts after_space inside. cbv beta. clearbody k f.
    assert (Heq : f = k -> exists r, f = (k ++ r)%string).
    { intros ->. exists "". now rewrite append_nil_r. }
    destruct (String.eqb_spec f k) as [E|E].
    + repeat split; try tauto.
      intros Hin. exfalso. apply Hin. exists "", "". simpl. now rewrite append_nil_r.
    + destruct (startsWith k f) eqn:Es.
      * apply startsWith_spec in Es. repeat split; try tauto.
        intros Hin. exfalso. apply Hin. destruct Es as [r Hr]. now exists "", r.
      * assert (Hns : ~ exists r, f = (k ++ r)%string).
        { intros Hs. apply startsWith_spec in Hs. congruence. }
        destruct (includes (" " ++ k) f) eqn:Ea.
        -- apply includes_spec in Ea. repeat split; try tauto.
           intros Hin. exfalso. apply Hin. destruct Ea as [a [b Hab]].
           exists (a ++ " ")%string, b. rewrite Hab.
           rewrite !append_assoc. reflexivity.
        -- assert (Hna : ~ exists a b, f = (a ++ (" " ++ k) ++ b)%string).
           { intros Ha. apply includes_spec in Ha. congruence. }
           destruct (includes k f) eqn:Ei.
           ++ apply includes_spec in Ei. repeat split; tauto.
           ++ assert (Hni : ~ exists a b, f = (a ++ k ++ b)%string).
              { intros Hi. apply includes_spec in Hi. congruence. }
              repeat split; tauto.
Qed.

(** The keyword [AL] against the field [ Alice ]: a prefix match. *)
Lemma detectMatch_classification_witness :
  detectMatch "AL" " Alice " DEFAULT_SCORER_CONFIG
  = Some {| m_type := startsWithT; m_score := 1000000 |}.
Proof.
  destruct (detectMatch_classification "AL" " Alice ") as [_ H].
  destruct H as [_ [H _]]; [discriminate|discriminate|].
  apply H; [discriminate|now exists "ice"].
Defined.

End DetectMatch.

(** ** Arrays: [sort] *)

Section SortFacts.
Context {A : Type} (cmp : A -> A -> Z).

Lemma insert_perm (x : A) (l : list A) : Js.insert cmp x l ≡ₚ x :: l.
Proof.
  induction l as [|y l IH]; simpl; [reflexivity|].
  destruct (cmp x y <=? 0); [reflexivity|].
  rewrite IH. apply perm_swap.
Qed.

Lemma sort_perm (l : list A) : Js.sort cmp l ≡ₚ l.
Proof.
  induction l as [|x l IH]; simpl; [reflexivity|].
  unfold Js.sort in IH. now rewrite insert_perm, IH.
Qed.

Lemma sort_length (l : list A) : length (Js.sort cmp l) = length l.
Proof. now rewrite sort_perm. Qed.

Lemma sort_elem_of (x : A) (l : list A) : x ∈ Js.sort cmp l <-> x ∈ l.
Proof. now rewrite sort_perm. Qed.

End SortFacts.

(** ** scorer.js: ranking and deduplication *)

Section RankFacts.
Import Scorer Spec.

Lemma lookup_assign_eq k v props : Js.lookup k (Js.assign k v props) = v.
Proof.
  induction props as [|[k' v'] props IH]; simpl.
  - now rewrite String.eqb_refl.
  - destruct (String.eqb_spec k' k) as [->|E]; simpl.
    + now rewrite String.eqb_refl.
    + apply String.eqb_neq in E. now rewrite E.
Qed.

Lemma lookup_assign_ne k k' v props :
  k <> k' -> Js.lookup k (Js.assign k' v props) = Js.lookup k props.
Proof.
  intros Hne. induction props as [|[k0 v0] props IH]; simpl.
  - destruct (String.eqb_spec k' k); congruence.
  - destruct (String.eqb_spec k0 k') as [->|E]; simpl.
    + destruct (String.eqb_spec k' k); congruence.
    + destruct (String.eqb_spec k0 k); congruence.
Qed.

Lemma geScore_refl x : hasScore x -> geScore x x.
Proof. intros [s Hs]. exists s, s. repeat split; [assumption..|lia]. Qed.

Lemma geScore_trans x y z : geScore x y -> geScore y z -> geScore x z.
Proof.
  intros (a & b & Ha & Hb & Hab) (b' & c & Hb' & Hc & Hbc).
  exists a, c. repeat split; [assumption..|]. rewrite Hb in Hb'. injection Hb' as <-. lia.
Qed.

Lemma geScore_hasScore_l x y : geScore x y -> hasScore x.
Proof. intros (a & b & Ha & _). now exists a. Qed.

(** The comparator keeps [x] before [y] exactly when [x] scores at least
    as high. *)
Lemma by_score_desc_le x y :
  hasScore x -> hasScore y ->
  (by_score_desc x y <= 0 <-> geScore x y).
Proof.
  intros [sx Hx] [sy Hy]. unfold by_score_desc, Js.sub_cmp, geScore.
  unfold scoreOf in *. rewrite Hx, Hy. split.
  - intros H. exists sx, sy. repeat split; lia.
  - intros (a & b & Ha & Hb & Hab). injection Ha as <-. injection Hb as <-. lia.
Qed.

Lemma by_score_desc_gt x y :
  hasScore x -> hasScore y -> ~ by_score_desc x y <= 0 -> geScore y x.
Proof.
  intros [sx Hx] [sy Hy]. unfold by_score_desc, Js.sub_cmp, geScore.
  unfold scoreOf in *. rewrite Hx, Hy. intros H.
  exists sy, sx. repeat split; lia.
Qed.

Lemma insert_sorted x l :
  hasScore x -> Forall hasScore l ->
  StronglySorted geScore l ->
  StronglySorted geScore (Js.insert by_score_desc x l).
Proof.
  intros Hx Hl Hs. induction Hs as [|y l Hs IH Hy]; simpl.
  - constructor; constructor.
  - apply Forall_cons in Hl as [Hy' Hl].
    destruct (Z.leb_spec (by_score_desc x y) 0) as [Hle|Hgt].
    + apply by_score_desc_le in Hle; [|assumption..].
      constructor; [now constructor|]. constructor; [assumption|].
      eapply Forall_impl; [exact Hy|]. intros z Hz. now apply geScore_trans with y.
    + constructor; [now apply IH|].
      rewrite insert_perm. constructor; [|assumption].
      apply by_score_desc_gt; [assumption..|lia].
Qed.

Lemma sort_sorted l :
  Forall hasScore l -> StronglySorted geScore (Js.sort by_score_desc l).
Proof.
  induction l as [|x l IH]; intros Hl; simpl; [constructor|].
  apply Forall_cons in Hl as [Hx Hl].
  apply insert_sorted; [assumption| |now apply IH].
  change (Forall hasScore (Js.sort by_score_desc l)). now rewrite sort_perm.
Qed.

Lemma computeScore_hasScore item kws phrase fields w cfg r :
  computeScore item kws phrase fields w cfg = Some r -> hasScore r.
Proof.
  unfold computeScore. destruct (scoreQuery kws phrase fields cfg) as [m|]; [|discriminate].
  intros [= <-]. eexists. unfold scoreOf, Js.extend, Js.field. simpl.
  rewrite !lookup_assign_ne by discriminate. rewrite lookup_assign_eq. reflexivity.
Qed.

Lemma scoreAll_hasScore items kws phrase getFields getWeight cfg :
  Forall hasScore (scoreAll items kws phrase getFields getWeight cfg).
Proof.
  induction items as [|item items IH]; simpl; [constructor|].
  destruct (computeScore item kws phrase (getFields item) (getWeight item) cfg) eqn:E;
    [|assumption].
  constructor; [|assumption]. eapply computeScore_hasScore, E.
Qed.

(** The scored records are the matching items, one for one and in their
    order. *)
Lemma scoreAll_rankedAs items kws phrase getFields getWeight cfg :
  Forall2 (rankedAs kws phrase getFields cfg)
    (List.filter (matching kws phrase getFields cfg) items)
    (scoreAll items kws phrase getFields getWeight cfg).
Proof.
  induction items as [|item items IH]; cbn [scoreAll List.filter]; [constructor|].
  unfold matching at 1, computeScore.
  destruct (scoreQuery kws phrase (getFields item) cfg) as [m|] eqn:Em; [|exact IH].
  constructor; [|exact IH].
  exists m, (mul_toFixed6 (m_score m) (weight_or_1 (getWeight item))).
  split; [exact Em|reflexivity].
Qed.

Lemma rankResults_rankedAs items kws phrase getFields getWeight cfg :
  exists scoredItems,
    Forall2 (rankedAs kws phrase getFields cfg)
      (List.filter (matching kws phrase getFields cfg) items) scoredItems
    /\ rankResults items kws phrase getFields getWeight cfg ≡ₚ scoredItems.
Proof.
  exists (scoreAll items kws phrase getFields getWeight cfg).
  split; [apply scoreAll_rankedAs|apply sort_perm].
Qed.

End RankFacts.

Section DedupFacts.
Import Scorer Spec.
Context {K : Type} `{EqDecision K} (getKey : jsval -> K).

Lemma map_get_set_eq (k : K) v (seen : list (K * jsval)) :
  map_get k (map_set k v seen) = Some v.
Proof.
  induction seen as [|[k' v'] seen IH]; simpl.
  - now rewrite decide_True.
  - destruct (decide (k' = k)) as [->|E]; simpl.
    + now rewrite decide_True.
    + now rewrite decide_False.
Qed.

Lemma map_get_set_ne (k k' : K) v (seen : list (K * jsval)) :
  k <> k' -> map_get k (map_set k' v seen) = map_get k seen.
Proof.
  intros Hne. induction seen as [|[k0 v0] seen IH]; simpl.
  - now rewrite decide_False by congruence.
  - destruct (decide (k0 = k')) as [->|E]; simpl.
    + now rewrite !decide_False by congruence.
    + destruct (decide (k0 = k)); [reflexivity|assumption].
Qed.

Lemma map_get_elem_of (k : K) v (seen : list (K * jsval)) :
  map_get k seen = Some v -> (k, v) ∈ seen.
Proof.
  induction seen as [|[k' v'] seen IH]; simpl; [discriminate|].
  destruct (decide (k' = k)) as [->|E].
  - intros [= ->]. left.
  - intros H. right. now apply IH.
Qed.

Lemma map_get_None (k : K) (seen : list (K * jsval)) :
  map_get k seen = None -> k ∉ map fst seen.
Proof.
  induction seen as [|[k' v'] seen IH]; simpl.
  - intros _. apply not_elem_of_nil.
  - destruct (decide (k' = k)) as [->|E]; [discriminate|].
    intros H. apply not_elem_of_cons. split; [congruence|now apply IH].
Qed.

Lemma elem_of_map_get (k : K) v (seen : list (K * jsval)) :
  NoDup (map fst seen) -> (k, v) ∈ seen -> map_get k seen = Some v.
Proof.
  induction seen as [|[k' v'] seen IH]; simpl; intros Hnd Hin.
  - now apply elem_of_nil in Hin.
  - apply NoDup_cons in Hnd as [Hk' Hnd].
    apply elem_of_cons in Hin as [[= -> ->]|Hin].
    + now rewrite decide_True.
    + destruct (decide (k' = k)) as [->|E]; [|now apply IH].
      exfalso. apply Hk'. apply (list_elem_of_fmap_2 fst _ (k, v)). exact Hin.
Qed.

Lemma map_set_keys_new (k : K) v (seen : list (K * jsval)) :
  k ∉ map fst seen -> map_set k v seen = (seen ++ [(k, v)])%list.
Proof.
  induction seen as [|[k' v'] seen IH]; simpl; intros Hk; [reflexivity|].
  apply not_elem_of_cons in Hk as [Hne Hk].
  rewrite decide_False by congruence. now rewrite IH.
Qed.

Lemma map_set_keys_old (k : K) v (seen : list (K * jsval)) :
  k ∈ map fst seen -> map fst (map_set k v seen) = map fst seen.
Proof.
  induction seen as [|[k' v'] seen IH]; simpl; intros Hk.
  - now apply elem_of_nil in Hk.
  - destruct (decide (k' = k)) as [->|E]; [reflexivity|].
    simpl. f_equal. apply IH. apply elem_of_cons in Hk as [->|Hk]; [congruence|assumption].
Qed.

Lemma map_set_elem_of (k : K) v kv (seen : list (K * jsval)) :
  kv ∈ map_set k v seen -> kv = (k, v) \/ kv ∈ seen.
Proof.
  induction seen as [|[k' v'] seen IH]; simpl.
  - intros Hin. apply list_elem_of_singleton in Hin. now left.
  - destruct (decide (k' = k)) as [->|E]; intros Hin.
    + apply elem_of_cons in Hin as [->|Hin]; [now left|]. right. now right.
    + apply elem_of_cons in Hin as [->|Hin]; [right; left|].
      destruct (IH Hin) as [->|Hin']; [now left|]. right. now right.
Qed.

Local Abbreviation seenOk := (Spec.seenOk getKey).
Local Abbreviation seenBest := (Spec.seenBest getKey).

Lemma dedupStep_ok seen read item :
  seenOk seen read -> seenOk (dedupStep getKey seen item) (read ++ [item]).
Proof.
  intros [Hnd Hall].
  assert (Hall' : Forall (fun kv => getKey (snd kv) = fst kv /\ snd kv ∈ (read ++ [item])%list) seen).
  { eapply Forall_impl; [exact Hall|]. intros kv [? ?]. split; [assumption|].
    apply elem_of_app. now left. }
  assert (Hset : seenOk (map_set (getKey item) item seen) (read ++ [item])).
  { split.
    - destruct (decide (getKey item ∈ map fst seen)) as [Hin|Hnin].
      + now rewrite map_set_keys_old.
      + rewrite map_set_keys_new by assumption. rewrite map_app. simpl.
        apply NoDup_app. repeat split; [assumption| |apply NoDup_singleton].
        intros k Hk Hk'. apply list_elem_of_singleton in Hk'. now subst.
    - apply Forall_forall. intros kv Hkv.
      apply map_set_elem_of in Hkv as [->|Hkv].
      + simpl. split; [reflexivity|]. apply elem_of_app. right. left.
      + rewrite Forall_forall in Hall'. now apply Hall'. }
  unfold dedupStep. destruct (map_get (getKey item) seen) as [old|]; [|exact Hset].
  destruct (Js.gt _ _); [exact Hset|]. now split.
Qed.

Lemma gt_geScore a b :
  hasScore a -> hasScore b ->
  if Js.gt (Js.field a "_score") (Js.field b "_score")
  then geScore a b else geScore b a.
Proof.
  intros [sa Ha] [sb Hb]. unfold Js.gt, geScore, scoreOf in *. rewrite Ha, Hb.
  destruct (Z.ltb_spec sb sa).
  - exists sa, sb. repeat split; lia.
  - exists sb, sa. repeat split; lia.
Qed.

Lemma dedupStep_best seen read item :
  Forall hasScore (read ++ [item]) ->
  seenOk seen read -> seenBest seen read ->
  seenBest (dedupStep getKey seen item) (read ++ [item]).
Proof.
  intros Hsc [Hnd Hall] Hbest.
  apply Forall_app in Hsc as [Hread Hitem]. rewrite Forall_singleton in Hitem.
  unfold dedupStep. destruct (map_get (getKey item) seen) as [old|] eqn:Eold.
  - assert (Hold : hasScore old).
    { apply map_get_elem_of in Eold. rewrite Forall_forall in Hall.
      destruct (Hall _ Eold) as [_ Hin]. rewrite Forall_forall in Hread. now apply Hread. }
    pose proof (gt_geScore item old Hitem Hold) as Hcmp.
    destruct (Js.gt _ _); intros y Hy; apply elem_of_app in Hy as [Hy|Hy].
    + destruct (Hbest y Hy) as (v & Hv & Hge).
      destruct (decide (getKey y = getKey item)) as [E|E].
      * rewrite E, map_get_set_eq. eexists; split; [reflexivity|].
        rewrite E, Eold in Hv. injection Hv as <-. now apply geScore_trans with old.
      * rewrite map_get_set_ne by assumption. now exists v.
    + apply list_elem_of_singleton in Hy as ->. rewrite map_get_set_eq.
      eexists; split; [reflexivity|]. now apply geScore_refl.
    + now apply Hbest.
    + apply list_elem_of_singleton in Hy as ->. now exists old.
  - intros y Hy. apply elem_of_app in Hy as [Hy|Hy].
    + destruct (Hbest y Hy) as (v & Hv & Hge).
      rewrite map_get_set_ne; [now exists v|]. intros E. congruence.
    + apply list_elem_of_singleton in Hy as ->. rewrite map_get_set_eq.
      eexists; split; [reflexivity|]. now apply geScore_refl.
Qed.

Lemma dedupFold_ok items seen read :
  seenOk seen read ->
  seenOk (fold_left (dedupStep getKey) items seen) (read ++ items).
Proof.
  revert seen read. induction items as [|item items IH]; intros seen read Hok; simpl.
  - now rewrite app_nil_r.
  - replace (read ++ item :: items)%list with ((read ++ [item]) ++ items)%list
      by now rewrite <- app_assoc.
    apply IH. now apply dedupStep_ok.
Qed.

Lemma dedupFold_best items seen read :
  Forall hasScore (read ++ items) ->
  seenOk seen read -> seenBest seen read ->
  seenBest (fold_left (dedupStep getKey) items seen) (read ++ items).
Proof.
  revert seen read. induction items as [|item items IH]; intros seen read Hsc Hok Hb; simpl.
  - now rewrite app_nil_r.
  - replace (read ++ item :: items)%list with ((read ++ [item]) ++ items)%list in *
      by now rewrite <- app_assoc.
    apply IH; [assumption|now apply dedupStep_ok|].
    apply dedupStep_best; [|assumption..].
    apply Forall_app in Hsc as [? _]. assumption.
Qed.

Lemma seenOk_keys seen read :
  seenOk seen read -> map getKey (map snd seen) = map fst seen.
Proof.
  intros [_ Hall]. induction Hall as [|kv seen [Hk _] _ IH]; simpl; [reflexivity|].
  now rewrite Hk, IH.
Qed.

Lemma deduplicateBy_keys_NoDup items :
  NoDup (map getKey (deduplicateBy items getKey)).
Proof.
  unfold deduplicateBy.
  pose proof (dedupFold_ok items [] []) as Hok. simpl in Hok.
  assert (Hok0 : seenOk [] []) by (split; constructor).
  specialize (Hok Hok0).
  rewrite sort_perm. erewrite seenOk_keys by exact Hok. apply Hok.
Qed.

Lemma deduplicateBy_subset items x :
  x ∈ deduplicateBy items getKey -> x ∈ items.
Proof.
  unfold deduplicateBy. rewrite sort_elem_of.
  pose proof (dedupFold_ok items [] []) as Hok. simpl in Hok.
  assert (Hok0 : seenOk [] []) by (split; constructor).
  destruct (Hok Hok0) as [_ Hall].
  intros Hx. apply list_elem_of_fmap in Hx as (kv & -> & Hkv).
  rewrite Forall_forall in Hall. now apply Hall.
Qed.

Lemma deduplicateBy_best items x y :
  Forall hasScore items ->
  x ∈ deduplicateBy items getKey -> y ∈ items -> getKey y = getKey x ->
  geScore x y.
Proof.
  intros Hsc Hx Hy Hk. unfold deduplicateBy in Hx. rewrite sort_elem_of in Hx.
  assert (Hok0 : seenOk [] []) by (split; constructor).
  pose proof (dedupFold_ok items [] [] Hok0) as Hok. simpl in Hok.
  assert (Hb0 : seenBest [] []).
  { intros z Hz. now apply elem_of_nil in Hz. }
  pose proof (dedupFold_best items [] [] Hsc Hok0 Hb0) as Hb. simpl in Hb.
  destruct (Hb y Hy) as (v & Hv & Hge).
  apply list_elem_of_fmap in Hx as ([k x'] & -> & Hkv). simpl in *.
  destruct Hok as [Hnd Hall]. rewrite Forall_forall in Hall.
  destruct (Hall _ Hkv) as [Hkx _]. simpl in Hkx.
  apply elem_of_map_get in Hkv; [|assumption].
  rewrite Hk, Hkx, Hkv in Hv. now injection Hv as <-.
Qed.

Lemma deduplicateBy_sorted items :
  Forall hasScore items -> StronglySorted geScore (deduplicateBy items getKey).
Proof.
  intros Hsc. unfold deduplicateBy. apply sort_sorted.
  apply Forall_forall. intros x Hx. rewrite Forall_forall in Hsc. apply Hsc.
  apply deduplicateBy_subset. unfold deduplicateBy. now rewrite sort_elem_of.
Qed.

Lemma dedupStep_filed (seen : list (K * jsval)) (item : jsval) (k : K) :
  is_Some (map_get k seen) \/ k = getKey item ->
  is_Some (map_get k (dedupStep getKey seen item)).
Proof.
  intros Hk. unfold dedupStep.
  assert (forall v, is_Some (map_get k (map_set (getKey item) v seen))) as Hset.
  { intros v. destruct (decide (k = getKey item)) as [->|Hne].
    - rewrite map_get_set_eq. now eexists.
    - rewrite map_get_set_ne by exact Hne. destruct Hk as [Hk|Hk]; [exact Hk|contradiction]. }
  destruct (map_get (getKey item) seen) as [old|] eqn:Eold; [|apply Hset].
  destruct (Js.gt _ _); [apply Hset|].
  destruct Hk as [Hk| ->]; [exact Hk|]. rewrite Eold. now eexists.
Qed.

Lemma dedupFold_filed (items : list jsval) (seen : list (K * jsval)) (k : K) :
  is_Some (map_get k seen) \/ k ∈ map getKey items ->
  is_Some (map_get k (fold_left (dedupStep getKey) items seen)).
Proof.
  revert seen. induction items as [|item items IH]; intros seen Hk; cbn [fold_left].
  - destruct Hk as [Hk|Hk]; [exact Hk|inversion Hk].
  - apply IH. cbn [map] in Hk. destruct Hk as [Hk|Hk].
    + left. apply dedupStep_filed. now left.
    + apply elem_of_cons in Hk as [->|Hk]; [|now right].
      left. apply dedupStep_filed. now right.
Qed.

(** Every key of the input keeps a survivor. *)
Lemma deduplicateBy_covers (items : list jsval) (y : jsval) :
  y ∈ items -> exists x, x ∈ deduplicateBy items getKey /\ getKey x = getKey y.
Proof.
  intros Hy.
  destruct (dedupFold_filed items [] (getKey y)) as (v & Hv).
  { right. apply list_elem_of_In, in_map. now apply list_elem_of_In. }
  pose proof (dedupFold_ok items [] []) as Hok. cbn [app] in Hok.
  destruct (Hok ltac:(split; constructor)) as [_ Hall].
  apply map_get_elem_of in Hv. rewrite Forall_forall in Hall.
  destruct (Hall _ Hv) as [Hkey _]. cbn [fst snd] in Hkey.
  exists v. split; [|exact Hkey].
  unfold deduplicateBy. apply sort_elem_of.
  apply list_elem_of_In, in_map_iff. exists (getKey y, v). split; [reflexivity|].
  now apply list_elem_of_In.
Qed.

End DedupFacts.

Section RankTheorem.
Import Scorer Spec.

(** C7, as amended.  The output of [rankResults] is sorted by
    non-increasing [_score] (every ranked record carries one).  The output
    of [deduplicateBy] has no two items with the same key; each survivor is
    an item of the input; every item of the input has a survivor with its
    key; and, on an input whose items carry a numeric [_score], the survivor
    scores at least as high as every input item with its key. *)
Theorem rankResults_sorted_deduplicateBy_best :
  (forall items keywords phrase getFields getWeight cfg,
      let ranked := rankResults items keywords phrase getFields getWeight cfg in
      Forall hasScore ranked /\ StronglySorted geScore ranked)
  /\ (forall (K : Type) (eqK : EqDecision K) (getKey : jsval -> K) items,
        let out := deduplicateBy items getKey in
        NoDup (map getKey out)
        /\ (forall x, x ∈ out -> x ∈ items)
        /\ (forall y, y ∈ items -> exists x, x ∈ out /\ getKey x = getKey y)
        /\ (Forall hasScore items ->
            forall x y, x ∈ out -> y ∈ items -> getKey y = getKey x ->
                        geScore x y)).
Proof.
  split.
  - intros items keywords phrase getFields getWeight cfg ranked.
    pose proof (scoreAll_hasScore items keywords phrase getFields getWeight cfg) as Hsc.
    split.
    + subst ranked. unfold rankResults. now rewrite sort_perm.
    + apply sort_sorted, Hsc.
  - intros K eqK getKey items out. split; [|split; [|split]].
    + apply deduplicateBy_keys_NoDup.
    + intros x. apply deduplicateBy_subset.
    + intros y. apply deduplicateBy_covers.
    + intros Hsc x y. now apply deduplicateBy_best.
Qed.

(** Two records under one key and a third under another: the key a keeps
    one survivor, which scores at least as high as the record scoring 1. *)
Lemma rankResults_sorted_deduplicateBy_best_witness :
  exists x,
    x ∈ deduplicateBy
          [JObj [("id", JStr "a"); ("_score", JInt 1)];
           JObj [("id", JStr "b"); ("_score", JInt 3)];
           JObj [("id", JStr "a"); ("_score", JInt 2)]]
          (fun x => Js.String_ (Js.field x "id"))
    /\ Js.String_ (Js.field x "id") = "a"
    /\ geScore x (JObj [("id", JStr "a"); ("_score", JInt 1)])
    /\ geScore x (JObj [("id", JStr "a"); ("_score", JInt 2)]).
Proof.
  destruct rankResults_sorted_deduplicateBy_best as [_ H].
  destruct (H string _ (fun x => Js.String_ (Js.field x "id"))
              [JObj [("id", JStr "a"); ("_score", JInt 1)];
               JObj [("id", JStr "b"); ("_score", JInt 3)];
               JObj [("id", JStr "a"); ("_score", JInt 2)]]) as (_ & _ & Hcover & Hbest).
  assert (Forall hasScore
            [JObj [("id", JStr "a"); ("_score", JInt 1)];
             JObj [("id", JStr "b"); ("_score", JInt 3)];
             JObj [("id", JStr "a"); ("_score", JInt 2)]]) as Hsc.
  { repeat constructor; eexists; reflexivity. }
  destruct (Hcover (JObj [("id", JStr "a"); ("_score", JInt 1)])) as (x & Hx & Hkey).
  { left. }
  exists x. split; [exact Hx|]. split; [exact Hkey|]. split.
  - apply (Hbest Hsc x _ Hx); [left|now rewrite Hkey].
  - apply (Hbest Hsc x _ Hx); [right; right; left|now rewrite Hkey].
Defined.

(** Without numeric scores the survivor need not be the best of its group:
    [item._score > seen.get(k)._score] is false when the item filed first has
    no [_score], so that item stays, though a later item with its key scores
    5. *)
Lemma deduplicateBy_unscored_survivor :
  deduplicateBy
    [JObj [("id", JStr "a")]; JObj [("id", JStr "a"); ("_score", JInt 5)]]
    (fun x => Js.String_ (Js.field x "id"))
  = [JObj [("id", JStr "a")]]
  /\ scoreOf (JObj [("id", JStr "a")]) = None
  /\ scoreOf (JObj [("id", JStr "a"); ("_score", JInt 5)]) = Some (5 * micro)
  /\ ~ geScore (JObj [("id", JStr "a")])
              (JObj [("id", JStr "a"); ("_score", JInt 5)]).
Proof.
  split; [reflexivity|]. split; [reflexivity|]. split; [reflexivity|].
  intros (sa & sb & Ha & _). discriminate Ha.
Qed.

End RankTheorem.

(** ** searchSlice.js: participant helpers *)

Section Participants.
Import Slice Spec.
Variable JSON_parse : string -> option jsval.

Lemma findM_pure {A} (f : A -> result bool) (g : A -> bool) (l : list A) :
  Forall (fun x => f x = Ok (g x)) l -> findM f l = Ok (List.find g l).
Proof.
  induction 1 as [|x l Hx _ IH]; simpl; [reflexivity|].
  rewrite Hx. simpl. destruct (g x); [reflexivity|exact IH].
Qed.

Lemma find_Forall {A} (P : A -> Prop) (g : A -> bool) (l : list A) x :
  Forall P l -> List.find g l = Some x -> P x.
Proof.
  intros Hl Hf. apply find_some in Hf as [Hin _].
  rewrite List.Forall_forall in Hl. now apply Hl.
Qed.

Lemma isRecord_truthy p : isRecord p -> Js.truthy p = true.
Proof. intros [props ->]. reflexivity. Qed.

Lemma andFind_records cond f g (ps : list jsval) :
  Forall (fun p => f p = Ok (g p)) ps ->
  andFind cond f ps =
  Ok (if Js.truthy cond
      then match List.find g ps with Some p => p | None => JUndefined end
      else cond).
Proof.
  intros Hf. unfold andFind. destruct (Js.truthy cond); [|reflexivity].
  now rewrite (findM_pure f g).
Qed.

Lemma getOtherUserId_total summary loggedInZuid chatTitle :
  exists v, getOtherUserId JSON_parse summary loggedInZuid chatTitle = Ok v.
Proof.
  unfold getOtherUserId, orNull.
  match goal with |- exists v, match ?b with _ => _ end = _ => destruct b end;
    eexists; reflexivity.
Qed.

Lemma getOtherUserId_records summary loggedInZuid chatTitle ps :
  decoded JSON_parse summary = Some (JArr ps) ->
  Forall isRecord ps ->
  getOtherUserId JSON_parse summary loggedInZuid chatTitle
  = Ok (zuidOrNull (resolveOther loggedInZuid chatTitle ps)).
Proof.
  intros Hdec Hrec.
  assert (Hparts :
    match summary with
    | JStr s => parseJSON JSON_parse s
    | _ => Ok (Js.or summary (JArr []))
    end = Ok (JArr ps)).
  { unfold decoded, parseJSON in *. destruct summary; try congruence.
    now rewrite Hdec. }
  unfold getOtherUserId. rewrite Hparts. cbn [bind].
  rewrite (andFind_records loggedInZuid _
             (fun p => negb (String.eqb (Js.String_ (Js.field p "zuid"))
                                        (Js.String_ loggedInZuid)))).
  2:{ eapply Forall_impl; [exact Hrec|]. intros p [props ->]. reflexivity. }
  rewrite (andFind_records chatTitle _
             (fun p => Js.strict_eq (Js.field p "dname") chatTitle)).
  2:{ eapply Forall_impl; [exact Hrec|]. intros p [props ->]. reflexivity. }
  unfold resolveOther, strategyLoggedIn, strategyTitle, supplied. cbn [bind firstSuccess].
  destruct (Js.truthy loggedInZuid) eqn:El.
  - destruct (List.find _ ps) as [p|] eqn:Ea.
    + pose proof (find_Forall _ _ _ _ Hrec Ea) as [props ->]. reflexivity.
    + cbn [Js.truthy].
      destruct (Js.truthy chatTitle) eqn:Et.
      * destruct (List.find (fun p => Js.strict_eq _ _) ps) as [q|] eqn:Eb.
        -- pose proof (find_Forall _ _ _ _ Hrec Eb) as [props ->]. reflexivity.
        -- cbn [Js.truthy bind]. destruct ps as [|p [|p' ps']]; try reflexivity.
           apply Forall_cons in Hrec as [[props ->] _]. reflexivity.
      * rewrite Et. cbn [bind]. destruct ps as [|p [|p' ps']]; try reflexivity.
        apply Forall_cons in Hrec as [[props ->] _]. reflexivity.
  - rewrite El.
    destruct (Js.truthy chatTitle) eqn:Et.
    + destruct (List.find (fun p => Js.strict_eq _ _) ps) as [q|] eqn:Eb.
      * pose proof (find_Forall _ _ _ _ Hrec Eb) as [props ->]. reflexivity.
      * cbn [Js.truthy bind]. destruct ps as [|p [|p' ps']]; try reflexivity.
        apply Forall_cons in Hrec as [[props ->] _]. reflexivity.
    + rewrite Et. cbn [bind]. destruct ps as [|p [|p' ps']]; try reflexivity.
      apply Forall_cons in Hrec as [[props ->] _]. reflexivity.
Qed.

Lemma getOtherUserId_malformed summary loggedInZuid chatTitle :
  (decoded JSON_parse summary = None
   \/ exists v, decoded JSON_parse summary = Some v /\ is_array v = false) ->
  getOtherUserId JSON_parse summary loggedInZuid chatTitle = Ok JNull.
Proof.
  intros [Hdec|(v & Hdec & Harr)].
  - unfold getOtherUserId, decoded, parseJSON in *.
    destruct summary; try discriminate. now rewrite Hdec.
  - assert (Hparts :
      match summary with
      | JStr s => parseJSON JSON_parse s
      | _ => Ok (Js.or summary (JArr []))
      end = Ok v).
    { unfold decoded, parseJSON in *. destruct summary; try congruence.
      now rewrite Hdec. }
    unfold getOtherUserId. rewrite Hparts. cbn [bind].
    destruct v; try discriminate; reflexivity.
Qed.

End Participants.

Section ParticipantTheorems.
Import Slice Spec.

(** C3.  [getOtherUserId] never throws.  When the summary does not decode,
    or decodes to something that is not an array, it returns [null].  On a
    list of participant records it applies the three strategies in order,
    first success wins: (a) with a logged-in identifier, the first
    participant whose [zuid] differs from it; (b) with a chat title, the
    first participant whose [dname] is the title; (c) the participant of a
    one-element list.  It returns the [zuid] of the participant resolved,
    and [null] when every strategy fails. *)
Theorem getOtherUserId_resolver_chain
  (JSON_parse : string -> option jsval) (summary loggedInZuid chatTitle : jsval) :
  let answer := getOtherUserId JSON_parse summary loggedInZuid chatTitle in
  (exists v, answer = Ok v)
  /\ (decoded JSON_parse summary = None -> answer = Ok JNull)
  /\ (forall v, decoded JSON_parse summary = Some v -> is_array v = false ->
                answer = Ok JNull)
  /\ (forall ps, decoded JSON_parse summary = Some (JArr ps) ->
                 Forall isRecord ps ->
                 answer = Ok (zuidOrNull (resolveOther loggedInZuid chatTitle ps))).
Proof.
  intros answer. subst answer. repeat split.
  - apply getOtherUserId_total.
  - intros Hdec. apply getOtherUserId_malformed. now left.
  - intros v Hdec Harr. apply getOtherUserId_malformed. right. now exists v.
  - intros ps Hdec Hrec. now apply getOtherUserId_records.
Qed.

(** The conversation of Alice (1) and Bob (2), titled Alice, seen by Bob:
    strategy (a) answers "1". *)
Lemma getOtherUserId_resolver_chain_witness :
  getOtherUserId (fun _ => None)
    (JArr [JObj [("zuid", JStr "1"); ("dname", JStr "Alice")];
           JObj [("zuid", JStr "2"); ("dname", JStr "Bob")]])
    (JStr "2") (JStr "Alice")
  = Ok (JStr "1").
Proof.
  destruct (getOtherUserId_resolver_chain (fun _ => None)
    (JArr [JObj [("zuid", JStr "1"); ("dname", JStr "Alice")];
           JObj [("zuid", JStr "2"); ("dname", JStr "Bob")]])
    (JStr "2") (JStr "Alice")) as (_ & _ & _ & H).
  apply (H [JObj [("zuid", JStr "1"); ("dname", JStr "Alice")];
            JObj [("zuid", JStr "2"); ("dname", JStr "Bob")]]).
  - reflexivity.
  - repeat constructor; eexists; reflexivity.
Defined.

(** The same conversation without a logged-in identifier: the title
    heuristic (b) answers "1" as well. *)
Example getOtherUserId_title_fallback :
  getOtherUserId (fun _ => None)
    (JArr [JObj [("zuid", JStr "1"); ("dname", JStr "Alice")];
           JObj [("zuid", JStr "2"); ("dname", JStr "Bob")]])
    JUndefined (JStr "Alice")
  = Ok (JStr "1")
  /\ strategyLoggedIn JUndefined
       [JObj [("zuid", JStr "1"); ("dname", JStr "Alice")];
        JObj [("zuid", JStr "2"); ("dname", JStr "Bob")]] = None.
Proof. split; reflexivity. Qed.

(** Text that does not decode, and text that decodes to no participant. *)
Example getOtherUserId_malformed_text :
  let decoder := fun s => if String.eqb s "[]" then Some (JArr []) else None in
  getOtherUserId decoder (JStr "{oops") (JStr "2") (JStr "Alice") = Ok JNull
  /\ getOtherUserId decoder (JStr "[]") (JStr "2") (JStr "Alice") = Ok JNull.
Proof. split; reflexivity. Qed.

(** C8.  A conversation of type 9 is tagged [bot], a tag no table of the
    system knows: the module is called [bots] wherever weights, categories
    and remote modules are listed.  Types 8, 1 and 11 are tagged [channels],
    [users] and [threads]. *)
Theorem chatTypeToModule_type9_tag :
  chatTypeToModule (JInt 9) = "bot"
  /\ chatTypeToModule (JStr "9") = "bot"
  /\ chatTypeToModule (JInt 9) <> "bots"
  /\ DEFAULT_MODULE_WEIGHTS !! "bot" = None
  /\ DEFAULT_MODULE_WEIGHTS !! "bots" = Some 900000
  /\ chatTypeToModule (JInt 8) = "channels"
  /\ chatTypeToModule (JInt 1) = "users"
  /\ chatTypeToModule (JInt 11) = "threads".
Proof. repeat split; try reflexivity. discriminate. Qed.

(** Every other type code has the empty tag. *)
Lemma chatTypeToModule_other (chatType : jsval) :
  let t := Js.String_ chatType in
  t <> "8" -> t <> "1" -> t <> "11" -> t <> "9" ->
  chatTypeToModule chatType = "".
Proof.
  intros t H8 H1 H11 H9. unfold chatTypeToModule. fold t.
  apply String.eqb_neq in H8, H1, H11, H9. now rewrite H8, H1, H11, H9.
Qed.

End ParticipantTheorems.

(** ** searchSlice.js: the local stage *)

Section MonadFacts.
Context {A B : Type}.

Lemma mapM_Ok (f : A -> result B) (l : list A) :
  Forall (fun x => exists y, f x = Ok y) l -> exists ys, mapM f l = Ok ys.
Proof.
  induction 1 as [|x l [y Hy] _ [ys IH]]; simpl.
  - now exists [].
  - rewrite Hy, IH. simpl. now eexists.
Qed.

Lemma mapM_Ok_Forall (f : A -> result B) (P : B -> Prop) (l : list A) ys :
  (forall x y, f x = Ok y -> P y) -> mapM f l = Ok ys -> Forall P ys.
Proof.
  intros HP. revert ys. induction l as [|x l IH]; simpl; intros ys.
  - intros [= <-]. constructor.
  - destruct (f x) as [y|e] eqn:Ey; [|discriminate]. simpl.
    destruct (mapM f l) as [ys'|e]; [|discriminate]. simpl.
    intros [= <-]. constructor; [now apply (HP x)|now apply IH].
Qed.

Lemma mapM_Throw (f : A -> result B) (P : JsError -> Prop) (l : list A) :
  (forall x e, f x = Throw e -> P e) ->
  Exists (fun x => exists e, f x = Throw e) l ->
  exists e, mapM f l = Throw e /\ P e.
Proof.
  intros HP. induction 1 as [x l [e He]|x l _ [e [IH HPe]]]; simpl.
  - rewrite He. simpl. exists e. split; [reflexivity|now apply (HP x)].
  - destruct (f x) as [y|e'] eqn:Ey; simpl.
    + rewrite IH. simpl. now exists e.
    + exists e'. split; [reflexivity|now apply (HP x)].
Qed.

Lemma mapM_length (f : A -> result B) (l : list A) ys :
  mapM f l = Ok ys -> length ys = length l.
Proof.
  revert ys. induction l as [|x l IH]; simpl; intros ys.
  - now intros [= <-].
  - destruct (f x); [|discriminate]. simpl.
    destruct (mapM f l) as [ys'|]; [|discriminate]. simpl.
    intros [= <-]. simpl. f_equal. now apply IH.
Qed.

Lemma filterM_Ok (f : A -> result bool) (l : list A) :
  Forall (fun x => exists b, f x = Ok b) l -> exists ys, filterM f l = Ok ys.
Proof.
  induction 1 as [|x l [b Hb] _ [ys IH]]; simpl.
  - now exists [].
  - rewrite Hb, IH. simpl. now eexists.
Qed.

Lemma filterM_sublist (f : A -> result bool) (l : list A) ys :
  filterM f l = Ok ys -> sublist ys l.
Proof.
  revert ys. induction l as [|x l IH]; simpl; intros ys.
  - intros [= <-]. constructor.
  - destruct (f x) as [b|]; [|discriminate]. simpl.
    destruct (filterM f l) as [ys'|]; [|discriminate]. simpl.
    intros [= <-]. destruct b; [apply sublist_skip|apply sublist_cons]; now apply IH.
Qed.

End MonadFacts.

Section LocalStage.
Import Slice Spec.
Variable JSON_parse : string -> option jsval.

Lemma classic_title (c : jsval) : hasStringTitle c \/ ~ hasStringTitle c.
Proof.
  unfold hasStringTitle. destruct (Js.field c "title") eqn:E;
    try (right; intros [s Hs]; discriminate).
  left. eexists. reflexivity.
Qed.

Lemma chatItemId_total loggedUserZuid c :
  exists v, chatItemId JSON_parse loggedUserZuid c = Ok v.
Proof.
  unfold chatItemId. destruct (String.eqb _ "1"); [|now eexists].
  destruct (getOtherUserId_total JSON_parse (Js.field c "recipantssummary")
              loggedUserZuid (Js.field c "title")) as [v ->].
  simpl. now eexists.
Qed.

Lemma localChat_string_title loggedUserZuid c :
  hasStringTitle c ->
  exists r, localChat JSON_parse loggedUserZuid c = Ok r /\ hasStringTitle r.
Proof.
  intros [s Hs]. unfold localChat, Js.prop.
  destruct c; try discriminate. simpl in Hs. simpl. rewrite Hs. simpl.
  destruct (chatItemId_total loggedUserZuid (JObj props)) as [v ->]. simpl.
  eexists. split; [reflexivity|]. exists (stripMarker s).
  unfold Js.extend, Js.field. simpl.
  rewrite !lookup_assign_ne by discriminate. apply lookup_assign_eq.
Qed.

Lemma localChat_bad_title loggedUserZuid c :
  ~ hasStringTitle c ->
  exists e, localChat JSON_parse loggedUserZuid c = Throw e /\ isTypeError e.
Proof.
  intros Hbad. unfold localChat, Js.prop.
  destruct (Js.nullish c) eqn:En; simpl.
  - eexists. split; reflexivity.
  - destruct (Js.field c "title") eqn:Et; simpl;
      try (eexists; split; reflexivity).
    exfalso. apply Hbad. eexists. exact Et.
Qed.

Lemma localChat_throws_TypeError loggedUserZuid c e :
  localChat JSON_parse loggedUserZuid c = Throw e -> isTypeError e.
Proof.
  intros He. destruct (classic_title c) as [Hs|Hbad].
  - destruct (localChat_string_title loggedUserZuid c Hs) as (r & Hr & _). congruence.
  - destruct (localChat_bad_title loggedUserZuid c Hbad) as (e' & He' & Hty). congruence.
Qed.

Lemma localChat_Ok_title loggedUserZuid c r :
  localChat JSON_parse loggedUserZuid c = Ok r -> hasStringTitle r.
Proof.
  intros Hr. destruct (classic_title c) as [Hs|Hbad].
  - destruct (localChat_string_title loggedUserZuid c Hs) as (r' & Hr' & Ht). congruence.
  - destruct (localChat_bad_title loggedUserZuid c Hbad) as (e & He & _). congruence.
Qed.

Lemma titleMatches_total queryLower c :
  hasStringTitle c -> exists b, titleMatches queryLower c = Ok b.
Proof. intros [s Hs]. unfold titleMatches. rewrite Hs. now eexists. Qed.

Lemma lowerOf_or a b :
  stringOrAbsent a -> (exists s, lowerOf b = Ok s) ->
  exists s, lowerOf (Js.or a b) = Ok s.
Proof.
  intros [Ha|[s ->]] Hb; unfold Js.or.
  - now rewrite Ha.
  - destruct (Js.truthy (JStr s)); [now eexists|assumption].
Qed.

Lemma stringOrAbsent_or a b :
  stringOrAbsent a -> stringOrAbsent b -> stringOrAbsent (Js.or a b).
Proof.
  intros Ha Hb. unfold Js.or. destruct (Js.truthy a) eqn:E; [|assumption].
  destruct Ha as [Ha|Ha]; [congruence|now right].
Qed.

Lemma localUser_wellFormed u :
  wellFormedUser u ->
  exists r, localUser u = Ok r
            /\ stringOrAbsent (Js.field r "full_name")
            /\ stringOrAbsent (Js.field r "display_name")
            /\ stringOrAbsent (Js.field r "email").
Proof.
  intros ([props ->] & Hf & Hd & He). unfold localUser. simpl.
  eexists. split; [reflexivity|].
  unfold Js.extend, Js.field in *. simpl.
  rewrite !lookup_assign_ne by discriminate. now repeat split.
Qed.

Lemma userMatches_total queryLower zuids r :
  stringOrAbsent (Js.field r "full_name") ->
  stringOrAbsent (Js.field r "display_name") ->
  stringOrAbsent (Js.field r "email") ->
  exists b, userMatches queryLower zuids r = Ok b.
Proof.
  intros Hf Hd He. unfold userMatches.
  destruct (lowerOf_or (Js.or (Js.field r "full_name") (Js.field r "display_name"))
              (JStr "")) as [n ->].
  { now apply stringOrAbsent_or. }
  { now eexists. }
  destruct (lowerOf_or (Js.field r "email") (JStr "") He) as [m ->].
  { now eexists. }
  simpl. now eexists.
Qed.

Lemma runClientSearch_bad_title chats users queryLower loggedUserZuid :
  Exists (fun c => ~ hasStringTitle c) (firstn MAX_CLIENT_CHATS chats) ->
  exists e, runClientSearch JSON_parse chats users queryLower loggedUserZuid = Throw e
            /\ isTypeError e.
Proof.
  intros Hbad. unfold runClientSearch.
  destruct (mapM_Throw (localChat JSON_parse loggedUserZuid) isTypeError
              (firstn MAX_CLIENT_CHATS chats)) as (e & -> & Hty).
  - intros x e. apply localChat_throws_TypeError.
  - eapply List.Exists_impl; [|exact Hbad]. intros c Hc.
    destruct (localChat_bad_title loggedUserZuid c Hc) as (e & He & _). now exists e.
  - exists e. now split.
Qed.

Lemma runClientSearch_total chats users queryLower loggedUserZuid :
  Forall hasStringTitle (firstn MAX_CLIENT_CHATS chats) ->
  Forall wellFormedUser (firstn MAX_CLIENT_USERS users) ->
  exists cs, runClientSearch JSON_parse chats users queryLower loggedUserZuid = Ok cs.
Proof.
  intros Hchats Husers. unfold runClientSearch.
  destruct (mapM_Ok (localChat JSON_parse loggedUserZuid) (firstn MAX_CLIENT_CHATS chats))
    as [mapped Hmapped].
  { eapply Forall_impl; [exact Hchats|]. intros c Hc.
    destruct (localChat_string_title loggedUserZuid c Hc) as (r & Hr & _). now exists r. }
  rewrite Hmapped. cbn [bind].
  destruct (filterM_Ok (titleMatches queryLower) mapped) as [kept ->].
  { eapply Forall_impl.
    - eapply mapM_Ok_Forall; [|exact Hmapped]. intros x y. apply localChat_Ok_title.
    - intros c Hc. now apply titleMatches_total. }
  cbn [bind].
  set (P := fun r => stringOrAbsent (Js.field r "full_name")
                     /\ stringOrAbsent (Js.field r "display_name")
                     /\ stringOrAbsent (Js.field r "email")).
  destruct (mapM_Ok localUser (firstn MAX_CLIENT_USERS users)) as [mappedUsers Hmu].
  { eapply Forall_impl; [exact Husers|]. intros u Hu.
    destruct (localUser_wellFormed u Hu) as (r & Hr & _). now exists r. }
  assert (HP : Forall P mappedUsers).
  { revert mappedUsers Hmu. induction Husers as [|u us Hu _ IH]; simpl; intros mu.
    - intros [= <-]. constructor.
    - destruct (localUser_wellFormed u Hu) as (r & Hr & Hp). rewrite Hr. simpl.
      destruct (mapM localUser us) as [rs|]; [|discriminate]. simpl.
      intros [= <-]. constructor; [exact Hp|now apply IH]. }
  rewrite Hmu. cbn [bind].
  match goal with |- context [filterM ?f mappedUsers] =>
    destruct (filterM_Ok f mappedUsers) as [cu ->] end.
  { eapply Forall_impl; [exact HP|]. intros r (Hf & Hd & He).
    now apply userMatches_total. }
  simpl. now eexists.
Qed.

End LocalStage.

(** ** searchSlice.js: the thunk *)

Section Pipeline.
Import Scorer QueryParser Slice Spec.
Variable JSON_parse : string -> option jsval.

Lemma cacheHit_Some st p now cached :
  cacheHit st p now = Some cached <->
  cache st !! cacheKey (parsedQuery p) = Some cached
  /\ c_activeCategory cached = activeCategory p
  /\ now - c_timestamp cached < CACHE_TIMEOUT_MS.
Proof.
  unfold cacheHit. destruct (cache st !! cacheKey (parsedQuery p)) as [e|].
  - destruct (String.eqb_spec (c_activeCategory e) (activeCategory p)) as [Hc|Hc];
      destruct (Z.ltb_spec (now - c_timestamp e) CACHE_TIMEOUT_MS) as [Ha|Ha]; simpl;
      split; try discriminate.
    + intros [= <-]. now repeat split.
    + intros ([= <-] & _ & _). reflexivity.
    + intros ([= <-] & _ & ?). lia.
    + intros ([= <-] & ? & _). contradiction.
    + intros ([= <-] & ? & _). contradiction.
  - split; [discriminate|]. intros (? & _). discriminate.
Qed.

Lemma cacheHit_other_category st p now cached :
  cache st !! cacheKey (parsedQuery p) = Some cached ->
  c_activeCategory cached <> activeCategory p ->
  cacheHit st p now = None.
Proof.
  intros Hc Hne. unfold cacheHit. rewrite Hc.
  apply String.eqb_neq in Hne. now rewrite Hne.
Qed.

Lemma cacheHit_absent st p now :
  cache st !! cacheKey (parsedQuery p) = None -> cacheHit st p now = None.
Proof. intros Hc. unfold cacheHit. now rewrite Hc. Qed.

Lemma executeSearch_miss apis p st now now' :
  cacheHit st p now = None ->
  executeSearch JSON_parse apis p st now now' = runPipeline JSON_parse apis p now'.
Proof. intros H. unfold executeSearch. now rewrite H. Qed.

Lemma caught_TypeError e : isTypeError e -> caught e = Rejected (e_message e).
Proof. unfold isTypeError, caught. now intros ->. Qed.

Lemma moduleCalls_app (t1 t2 : list Event) :
  moduleCalls (t1 ++ t2) = (moduleCalls t1 ++ moduleCalls t2)%list.
Proof. apply omap_app. Qed.

Lemma dispatched_app (t1 t2 : list Event) :
  dispatched (t1 ++ t2) = (dispatched t1 ++ dispatched t2)%list.
Proof. apply omap_app. Qed.

Lemma moduleCalls_calls (ms : list string) :
  moduleCalls (map EvModuleCall ms) = ms.
Proof. induction ms as [|m ms IH]; [reflexivity|]. cbn. f_equal. exact IH. Qed.

Lemma dispatched_calls (ms : list string) :
  dispatched (map EvModuleCall ms) = [].
Proof. induction ms as [|m ms IH]; [reflexivity|]. cbn. exact IH. Qed.

(** The shape of a pipeline run that reached the local stage and got its
    result. *)
Lemma runPipeline_local_ok apis p now' sets cs :
  let logged := Js.opt_prop (loggedUser p) "Zuid" in
  buildExclusionSets JSON_parse (chats (clientData p)) (users (clientData p)) logged = Ok sets ->
  runClientSearch JSON_parse (chats (clientData p)) (users (clientData p))
    (toLowerCase (trimmed (parsedQuery p))) logged = Ok cs ->
  let fetched := serverPromises JSON_parse apis p logged sets cs in
  let final :=
    capResults (maxResults p)
      (mergeResults (resolveDedupKey p) (clientResults cs) (serverResults p (fst fetched))) in
  outcome (runPipeline JSON_parse apis p now') = Fulfilled final false
  /\ moduleCalls (trace (runPipeline JSON_parse apis p now')) = map fst (fst fetched)
  /\ dispatched (trace (runPipeline JSON_parse apis p now'))
     = [updateResults (clientResults cs) true;
        setCacheEntry (cacheKey (parsedQuery p))
          {| c_results := final; c_timestamp := now';
             c_activeCategory := activeCategory p |}].
Proof.
  intros logged Hsets Hcs fetched final. unfold runPipeline.
  fold logged. rewrite Hsets, Hcs. fold fetched. cbn [outcome trace].
  split; [reflexivity|]. split.
  - rewrite !moduleCalls_app, moduleCalls_calls. cbn. now rewrite app_nil_r.
  - rewrite !dispatched_app, dispatched_calls. reflexivity.
Qed.

(** A fulfilled pipeline run went through both stages. *)
Lemma runPipeline_fulfilled apis p now' rs fromCache :
  outcome (runPipeline JSON_parse apis p now') = Fulfilled rs fromCache ->
  let logged := Js.opt_prop (loggedUser p) "Zuid" in
  exists sets cs,
    buildExclusionSets JSON_parse (chats (clientData p)) (users (clientData p)) logged = Ok sets
    /\ runClientSearch JSON_parse (chats (clientData p)) (users (clientData p))
         (toLowerCase (trimmed (parsedQuery p))) logged = Ok cs.
Proof.
  intros Hout logged. unfold runPipeline in Hout. fold logged in Hout.
  destruct (buildExclusionSets _ _ _ _) as [sets|e]; [|discriminate].
  destruct (runClientSearch _ _ _ _ _) as [cs|e].
  - now exists sets, cs.
  - exfalso. cbn [outcome] in Hout. unfold caught in Hout.
    destruct (String.eqb _ _); discriminate.
Qed.

Lemma capResults_firstn (cap : option Z) (l : list jsval) :
  exists k, capResults cap l = firstn k l.
Proof.
  unfold capResults, Js.slice0. destruct cap as [n|].
  - destruct (n =? 0); [exists (length l); now rewrite firstn_all|].
    destruct (n <? 0); now eexists.
  - exists (length l). now rewrite firstn_all.
Qed.

End Pipeline.

Section ListFacts.
Context {A : Type}.

Lemma filter_StronglySorted (R : A -> A -> Prop) (f : A -> bool) (l : list A) :
  StronglySorted R l -> StronglySorted R (List.filter f l).
Proof.
  induction 1 as [|x l Hs IH Hx]; simpl; [constructor|].
  destruct (f x); [|assumption]. constructor; [assumption|].
  apply List.Forall_forall. intros y Hy. apply filter_In in Hy as [Hy _].
  rewrite List.Forall_forall in Hx. now apply Hx.
Qed.

Lemma filter_NoDup_map {B} (k : A -> B) (f : A -> bool) (l : list A) :
  NoDup (map k l) -> NoDup (map k (List.filter f l)).
Proof.
  induction l as [|x l IH]; simpl; intros Hnd; [constructor|].
  apply NoDup_cons in Hnd as [Hx Hnd]. destruct (f x); [|now apply IH].
  simpl. apply NoDup_cons. split; [|now apply IH].
  intros Hin. apply Hx. apply list_elem_of_In in Hin. apply list_elem_of_In.
  apply in_map_iff in Hin as (y & Hy & Hin). apply filter_In in Hin as [Hin _].
  apply in_map_iff. now exists y.
Qed.

End ListFacts.

Section ThunkTheorems.
Import Scorer QueryParser Slice Spec.

(** C9, as amended.  The local stage maps [title.replace] over the first
    500 chats unguarded: when one of them has no string title it throws a
    [TypeError], and an invocation that missed the cache ends in an error
    instead of results.  When every one of those chats has a string title and
    every one of the first 100 users is a record whose name and email fields
    are strings when present, the local stage does not throw. *)
Theorem runClientSearch_unguarded_title
  (JSON_parse : string -> option jsval) (chats users : list jsval)
  (queryLower : string) (loggedUserZuid : jsval) :
  (Exists (fun c => ~ hasStringTitle c) (firstn MAX_CLIENT_CHATS chats) ->
   exists e, runClientSearch JSON_parse chats users queryLower loggedUserZuid = Throw e
             /\ isTypeError e)
  /\ (forall apis p st now now',
        Slice.chats (clientData p) = chats ->
        cacheHit st p now = None ->
        Exists (fun c => ~ hasStringTitle c) (firstn MAX_CLIENT_CHATS chats) ->
        isRejection (outcome (executeSearch JSON_parse apis p st now now')))
  /\ (Forall hasStringTitle (firstn MAX_CLIENT_CHATS chats) ->
      Forall wellFormedUser (firstn MAX_CLIENT_USERS users) ->
      exists cs, runClientSearch JSON_parse chats users queryLower loggedUserZuid = Ok cs).
Proof.
  repeat split.
  - apply runClientSearch_bad_title.
  - intros apis p st now now' <- Hmiss Hbad.
    rewrite executeSearch_miss by assumption. unfold runPipeline.
    destruct (buildExclusionSets _ _ _ _) as [sets|e]; [|exact I].
    destruct (runClientSearch_bad_title JSON_parse (Slice.chats (clientData p))
                (Slice.users (clientData p)) (toLowerCase (trimmed (parsedQuery p)))
                (Js.opt_prop (loggedUser p) "Zuid") Hbad) as (e & -> & Hty).
    cbn [outcome]. now rewrite caught_TypeError.
  - apply runClientSearch_total.
Qed.

(** One chat with a string title and one well-formed user: the stage runs. *)
Lemma runClientSearch_unguarded_title_witness :
  exists cs,
    runClientSearch Example.noJSON [Example.chatAlice] [Example.userAlan] "al"
      (JStr "2") = Ok cs.
Proof.
  destruct (runClientSearch_unguarded_title Example.noJSON
              [Example.chatAlice] [Example.userAlan] "al" (JStr "2")) as (_ & _ & H).
  apply H.
  - repeat constructor. eexists. reflexivity.
  - repeat constructor;
      try (eexists; reflexivity); try (left; reflexivity); right; eexists; reflexivity.
Defined.

(** C9 as stated fails: every chat has a string title, and yet the stage
    throws on a user whose name is a number. *)
Lemma runClientSearch_string_titles_still_throws :
  Forall hasStringTitle (firstn MAX_CLIENT_CHATS [Example.chatAlice])
  /\ (exists e,
        runClientSearch Example.noJSON [Example.chatAlice] [Example.userNumbered] "al"
          (JStr "2") = Throw e
        /\ isTypeError e)
  /\ ~ exists cs,
        runClientSearch Example.noJSON [Example.chatAlice] [Example.userNumbered] "al"
          (JStr "2") = Ok cs.
Proof.
  split; [repeat constructor; eexists; reflexivity|]. split.
  - eexists. split; [vm_compute; reflexivity|reflexivity].
  - intros [cs H]. vm_compute in H. discriminate.
Qed.

(** C4.  When the store holds an entry under the lower-cased trimmed query
    whose category is the active one and whose age is below the timeout of
    ten minutes, the invocation returns the cached list and does nothing
    else: no module call, no exclusion sets, no local search, no merge, no
    dispatch.  When the entry's category differs, the invocation is the one
    of a store without that entry: the pipeline runs. *)
Theorem executeSearch_cache_hit
  (JSON_parse : string -> option jsval) (apis : ModuleApis) (p : Payload)
  (st : SearchState) (now now' : Z) (cached : CacheEntry) :
  cache st !! toLowerCase (trimmed (parsedQuery p)) = Some cached ->
  let r := executeSearch JSON_parse apis p st now now' in
  (c_activeCategory cached = activeCategory p ->
   now - c_timestamp cached < 10 * 60 * 1000 ->
   outcome r = Fulfilled (c_results cached) true
   /\ trace r = []
   /\ moduleCalls (trace r) = []
   /\ data r = clientData p
   /\ cache (storeAfter st r) = cache st)
  /\ (c_activeCategory cached <> activeCategory p ->
      r = runPipeline JSON_parse apis p now'
      /\ r = executeSearch JSON_parse apis p
               (forget (toLowerCase (trimmed (parsedQuery p))) st) now now'
      /\ exists rest, trace r = EvAbortSignal :: EvExclusionSets :: rest).
Proof.
  intros Hc r. split.
  - intros Hcat Hage.
    assert (Hhit : cacheHit st p now = Some cached).
    { apply cacheHit_Some. now repeat split. }
    subst r. unfold executeSearch. rewrite Hhit. now repeat split.
  - intros Hcat.
    assert (Hmiss : cacheHit st p now = None) by now apply cacheHit_other_category with cached.
    assert (Hrun : r = runPipeline JSON_parse apis p now').
    { subst r. now apply executeSearch_miss. }
    repeat split; [exact Hrun| |].
    + rewrite Hrun. symmetry. apply executeSearch_miss, cacheHit_absent.
      unfold forget, cacheKey. cbn [cache]. apply lookup_delete_eq.
    + rewrite Hrun. unfold runPipeline.
      destruct (buildExclusionSets _ _ _ _); [|now eexists].
      destruct (runClientSearch _ _ _ _ _); now eexists.
Qed.

(** The query [al] under [all], one second after the entry was written. *)
Lemma executeSearch_cache_hit_witness :
  let r := executeSearch Example.noJSON Example.apis (Example.payload "al" "all" None)
             Example.cachedStore 1000 2000 in
  outcome r = Fulfilled [Example.channelAlpha] true /\ trace r = [].
Proof.
  destruct (executeSearch_cache_hit Example.noJSON Example.apis
              (Example.payload "al" "all" None) Example.cachedStore 1000 2000
              Example.cachedEntry) as [H _]; [reflexivity|].
  destruct H as (Ho & Ht & _); [reflexivity|reflexivity|].
  split; [exact Ho|exact Ht].
Defined.

Lemma buildServerPromises_global JSON_parse apis pq logged enabledMods category sets :
  exists settledGlobal rest,
    fst (buildServerPromises JSON_parse apis pq logged enabledMods category sets)
    = ("globalsearch", settledGlobal) :: rest.
Proof.
  unfold buildServerPromises. destruct sets as [chatIds userIds].
  cbn [fst]. now eexists _, _.
Qed.

(** C5.  On a cache miss that reaches the fetch decision, module calls are
    issued exactly when the local stage produced fewer than 15 chat-like or
    fewer than 15 person matches; the global call is then among them.  With
    15 or more of both, no module is called, the global one included. *)
Theorem remote_fetch_iff_sparse
  (JSON_parse : string -> option jsval) (apis : ModuleApis) (p : Payload)
  (st : SearchState) (now now' : Z) (sets : ExclusionSets) (cs : ClientSearch) :
  let logged := Js.opt_prop (loggedUser p) "Zuid" in
  cacheHit st p now = None ->
  buildExclusionSets JSON_parse (chats (clientData p)) (users (clientData p)) logged
  = Ok sets ->
  runClientSearch JSON_parse (chats (clientData p)) (users (clientData p))
    (toLowerCase (trimmed (parsedQuery p))) logged = Ok cs ->
  let calls := moduleCalls (trace (executeSearch JSON_parse apis p st now now')) in
  let sparse := (length (clientChats cs) < 15 \/ length (clientUsers cs) < 15)%nat in
  (calls <> [] <-> sparse)
  /\ (sparse -> exists rest, calls = "globalsearch" :: rest)
  /\ ((15 <= length (clientChats cs) /\ 15 <= length (clientUsers cs))%nat ->
      calls = []).
Proof.
  intros logged Hmiss Hsets Hcs calls sparse.
  assert (Hcalls : calls = map fst (fst (serverPromises JSON_parse apis p logged sets cs))).
  { subst calls. rewrite executeSearch_miss by assumption.
    now apply (runPipeline_local_ok JSON_parse apis p now' sets cs). }
  assert (Hsparse : shouldFetchServer cs = true <-> sparse).
  { unfold shouldFetchServer, sparse.
    rewrite orb_true_iff, !Nat.ltb_lt. reflexivity. }
  unfold serverPromises in Hcalls.
  destruct (shouldFetchServer cs) eqn:Ef.
  - assert (Hs : sparse) by now apply Hsparse.
    destruct (buildServerPromises_global JSON_parse apis (parsedQuery p) logged
                (enabledModules p) (activeCategory p) sets) as (g & rest & Hg).
    rewrite Hg in Hcalls. cbn [map fst] in Hcalls.
    repeat split.
    + intros _. exact Hs.
    + intros _. rewrite Hcalls. discriminate.
    + intros _. rewrite Hcalls. now eexists.
    + intros [Hc Hu]. exfalso. unfold sparse in Hs. lia.
  - assert (Hs : ~ sparse).
    { intros Hs. apply Hsparse in Hs. discriminate. }
    cbn [map fst] in Hcalls. repeat split.
    + intros Hne. now contradiction Hne.
    + intros Hs'. now contradiction Hs.
    + intros Hs'. now contradiction Hs.
    + intros _. exact Hcalls.
Qed.

(** The query [al] finds two local chats and one local user: the modules
    are called. *)
Lemma remote_fetch_iff_sparse_witness :
  moduleCalls (trace (executeSearch Example.noJSON Example.apis
                        (Example.payload "al" "all" None) Example.emptyStore 1000 2000))
  <> [].
Proof.
  edestruct (remote_fetch_iff_sparse Example.noJSON Example.apis
               (Example.payload "al" "all" None) Example.emptyStore 1000 2000)
    as (H & _ & _).
  - reflexivity.
  - vm_compute. reflexivity.
  - vm_compute. reflexivity.
  - apply H. left. vm_compute. lia.
Defined.

Lemma executeSearch_fulfilled_fresh JSON_parse apis p st now now' rs :
  outcome (executeSearch JSON_parse apis p st now now') = Fulfilled rs false ->
  let logged := Js.opt_prop (loggedUser p) "Zuid" in
  cacheHit st p now = None
  /\ exists sets cs,
       buildExclusionSets JSON_parse (chats (clientData p)) (users (clientData p)) logged
       = Ok sets
       /\ runClientSearch JSON_parse (chats (clientData p)) (users (clientData p))
            (toLowerCase (trimmed (parsedQuery p))) logged = Ok cs
       /\ rs = capResults (maxResults p)
                 (mergeResults (resolveDedupKey p) (clientResults cs)
                    (serverResults p (fst (serverPromises JSON_parse apis p logged sets cs))))
       /\ dispatched (trace (executeSearch JSON_parse apis p st now now'))
          = [updateResults (clientResults cs) true;
             setCacheEntry (cacheKey (parsedQuery p))
               {| c_results := rs; c_timestamp := now';
                  c_activeCategory := activeCategory p |}].
Proof.
  intros Hout logged.
  destruct (cacheHit st p now) as [cached|] eqn:Ehit.
  { unfold executeSearch in Hout. rewrite Ehit in Hout. discriminate. }
  split; [reflexivity|].
  rewrite executeSearch_miss in * by assumption.
  destruct (runPipeline_fulfilled JSON_parse apis p now' rs false Hout) as (sets & cs & Hs & Hc).
  destruct (runPipeline_local_ok JSON_parse apis p now' sets cs Hs Hc) as (Ho & _ & Hd).
  exists sets, cs. rewrite Ho in Hout. injection Hout as <-.
  now repeat split.
Qed.

Lemma storeAfter_cache st r rs b key entry :
  dispatched (trace r) = [updateResults rs b; setCacheEntry key entry] ->
  cache (storeAfter st r) = <[key := entry]> (cache st).
Proof.
  intros Hd. unfold storeAfter. rewrite Hd. cbn [fold_left reducer pending cache].
  destruct (outcome r); reflexivity.
Qed.

(** C10.  The cache key is the lower-cased trimmed query text alone; the
    category sits inside the entry.  So after a search for a query under one
    category has written its entry, the entry does not serve a search for
    the same text under another category, and when that search completes its
    entry takes the place of the first: under the key there is then one
    entry, of the second category, and none of the first. *)
Theorem cache_one_entry_per_query
  (JSON_parse : string -> option jsval) (apis1 apis2 : ModuleApis)
  (p1 p2 : Payload) (st : SearchState) (t1 t1' t2 t2' : Z) (rs1 : list jsval) :
  toLowerCase (trimmed (parsedQuery p1)) = toLowerCase (trimmed (parsedQuery p2)) ->
  activeCategory p1 <> activeCategory p2 ->
  let key := toLowerCase (trimmed (parsedQuery p1)) in
  let r1 := executeSearch JSON_parse apis1 p1 st t1 t1' in
  let st1 := storeAfter st r1 in
  let r2 := executeSearch JSON_parse apis2 p2 st1 t2 t2' in
  let st2 := storeAfter st1 r2 in
  outcome r1 = Fulfilled rs1 false ->
  cache st1 !! key
  = Some {| c_results := rs1; c_timestamp := t1'; c_activeCategory := activeCategory p1 |}
  /\ cacheHit st1 p2 t2 = None
  /\ (forall rs2, outcome r2 = Fulfilled rs2 false ->
        cache st2 !! key
        = Some {| c_results := rs2; c_timestamp := t2';
                  c_activeCategory := activeCategory p2 |}
        /\ (forall e, cache st2 !! key = Some e ->
                      c_activeCategory e <> activeCategory p1)
        /\ (forall k, k <> key -> cache st2 !! k = cache st !! k)).
Proof.
  intros Hkey Hcat key r1 st1 r2 st2 Hr1.
  destruct (executeSearch_fulfilled_fresh JSON_parse apis1 p1 st t1 t1' rs1 Hr1)
    as (_ & sets1 & cs1 & _ & _ & _ & Hd1).
  assert (Hst1 : cache st1 = <[key := {| c_results := rs1; c_timestamp := t1';
                                          c_activeCategory := activeCategory p1 |}]> (cache st)).
  { subst st1. eapply storeAfter_cache. exact Hd1. }
  assert (Hl1 : cache st1 !! key
                = Some {| c_results := rs1; c_timestamp := t1';
                          c_activeCategory := activeCategory p1 |}).
  { rewrite Hst1. apply lookup_insert_eq. }
  split; [exact Hl1|]. split.
  { eapply cacheHit_other_category.
    - unfold cacheKey. rewrite <- Hkey. exact Hl1.
    - exact Hcat. }
  intros rs2 Hr2.
  destruct (executeSearch_fulfilled_fresh JSON_parse apis2 p2 st1 t2 t2' rs2 Hr2)
    as (_ & sets2 & cs2 & _ & _ & _ & Hd2).
  assert (Hst2 : cache st2 = <[key := {| c_results := rs2; c_timestamp := t2';
                                          c_activeCategory := activeCategory p2 |}]> (cache st1)).
  { subst st2. unfold key. rewrite Hkey. eapply storeAfter_cache. exact Hd2. }
  repeat split.
  - rewrite Hst2. apply lookup_insert_eq.
  - intros e He. rewrite Hst2, lookup_insert_eq in He. injection He as <-.
    cbn [c_activeCategory]. congruence.
  - intros k Hk. rewrite Hst2, Hst1, !lookup_insert_ne by congruence. reflexivity.
Qed.

(** The query [al] under [all], then under [users]. *)
Lemma cache_one_entry_per_query_witness :
  let st1 := storeAfter Example.emptyStore
               (executeSearch Example.noJSON Example.apis
                  (Example.payload "al" "all" None) Example.emptyStore 1000 2000) in
  cacheHit st1 (Example.payload "al" "users" None) 3000 = None.
Proof.
  edestruct (cache_one_entry_per_query Example.noJSON Example.apis Example.apis
               (Example.payload "al" "all" None) (Example.payload "al" "users" None)
               Example.emptyStore 1000 2000 3000 4000) as (_ & H & _).
  - reflexivity.
  - discriminate.
  - vm_compute. reflexivity.
  - exact H.
Defined.

Lemma rankResults_hasScore items keywords phrase getFields getWeight cfg :
  Forall hasScore (rankResults items keywords phrase getFields getWeight cfg).
Proof. unfold rankResults. rewrite sort_perm. apply scoreAll_hasScore. Qed.

Lemma collides_false key (clientResults : list jsval) sItem :
  collides key clientResults sItem = false ->
  forall cItem, cItem ∈ clientResults -> key cItem <> key sItem.
Proof.
  unfold collides. intros Hex cItem Hin Heq.
  assert (Ht : existsb (fun c => String.eqb (key c) (key sItem)) clientResults = true).
  { apply existsb_exists. exists cItem. split; [now apply list_elem_of_In|].
    now apply String.eqb_eq. }
  congruence.
Qed.

(** C1, as amended.  Take an invocation whose remote calls settle to
    records with plain module names, so that every module weight read is a
    number.  If it ran the pipeline to the end, it returns the merged list,
    cut to its first [maxResults] items when a cap is set.  The merged list
    is all the local results, in the order the local stage gave them,
    followed by the remote part.  The remote part comes from the records the
    remote calls settled to: those that match the query, each with its score
    written over it, are the ranked records, sorted by non-increasing score;
    the remote part is the ranked records, deduplicated by key, less those
    whose key is the key of a local result.  It is sorted by non-increasing
    score, has no two items with one key and no item whose key is the key of
    a local result; and the key of every ranked record is the key of an item
    of the merged list. *)
Theorem executeSearch_merged_order
  (JSON_parse : string -> option jsval) (apis : ModuleApis) (p : Payload)
  (st : SearchState) (now now' : Z) (rs : list jsval) :
  Forall plainModule (rawServer JSON_parse apis p) ->
  outcome (executeSearch JSON_parse apis p st now now') = Fulfilled rs false ->
  let key := resolveDedupKey p in
  let logged := Js.opt_prop (loggedUser p) "Zuid" in
  let matched :=
    rankedAs (keywords (parsedQuery p)) (phrase (parsedQuery p)) (resolveFields p)
      (default DEFAULT_SCORER_CONFIG (scorerConfig p)) in
  let matches :=
    matching (keywords (parsedQuery p)) (phrase (parsedQuery p)) (resolveFields p)
      (default DEFAULT_SCORER_CONFIG (scorerConfig p)) in
  exists cs ranked remote,
    runClientSearch JSON_parse (chats (clientData p)) (users (clientData p))
      (toLowerCase (trimmed (parsedQuery p))) logged = Ok cs
    /\ (exists scoredItems,
          Forall2 matched (List.filter matches (rawServer JSON_parse apis p)) scoredItems
          /\ ranked ≡ₚ scoredItems)
    /\ Forall hasScore ranked /\ StronglySorted geScore ranked
    /\ remote = List.filter (fun sItem => negb (collides key (clientResults cs) sItem))
                  (deduplicateBy ranked key)
    /\ StronglySorted geScore remote
    /\ NoDup (map key remote)
    /\ Forall (fun sItem => forall cItem, cItem ∈ clientResults cs ->
                                          key cItem <> key sItem) remote
    /\ (forall s, s ∈ ranked ->
          exists x, x ∈ (clientResults cs ++ remote)%list /\ key x = key s)
    /\ rs = capResults (maxResults p) (clientResults cs ++ remote)
    /\ (maxResults p = None -> rs = (clientResults cs ++ remote)%list)
    /\ exists k, rs = firstn k (clientResults cs ++ remote).
Proof.
  intros _ Hout key logged matched matches.
  destruct (executeSearch_fulfilled_fresh JSON_parse apis p st now now' rs Hout)
    as (_ & sets & cs & Hsets & Hcs & Hrs & _).
  fold logged in Hsets, Hcs, Hrs.
  assert (rawServer JSON_parse apis p
          = concat (map snd (fst (serverPromises JSON_parse apis p logged sets cs)))) as Hraw.
  { unfold rawServer. fold logged. now rewrite Hsets, Hcs. }
  set (ranked := serverResults p (fst (serverPromises JSON_parse apis p logged sets cs))) in *.
  assert (Hsc : Forall hasScore ranked) by apply rankResults_hasScore.
  exists cs, ranked,
    (List.filter (fun sItem => negb (collides key (clientResults cs) sItem))
       (deduplicateBy ranked key)).
  split; [exact Hcs|].
  split; [rewrite Hraw; apply rankResults_rankedAs|].
  split; [exact Hsc|].
  split; [apply sort_sorted, scoreAll_hasScore|].
  split; [reflexivity|].
  split; [now apply filter_StronglySorted, deduplicateBy_sorted|].
  split; [apply filter_NoDup_map, deduplicateBy_keys_NoDup|].
  split.
  { apply List.Forall_forall. intros sItem Hin. apply filter_In in Hin as [_ Hf].
    apply negb_true_iff in Hf. now apply collides_false. }
  split.
  { intros s Hs. destruct (deduplicateBy_covers key ranked s Hs) as (x & Hx & Hkey).
    destruct (collides key (clientResults cs) x) eqn:Ecol.
    - unfold collides in Ecol. apply existsb_exists in Ecol as (c & Hc & Heq).
      apply String.eqb_eq in Heq. exists c. split.
      + apply elem_of_app. left. now apply list_elem_of_In.
      + congruence.
    - exists x. split; [|exact Hkey]. apply elem_of_app. right.
      apply list_elem_of_In, filter_In. split; [now apply list_elem_of_In|].
      now rewrite Ecol. }
  split; [exact Hrs|]. split.
  - intros Hcap. rewrite Hrs. unfold capResults, mergeResults. now rewrite Hcap.
  - rewrite Hrs. apply capResults_firstn.
Qed.

(** The query [al] with no cap: two local chats, one local user, then the
    remote part: the user Alma and the channel Alumni, which the remote
    calls settled to; the remote Alan, whose key is the key of a local
    result, is not in it. *)
Lemma executeSearch_merged_order_witness :
  exists cs remote,
    runClientSearch Example.noJSON [Example.chatAlice; Example.channelAlpha]
      [Example.userAlan] "al" (JStr "2") = Ok cs
    /\ outcome (executeSearch Example.noJSON Example.apis
                  (Example.payload "al" "all" None) Example.emptyStore 1000 2000)
       = Fulfilled (clientResults cs ++ remote) false
    /\ map Example.moduleAndId (clientResults cs) = ["users::1"; "channels::c9"; "users::3"]
    /\ map Example.moduleAndId remote = ["users::7"; "channels::c5"]
    /\ NoDup (map Example.moduleAndId remote).
Proof.
  edestruct (executeSearch_merged_order Example.noJSON Example.apis
               (Example.payload "al" "all" None) Example.emptyStore 1000 2000)
    as (cs & ranked & remote & Hcs & _ & _ & _ & _ & _ & Hnd & _ & _ & _ & Hrs & _).
  - set (raw := rawServer _ _ _). vm_compute in raw. subst raw.
    repeat (constructor; [reflexivity|]). constructor.
  - vm_compute. reflexivity.
  - specialize (Hrs eq_refl).
    exists cs, remote. split; [exact Hcs|].
    split; [rewrite <- Hrs; vm_compute; reflexivity|].
    vm_compute in Hcs. injection Hcs as <-. cbn [clientResults app] in Hrs.
    injection Hrs as <-.
    split; [vm_compute; reflexivity|]. split; [vm_compute; reflexivity|exact Hnd].
Defined.

(** C1 as stated fails under a cap: with [maxResults = 1] the list returned
    for the query [al] has one item, while the local stage found three. *)
Lemma executeSearch_cap_drops_local_results :
  exists cs rs,
    runClientSearch Example.noJSON [Example.chatAlice; Example.channelAlpha]
      [Example.userAlan] "al" (JStr "2") = Ok cs
    /\ outcome (executeSearch Example.noJSON Example.apis
                  (Example.payload "al" "all" (Some 1)) Example.emptyStore 1000 2000)
       = Fulfilled rs false
    /\ length (clientResults cs) = 3%nat
    /\ length rs = 1%nat
    /\ ~ exists remote, rs = (clientResults cs ++ remote)%list.
Proof.
  eexists _, _. split; [vm_compute; reflexivity|].
  split; [vm_compute; reflexivity|].
  split; [reflexivity|]. split; [reflexivity|].
  intros [remote H]. apply (f_equal (@length jsval)) in H.
  rewrite length_app in H. cbn [length clientResults] in H. lia.
Qed.

End ThunkTheorems.

(** ** queryParser.js: scanning *)

Section ScanFacts.
Import QueryParser Spec.

Lemma space_not_word (c : ascii) : is_space c = true -> is_word c = false.
Proof.
  destruct c as [[] [] [] [] [] [] [] []]; vm_compute; congruence.
Qed.

Lemma word_not_space (c : ascii) : is_word c = true -> is_space c = false.
Proof.
  destruct c as [[] [] [] [] [] [] [] []]; vm_compute; congruence.
Qed.

Lemma space_not_colon (c : ascii) : is_space c = true -> c <> ":"%char.
Proof. intros H ->. discriminate. Qed.

Lemma takeWhile_stop (p : ascii -> bool) (a : string) (c : ascii) (b : string) :
  p c = false -> takeWhile p (a ++ String c b) = takeWhile p a.
Proof.
  intros Hc. induction a as [|x a IH]; simpl.
  - now rewrite Hc.
  - destruct (p x); [now rewrite IH|reflexivity].
Qed.

Lemma dropWhile_stop (p : ascii -> bool) (a : string) (c : ascii) (b : string) :
  p c = false ->
  dropWhile p (a ++ String c b) = (dropWhile p a ++ String c b)%string.
Proof.
  intros Hc. induction a as [|x a IH]; simpl.
  - now rewrite Hc.
  - destruct (p x); [exact IH|reflexivity].
Qed.

Lemma takeWhile_dropWhile (p : ascii -> bool) (s : string) :
  (takeWhile p s ++ dropWhile p s)%string = s.
Proof.
  induction s as [|c s IH]; simpl; [reflexivity|].
  destruct (p c); simpl; [now rewrite IH|reflexivity].
Qed.

Lemma takeWhile_allb (p : ascii -> bool) (s : string) : allb p (takeWhile p s) = true.
Proof.
  induction s as [|c s IH]; simpl; [reflexivity|].
  destruct (p c) eqn:E; simpl; [now rewrite E|reflexivity].
Qed.

Lemma takeWhile_all (p : ascii -> bool) (s r : string) :
  allb p s = true -> (match r with String c _ => p c = false | EmptyString => True end) ->
  takeWhile p (s ++ r) = s /\ dropWhile p (s ++ r) = r.
Proof.
  intros Hs Hr. induction s as [|c s IH]; simpl in *.
  - destruct r as [|c r]; simpl; [now split|]. now rewrite Hr.
  - apply andb_true_iff in Hs as [Hc Hs]. rewrite Hc.
    destruct (IH Hs) as [-> ->]. now split.
Qed.

Lemma allb_append (p : ascii -> bool) (a b : string) :
  allb p (a ++ b) = allb p a && allb p b.
Proof.
  induction a as [|c a IH]; simpl; [reflexivity|].
  now rewrite IH, andb_assoc.
Qed.

(** The captures of a match are a word, then the colon, then a non-empty
    text without white space; the match is a prefix of the text. *)
Lemma matchAt_Some (s k v : string) :
  matchAt s = Some (k, v) ->
  k <> "" /\ allb is_word k = true /\ v <> "" /\ spaceFree v
  /\ exists r, s = (k ++ ":" ++ v ++ r)%string.
Proof.
  unfold matchAt. intros H.
  pose proof (takeWhile_dropWhile is_word s) as Hs.
  pose proof (takeWhile_allb is_word s) as Hk.
  destruct (takeWhile is_word s) as [|c0 k0] eqn:Ek; [discriminate|].
  destruct (dropWhile is_word s) as [|c rest] eqn:Ed; [discriminate|].
  destruct (Ascii.eqb_spec c ":") as [->|Hne].
  2:{ destruct c as [[] [] [] [] [] [] [] []]; try discriminate. now contradiction Hne. }
  pose proof (takeWhile_dropWhile non_space rest) as Hr.
  pose proof (takeWhile_allb non_space rest) as Hv.
  destruct (takeWhile non_space rest) as [|c1 v1] eqn:Ev;
    [destruct (dropWhile non_space rest); discriminate|].
  assert (Hkv : String c0 k0 = k /\ String c1 v1 = v).
  { revert H. clear. intros H. now injection H as <- <-. }
  destruct Hkv as [<- <-].
  repeat split; try discriminate; try assumption.
  exists (dropWhile non_space rest). rewrite <- Hs. f_equal. simpl. f_equal.
  symmetry. exact Hr.
Qed.

Lemma matchAt_stop (a : string) (c : ascii) (b : string) :
  is_space c = true -> matchAt (a ++ String c b) = matchAt a.
Proof.
  intros Hc. unfold matchAt.
  rewrite takeWhile_stop, dropWhile_stop by now apply space_not_word.
  destruct (takeWhile is_word a) as [|c0 k0]; [reflexivity|].
  destruct (dropWhile is_word a) as [|d rest]; simpl.
  - destruct (Ascii.eqb_spec c ":") as [->|Hne]; [discriminate|].
    destruct c as [[] [] [] [] [] [] [] []]; try reflexivity. now contradiction Hne.
  - destruct (Ascii.eqb_spec d ":") as [->|Hne].
    + rewrite takeWhile_stop; [reflexivity|]. unfold non_space. now rewrite Hc.
    + destruct d as [[] [] [] [] [] [] [] []]; try reflexivity. now contradiction Hne.
Qed.

Lemma execAll_short (n : nat) (s : string) :
  (String.length s <= n)%nat -> execAll n s = [].
Proof.
  revert n. induction s as [|c s IH]; intros n Hn; simpl in *; [reflexivity|].
  destruct n as [|n]; [lia|]. apply IH. lia.
Qed.

(** A white-space character cuts the scan in two. *)
Lemma execAll_cut (a : string) (c : ascii) (b : string) (n : nat) :
  is_space c = true -> (n <= String.length a)%nat ->
  execAll n (a ++ String c b) = (execAll n a ++ execAll 0 b)%list.
Proof.
  intros Hc. revert n. induction a as [|x a IH]; intros n Hn.
  - simpl in Hn. assert (n = O) as -> by lia. simpl.
    change (String c b) with ("" ++ String c b)%string.
    rewrite matchAt_stop by assumption. reflexivity.
  - cbn [String.append execAll]. destruct n as [|n].
    + change (String x (a ++ String c b)) with (String x a ++ String c b)%string.
      rewrite matchAt_stop by assumption.
      destruct (matchAt (String x a)) as [[k v]|] eqn:Em.
      * cbn [fst snd]. apply matchAt_Some in Em as (_ & _ & _ & _ & r & Hr).
        rewrite IH; [reflexivity|].
        apply (f_equal String.length) in Hr.
        rewrite !length_append in Hr. simpl in Hr. lia.
      * apply IH. lia.
    + apply IH. simpl in Hn. lia.
Qed.

(** A well-formed token alone is scanned as itself. *)
Lemma matchAt_token (k v r : string) :
  k <> "" -> allb is_word k = true -> v <> "" -> spaceFree v ->
  (match r with String c _ => is_space c = true | EmptyString => True end) ->
  matchAt (k ++ ":" ++ v ++ r) = Some (k, v).
Proof.
  intros Hk Hw Hv Hs Hr. unfold matchAt.
  destruct (takeWhile_all is_word k (":" ++ v ++ r) Hw) as [-> ->]; [reflexivity|].
  destruct k as [|c0 k0]; [congruence|]. cbn [String.append].
  destruct (takeWhile_all non_space v r Hs) as [-> _].
  { destruct r; [exact I|]. unfold non_space. now rewrite Hr. }
  destruct v; [congruence|reflexivity].
Qed.

Lemma execAll_token (k v : string) :
  k <> "" -> allb is_word k = true -> v <> "" -> spaceFree v ->
  execAll 0 (k ++ ":" ++ v) = [(k, v)].
Proof.
  intros Hk Hw Hv Hs.
  pose proof (matchAt_token k v "" Hk Hw Hv Hs I) as Hm.
  rewrite append_nil_r in Hm.
  destruct k as [|c0 k0]; [congruence|].
  cbn [String.append execAll] in *. rewrite Hm. cbn [fst snd].
  rewrite execAll_short; [reflexivity|].
  rewrite length_append. simpl. lia.
Qed.

End ScanFacts.

(** ** queryParser.js: removal and white space *)

Section RemovalFacts.
Import QueryParser Spec.

Lemma removeFirst_unfold (t s : string) :
  removeFirst t s =
  if startsWith t s then drop (String.length t) s
  else match s with
       | EmptyString => EmptyString
       | String c s' => String c (removeFirst t s')
       end.
Proof. destruct s; reflexivity. Qed.

Lemma drop_append (t r : string) : drop (String.length t) (t ++ r) = r.
Proof. induction t as [|c t IH]; simpl; [now destruct r|exact IH]. Qed.

Lemma removeFirst_here (t r : string) : removeFirst t (t ++ r) = r.
Proof. rewrite removeFirst_unfold, startsWith_append. apply drop_append. Qed.

Lemma startsWith_past_space (t a : string) (c : ascii) (z : string) :
  startsWith t a = false -> spaceFree t -> is_space c = true ->
  startsWith t (a ++ String c z) = false.
Proof.
  unfold spaceFree. revert a. induction t as [|x t IH]; intros a Hs Ht Hc.
  - discriminate.
  - simpl in Ht. apply andb_true_iff in Ht as [Hx Ht].
    destruct a as [|y a]; simpl in *.
    + destruct (Ascii.eqb_spec x c) as [->|]; [|reflexivity].
      unfold non_space in Hx. rewrite Hc in Hx. discriminate.
    + destruct (Ascii.eqb x y); [|reflexivity]. simpl in *. now apply IH.
Qed.

Lemma removeFirst_after_blank (t sp y : string) :
  t <> "" -> spaceFree t -> blank sp ->
  removeFirst t (sp ++ t ++ y) = (sp ++ y)%string.
Proof.
  unfold blank. intros Ht Hs. induction sp as [|c sp IH]; intros Hb.
  - simpl. apply removeFirst_here.
  - simpl in Hb. apply andb_true_iff in Hb as [Hc Hb].
    rewrite removeFirst_unfold. cbn [String.append].
    replace (startsWith t (String c (sp ++ t ++ y))) with false.
    + now rewrite IH.
    + symmetry. destruct t as [|x t]; [congruence|]. simpl.
      unfold spaceFree in Hs. simpl in Hs. apply andb_true_iff in Hs as [Hx _].
      destruct (Ascii.eqb_spec x c) as [->|]; [|reflexivity].
      unfold non_space in Hx. rewrite Hc in Hx. discriminate.
Qed.

(** A token that does not occur in [T] is removed where it stands, behind
    [T] and the blank that follows it. *)
Lemma removeFirst_behind (t T sp y : string) :
  includes t T = false -> t <> "" -> spaceFree t -> blank sp ->
  (sp <> "" \/ T = "") ->
  removeFirst t (T ++ sp ++ t ++ y) = (T ++ sp ++ y)%string.
Proof.
  intros Hin Ht Hs Hb Hsp. induction T as [|c T IH].
  - simpl. now apply removeFirst_after_blank.
  - rewrite includes_cons in Hin. apply orb_false_iff in Hin as [Hst Hin].
    destruct Hsp as [Hsp|Hsp]; [|discriminate].
    destruct sp as [|d sp]; [congruence|].
    unfold blank in Hb. simpl in Hb. apply andb_true_iff in Hb as [Hd Hb].
    rewrite removeFirst_unfold.
    replace (startsWith t ((String c T) ++ (String d sp) ++ t ++ y)) with false.
    + cbn [String.append]. f_equal. apply IH; [assumption|]. left. discriminate.
    + symmetry. apply (startsWith_past_space t (String c T) d (sp ++ t ++ y));
        assumption.
Qed.

Lemma collapseFrom_blank (b : bool) (sp : string) :
  blank sp ->
  collapseFrom b sp = if b then "" else if nonempty sp then " " else "".
Proof.
  unfold blank. revert b. induction sp as [|c sp IH]; intros b Hb; simpl.
  - now destruct b.
  - simpl in Hb. apply andb_true_iff in Hb as [Hc Hb]. rewrite Hc.
    rewrite (IH true Hb). now destruct b.
Qed.

Lemma collapseFrom_collapsed (b : bool) (s : string) :
  collapsed b (collapseFrom b s) = true.
Proof.
  revert b. induction s as [|c s IH]; intros b; simpl; [reflexivity|].
  destruct (is_space c) eqn:Ec.
  - destruct b; [apply IH|]. simpl. apply IH.
  - simpl. rewrite Ec. apply IH.
Qed.

Lemma collapsed_fixed (b : bool) (s : string) :
  collapsed b s = true -> collapseFrom b s = s.
Proof.
  revert b. induction s as [|c s IH]; intros b H; simpl in *; [reflexivity|].
  destruct (is_space c).
  - apply andb_true_iff in H as [H Hs]. apply andb_true_iff in H as [Hb Hc].
    apply negb_true_iff in Hb. apply Ascii.eqb_eq in Hc. subst. now rewrite IH.
  - now rewrite IH.
Qed.

Lemma collapsed_trimStart (b : bool) (s : string) :
  collapsed b s = true -> collapsed false (trimStart s) = true.
Proof.
  revert b. induction s as [|c s IH]; intros b H; simpl in *; [reflexivity|].
  destruct (is_space c) eqn:Ec.
  - apply andb_true_iff in H as [_ Hs]. now apply IH with true.
  - simpl. now rewrite Ec.
Qed.

Lemma collapsed_trimEnd (b : bool) (s : string) :
  collapsed b s = true -> collapsed b (trimEnd s) = true.
Proof.
  revert b. induction s as [|c s IH]; intros b H; simpl in *; [reflexivity|].
  destruct (is_space c) eqn:Ec.
  - apply andb_true_iff in H as [H Hs]. specialize (IH true Hs).
    destruct (trimEnd s); [reflexivity|]. cbn [collapsed]. rewrite Ec.
    now rewrite H.
  - specialize (IH false H).
    destruct (trimEnd s); simpl; rewrite Ec; [reflexivity|exact IH].
Qed.

Lemma trimEnd_blank (sp : string) : blank sp -> trimEnd sp = "".
Proof.
  unfold blank. induction sp as [|c sp IH]; intros Hb; simpl in *; [reflexivity|].
  apply andb_true_iff in Hb as [Hc Hb]. now rewrite IH, Hc.
Qed.

Lemma trimEnd_ends (s : string) :
  trimEnd s = "" \/ endsWithWord (trimEnd s) = true.
Proof.
  induction s as [|c s IH]; simpl; [now left|].
  destruct (trimEnd s) as [|d r] eqn:E.
  - destruct (is_space c) eqn:Ec; [now left|]. right. simpl. now rewrite Ec.
  - right. destruct IH as [IH|IH]; [discriminate|]. exact IH.
Qed.

Lemma trimStart_starts (s : string) :
  trimStart s = "" \/ startsWithWord (trimStart s) = true.
Proof.
  induction s as [|c s IH]; simpl; [now left|].
  destruct (is_space c) eqn:Ec; [exact IH|]. right. simpl. now rewrite Ec.
Qed.

Lemma trimEnd_keeps_start (s : string) :
  startsWithWord s = true -> startsWithWord (trimEnd s) = true.
Proof.
  destruct s as [|c s]; simpl; [discriminate|]. intros Hc.
  apply negb_true_iff in Hc.
  destruct (trimEnd s); rewrite ?Hc; simpl; rewrite ?Hc; reflexivity.
Qed.

Lemma trimStart_word (s : string) : startsWithWord s = true -> trimStart s = s.
Proof.
  destruct s as [|c s]; simpl; [reflexivity|]. intros Hc.
  apply negb_true_iff in Hc. now rewrite Hc.
Qed.

Lemma trimEnd_append_blank (T sp : string) :
  endsWithWord T = true -> blank sp -> trimEnd (T ++ sp) = T.
Proof.
  intros HT Hb. induction T as [|c T IH]; [discriminate|].
  cbn [String.append trimEnd]. destruct T as [|d T].
  - simpl in HT. apply negb_true_iff in HT. cbn [String.append].
    now rewrite trimEnd_blank, HT.
  - rewrite IH by exact HT. reflexivity.
Qed.

Lemma collapseFrom_append_blank (b : bool) (T sp : string) :
  collapsed b T = true -> endsWithWord T = true -> blank sp ->
  collapseFrom b (T ++ sp) = (T ++ (if nonempty sp then " " else ""))%string.
Proof.
  revert b. induction T as [|c T IH]; intros b Hc He Hb; [discriminate|].
  destruct T as [|d T].
  - simpl in He. apply negb_true_iff in He. cbn [String.append collapseFrom].
    rewrite He. now rewrite (collapseFrom_blank false sp Hb).
  - change (endsWithWord (String c (String d T))) with (endsWithWord (String d T)) in He.
    change (String c (String d T) ++ sp)%string
      with (String c (String d T ++ sp)).
    cbn [collapseFrom]. cbn [collapsed] in Hc.
    destruct (is_space c) eqn:Ec.
    + apply andb_true_iff in Hc as [Hc Hs]. apply andb_true_iff in Hc as [Hnb Hsp].
      apply negb_true_iff in Hnb. apply Ascii.eqb_eq in Hsp. subst b c.
      rewrite (IH true Hs He Hb). reflexivity.
    + rewrite (IH false Hc He Hb). reflexivity.
Qed.

End RemovalFacts.

(** ** queryParser.js: the two parses *)

Section ParseFacts.
Import QueryParser Spec.

Lemma normalize_tidy (r : string) :
  let T := trim (collapseSpaces r) in
  collapsed false T = true
  /\ (T = "" \/ (startsWithWord T = true /\ endsWithWord T = true)).
Proof.
  intros T. subst T. unfold trim, collapseSpaces. split.
  - apply collapsed_trimEnd, (collapsed_trimStart false), collapseFrom_collapsed.
  - destruct (trimStart_starts (collapseFrom false r)) as [->|Hs]; [now left|].
    destruct (trimEnd_ends (trimStart (collapseFrom false r))) as [->|He]; [now left|].
    right. split; [now apply trimEnd_keeps_start|exact He].
Qed.

Lemma normalize_again (T sp : string) :
  collapsed false T = true ->
  (T = "" \/ (startsWithWord T = true /\ endsWithWord T = true)) ->
  blank sp ->
  trim (collapseSpaces (T ++ sp)) = T.
Proof.
  intros Hc [->|[Hs He]] Hb; unfold trim, collapseSpaces.
  - simpl. rewrite (collapseFrom_blank false sp Hb). now destruct (nonempty sp).
  - rewrite (collapseFrom_append_blank false T sp Hc He Hb).
    rewrite trimStart_word.
    + apply trimEnd_append_blank; [exact He|]. now destruct (nonempty sp).
    + destruct T; [discriminate|exact Hs].
Qed.

Lemma parseQueryWith_fields (V : list string) (raw : string) :
  let scanned := fold_left (collect V) (execAll 0 raw) (∅, []) in
  let pq := parseQueryWith V raw in
  filters pq = fst scanned
  /\ trimmed pq
     = trim (collapseSpaces (fold_left (fun r tok => removeFirst tok r) (snd scanned) raw))
  /\ keywords pq = if nonempty (trimmed pq) then splitSpaces (trimmed pq) else [].
Proof.
  intros scanned pq. subst pq. unfold parseQueryWith. fold scanned.
  destruct scanned as [F R]. now repeat split.
Qed.

Lemma execAll_shape (n : nat) (s : string) :
  Forall (fun m => fst m <> "" /\ allb is_word (fst m) = true
                   /\ snd m <> "" /\ spaceFree (snd m)) (execAll n s).
Proof.
  revert n. induction s as [|c s IH]; intros n; simpl; [constructor|].
  destruct n as [|n]; [|apply IH].
  destruct (matchAt (String c s)) as [[k v]|] eqn:Em; [|apply IH].
  constructor; [|apply IH].
  apply matchAt_Some in Em as (? & ? & ? & ? & _). now repeat split.
Qed.

Lemma stripMarker_spaceFree (v : string) : spaceFree v -> spaceFree (stripMarker v).
Proof.
  unfold spaceFree. destruct v as [|c v]; simpl; [trivial|].
  intros H. apply andb_true_iff in H as [Hc Hv].
  destruct (is_marker c); [exact Hv|]. simpl. now rewrite Hc.
Qed.

Lemma collect_keeps (V : list string) (ms : list (string * string))
  (acc : gmap string string * list string) :
  Forall (fun m => snd m <> "" /\ spaceFree (snd m)) ms ->
  map_Forall (fun k v => includesToken V k = true /\ spaceFree v) (fst acc) ->
  map_Forall (fun k v => includesToken V k = true /\ spaceFree v)
    (fst (fold_left (collect V) ms acc)).
Proof.
  intros Hms. revert acc. induction Hms as [|m ms [_ Hv] _ IH]; intros acc Hacc; simpl.
  - exact Hacc.
  - apply IH. unfold collect.
    destruct (includesToken V (toLowerCase (fst m))) eqn:Ek; [|exact Hacc].
    cbn [fst]. apply map_Forall_insert_2; [|exact Hacc].
    split; [exact Ek|now apply stripMarker_spaceFree].
Qed.

Lemma collect_fold_invalid (V : list string) (ms : list (string * string))
  (acc : gmap string string * list string) :
  forallb (fun m => negb (includesToken V (toLowerCase (fst m)))) ms = true ->
  fold_left (collect V) ms acc = acc.
Proof.
  induction ms as [|m ms IH]; simpl; intros H; [reflexivity|].
  apply andb_true_iff in H as [Hm Hms]. apply negb_true_iff in Hm.
  unfold collect at 2. rewrite Hm. now apply IH.
Qed.

Lemma collect_fold_valid (V : list string) (entries : list (string * string))
  (F0 : gmap string string) (R0 : list string) :
  Forall (fun kv => includesToken V (fst kv) = true
                    /\ toLowerCase (fst kv) = fst kv
                    /\ stripMarker (snd kv) = snd kv) entries ->
  fold_left (collect V) entries (F0, R0)
  = (fold_left (fun m kv => <[fst kv := snd kv]> m) entries F0,
     (R0 ++ map tokenText entries)%list).
Proof.
  intros H. revert F0 R0. induction H as [|kv entries (Hk & Hl & Hv) _ IH];
    intros F0 R0; simpl.
  - now rewrite app_nil_r.
  - unfold collect at 2. rewrite Hl, Hk, Hv. cbn [fst snd].
    rewrite IH. now rewrite <- app_assoc.
Qed.

Lemma fold_insert_list_to_map (l : list (string * string)) :
  fold_left (fun (m : gmap string string) kv => <[fst kv := snd kv]> m) l ∅
  = list_to_map (rev l).
Proof.
  unfold list_to_map. now rewrite fold_left_rev_right.
Qed.

Lemma keyShape_vocabulary (k : string) :
  includesToken FILTER_TOKENS k = true -> keyShape k.
Proof.
  unfold includesToken, FILTER_TOKENS. cbn [existsb]. intros H.
  repeat (apply orb_true_iff in H as [H|H];
          [apply String.eqb_eq in H; subst k; repeat split; discriminate|]).
  discriminate.
Qed.

Lemma tokenText_shape (kv : string * string) :
  fst kv <> "" -> spaceFree (fst kv) -> spaceFree (snd kv) ->
  tokenText kv <> "" /\ spaceFree (tokenText kv).
Proof.
  intros Hk Hsk Hsv. unfold tokenText. split.
  - destruct (fst kv); [congruence|discriminate].
  - unfold spaceFree in *. rewrite !allb_append, Hsk, Hsv. reflexivity.
Qed.

Lemma allb_word_spaceFree (k : string) : allb is_word k = true -> spaceFree k.
Proof.
  unfold spaceFree. induction k as [|c k IH]; simpl; [trivial|].
  intros H. apply andb_true_iff in H as [Hc Hk].
  unfold non_space at 1. rewrite (word_not_space c Hc). now apply IH.
Qed.

End ParseFacts.

Section RoundTrip.
Import QueryParser Spec.

Lemma goodEntry_token T kv :
  goodEntry T kv ->
  fst kv <> "" /\ allb is_word (fst kv) = true /\ toLowerCase (fst kv) = fst kv
  /\ tokenText kv <> "" /\ spaceFree (tokenText kv).
Proof.
  intros (Hk & Hv & Hs & _ & _).
  destruct (keyShape_vocabulary _ Hk) as (Hne & Hw & Hl).
  repeat split; try assumption;
    apply tokenText_shape; try assumption; now apply allb_word_spaceFree.
Qed.

Lemma scan_tokens T (entries : list (string * string)) :
  Forall (goodEntry T) entries ->
  execAll 0 (Js.join " " (map tokenText entries)) = entries.
Proof.
  induction 1 as [|kv entries Hkv Hrest IH]; [reflexivity|].
  destruct (goodEntry_token T kv Hkv) as (Hne & Hw & _ & _ & _).
  destruct Hkv as (_ & Hv & Hs & _ & _).
  assert (Hone : execAll 0 (tokenText kv) = [kv]).
  { destruct kv as [k v]. now apply execAll_token. }
  destruct entries as [|kv' entries].
  - exact Hone.
  - change (Js.join " " (map tokenText (kv :: kv' :: entries)))
      with (tokenText kv ++ String " " (Js.join " " (map tokenText (kv' :: entries))))%string.
    rewrite execAll_cut; [|reflexivity|lia]. now rewrite Hone, IH.
Qed.

Lemma remove_tokens T (entries : list (string * string)) (sp : string) :
  Forall (goodEntry T) entries -> blank sp ->
  (sp <> "" \/ T = "" \/ entries = []) ->
  exists sp', blank sp'
    /\ fold_left (fun r tok => removeFirst tok r) (map tokenText entries)
         (T ++ sp ++ Js.join " " (map tokenText entries))
       = (T ++ sp')%string.
Proof.
  intros H. revert sp. induction H as [|kv entries Hkv Hrest IH]; intros sp Hb Hsp.
  - exists sp. split; [exact Hb|]. simpl. now rewrite append_nil_r.
  - destruct (goodEntry_token T kv Hkv) as (_ & _ & _ & Hne & Hs).
    destruct Hkv as (_ & _ & _ & _ & Hin).
    assert (Hsp' : sp <> "" \/ T = "").
    { destruct Hsp as [?|[?|?]]; [now left|now right|discriminate]. }
    destruct entries as [|kv' entries].
    + exists sp. split; [exact Hb|]. cbn [map Js.join fold_left].
      rewrite <- (append_nil_r (tokenText kv)) at 2.
      rewrite removeFirst_behind by assumption. now rewrite append_nil_r.
    + change (Js.join " " (map tokenText (kv :: kv' :: entries)))
        with (tokenText kv ++ String " " (Js.join " " (map tokenText (kv' :: entries))))%string.
      cbn [map fold_left].
      rewrite removeFirst_behind by assumption.
      destruct (IH (sp ++ " ")%string) as (sp' & Hb' & Hfold).
      * unfold blank in *. now rewrite allb_append, Hb.
      * left. destruct sp; discriminate.
      * exists sp'. split; [exact Hb'|]. rewrite <- Hfold.
        cbn [map]. now rewrite !append_assoc.
Qed.

Lemma join_tokens_empty T (entries : list (string * string)) :
  Forall (goodEntry T) entries ->
  Js.join " " (map tokenText entries) = "" -> entries = [].
Proof.
  intros H Hj. destruct H as [|kv entries Hkv _]; [reflexivity|].
  destruct (goodEntry_token T kv Hkv) as (_ & _ & _ & Hne & _).
  exfalso. destruct entries; simpl in Hj.
  - congruence.
  - destruct (tokenText kv); [congruence|discriminate].
Qed.

(** The serialized query is the text, a separating blank, the tokens. *)
Lemma serialize_shape T (entries : list (string * string)) :
  Forall (goodEntry T) entries ->
  let fs := Js.join " " (map tokenText entries) in
  exists sp,
    Js.join " " (List.filter nonempty [T; fs]) = (T ++ sp ++ fs)%string
    /\ blank sp
    /\ (sp <> "" \/ T = "" \/ entries = [])
    /\ (sp = " " \/ (sp = "" /\ (T = "" \/ entries = []))).
Proof.
  intros H fs. cbn [List.filter].
  destruct (nonempty T) eqn:ET; destruct (nonempty fs) eqn:Ef.
  - exists " ". cbn [Js.join]. repeat split; try reflexivity; left; [discriminate|reflexivity].
  - apply nonempty_false in Ef. exists "". rewrite Ef. cbn [Js.join].
    rewrite !append_nil_r.
    assert (entries = []) by now apply (join_tokens_empty T).
    repeat split; try reflexivity; right; [now right|]. split; [reflexivity|now right].
  - apply nonempty_false in ET. subst T. exists "". cbn [Js.join].
    repeat split; try reflexivity; right; [now left|]. split; [reflexivity|now left].
  - apply nonempty_false in ET, Ef. subst T. rewrite Ef. exists "".
    repeat split; try reflexivity; right; [now left|]. split; [reflexivity|now left].
Qed.

Lemma entries_good (raw : string) :
  let pq := parseQuery raw in
  cleanValues pq = true -> tokenFree pq = true ->
  Forall (goodEntry (trimmed pq))
    (Js.sort (fun x y => localeCompare (fst x) (fst y)) (map_to_list (filters pq))).
Proof.
  intros pq Hclean Hfree.
  apply Forall_forall. intros kv Hkv. rewrite sort_elem_of in Hkv.
  unfold cleanValues in Hclean. unfold tokenFree in Hfree.
  apply andb_true_iff in Hfree as [_ Hfree].
  rewrite forallb_forall in Hclean, Hfree.
  pose proof Hkv as Hin. apply list_elem_of_In in Hin.
  specialize (Hclean kv Hin). specialize (Hfree kv Hin).
  apply andb_true_iff in Hclean as [Hne Hstrip].
  apply nonempty_true in Hne. apply String.eqb_eq in Hstrip.
  apply negb_true_iff in Hfree.
  destruct kv as [k v]. apply elem_of_map_to_list in Hkv.
  destruct (parseQueryWith_fields FILTER_TOKENS raw) as (HF & _ & _).
  fold (parseQuery raw) in HF. fold pq in HF.
  assert (Hinv : map_Forall (fun k v => includesToken FILTER_TOKENS k = true /\ spaceFree v)
                   (filters pq)).
  { rewrite HF. apply collect_keeps.
    - eapply Forall_impl; [apply execAll_shape|]. intros m (_ & _ & ? & ?). now split.
    - apply map_Forall_empty. }
  destruct (Hinv k v Hkv) as [Hk Hs].
  now repeat split.
Qed.

(** C2, as amended.  When the first parse extracts only filter values that
    are non-empty and do not begin with [@] or [#], and the text it leaves
    holds neither a recognised filter token nor the text [key:value] of an
    extracted filter, then parsing the serialized query gives the same
    filters and the same keywords. *)
Theorem parseQuery_roundtrip (raw : string) :
  let pq := parseQuery raw in
  cleanValues pq = true ->
  tokenFree pq = true ->
  let pq' := parseQuery (serializeQuery pq) in
  filters pq' = filters pq /\ keywords pq' = keywords pq.
Proof.
  intros pq Hclean Hfree pq'.
  pose proof (entries_good raw Hclean Hfree) as Hgood. fold pq in Hgood.
  set (T := trimmed pq) in *.
  set (entries := Js.sort (fun x y => localeCompare (fst x) (fst y))
                    (map_to_list (filters pq))) in *.
  set (fs := Js.join " " (map tokenText entries)).
  assert (HS : serializeQuery pq = Js.join " " (List.filter nonempty [T; fs])) by reflexivity.
  destruct (serialize_shape T entries Hgood) as (sp & Hshape & Hb & Hsp & Hcase).
  fold fs in Hshape. rewrite Hshape in HS.
  (* the matches of the second scan *)
  assert (Hscan : execAll 0 (serializeQuery pq) = (execAll 0 T ++ entries)%list).
  { rewrite HS. destruct Hcase as [->|[-> [HT|He]]].
    - change (T ++ " " ++ fs)%string with (T ++ String " " fs)%string.
      rewrite execAll_cut; [|reflexivity|lia]. unfold fs.
      now rewrite (scan_tokens T entries Hgood).
    - rewrite HT. change ("" ++ "" ++ fs)%string with fs. unfold fs.
      rewrite (scan_tokens T entries Hgood). reflexivity.
    - unfold fs. rewrite He. cbn [map Js.join String.append]. rewrite !append_nil_r.
      now rewrite app_nil_r. }
  (* what the second loop collects *)
  assert (Hcollect : fold_left (collect FILTER_TOKENS) (execAll 0 (serializeQuery pq)) (∅, [])
                     = (filters pq, map tokenText entries)).
  { rewrite Hscan, fold_left_app.
    rewrite (collect_fold_invalid FILTER_TOKENS (execAll 0 T)).
    2:{ unfold tokenFree in Hfree. apply andb_true_iff in Hfree as [Hfree _]. exact Hfree. }
    rewrite collect_fold_valid.
    2:{ eapply Forall_impl; [exact Hgood|]. intros kv Hkv.
        destruct (goodEntry_token T kv Hkv) as (_ & _ & Hl & _ & _).
        destruct Hkv as (Hk & _ & _ & Hv & _). now repeat split. }
    cbn [app]. f_equal. rewrite fold_insert_list_to_map.
    transitivity (list_to_map (map_to_list (filters pq)) : gmap string string);
      [|apply list_to_map_to_list].
    assert (Hperm : rev entries ≡ₚ map_to_list (filters pq)).
    { rewrite <- Permutation_rev. apply sort_perm. }
    apply list_to_map_proper; [|exact Hperm].
    rewrite Hperm. apply NoDup_fst_map_to_list. }
  destruct (parseQueryWith_fields FILTER_TOKENS (serializeQuery pq)) as (HF & HT' & HK').
  fold (parseQuery (serializeQuery pq)) in HF, HT', HK'. fold pq' in HF, HT', HK'.
  rewrite Hcollect in HF, HT'. cbn [fst snd] in HF, HT'.
  split; [exact HF|].
  destruct (remove_tokens T entries sp Hgood Hb Hsp) as (sp' & Hb' & Hrem).
  fold fs in Hrem. rewrite HS, Hrem in HT'.
  destruct (parseQueryWith_fields FILTER_TOKENS raw) as (_ & HT & HK).
  fold (parseQuery raw) in HT, HK. fold pq in HT, HK. fold T in HT, HK.
  assert (Htidy : trim (collapseSpaces (T ++ sp')) = T).
  { pose proof (normalize_tidy
      (fold_left (fun r tok => removeFirst tok r)
         (snd (fold_left (collect FILTER_TOKENS) (execAll 0 raw) (∅, []))) raw)) as Hn.
    cbv zeta in Hn. rewrite <- HT in Hn. destruct Hn as [Hc Hse].
    now apply normalize_again. }
  rewrite Htidy in HT'. rewrite HK', HK, HT'. reflexivity.
Qed.

(** The query [from:@alice project] goes round. *)
Lemma parseQuery_roundtrip_witness :
  let pq := parseQuery "from:@alice project" in
  let pq' := parseQuery (serializeQuery pq) in
  filters pq' = filters pq /\ keywords pq' = keywords pq.
Proof.
  apply (parseQuery_roundtrip "from:@alice project").
  - vm_compute. reflexivity.
  - vm_compute. reflexivity.
Defined.

(** C2 as stated fails: of two leading markers the first parse strips one
    and the second parse the other. *)
Lemma parseQuery_roundtrip_loses_marker :
  let pq := parseQuery "from:@@alice" in
  let pq' := parseQuery (serializeQuery pq) in
  filters pq !! "from" = Some "@alice"
  /\ filters pq' !! "from" = Some "alice"
  /\ filters pq' <> filters pq.
Proof.
  cbv zeta. split; [vm_compute; reflexivity|]. split; [vm_compute; reflexivity|].
  intros H. apply (f_equal (fun m : gmap string string => m !! "from")) in H.
  vm_compute in H. discriminate.
Qed.

(** The keywords can change as well: the removal takes the first occurrence
    of the token text, here inside an unrecognised word. *)
Example parseQuery_roundtrip_loses_keyword :
  let pq := parseQuery "xfrom:a from:a" in
  keywords pq = ["x"; "from:a"]
  /\ keywords (parseQuery (serializeQuery pq)) = ["x"].
Proof. cbv zeta. split; vm_compute; reflexivity. Qed.

(** The example of the specification. *)
Example parseQuery_from_alice :
  let pq := parseQuery "from:@alice project" in
  keywords pq = ["project"]
  /\ filters pq = {[ "from" := "alice" ]}
  /\ isMultiWord pq = false
  /\ serializeQuery pq = "project from:alice".
Proof.
  cbv zeta. repeat split; vm_compute; reflexivity.
Qed.

End RoundTrip.

(* ===================================================================== *)
(** * Further properties of the engine *)
(* ===================================================================== *)

(** ** scorer.js: the best match *)

Section BestMatch.
Import Scorer Spec.

Lemma better_firstBest {A} (g : A -> option ScoreMatch) (pre : list A) (x : A)
  (best : option ScoreMatch) :
  firstBest g pre best -> firstBest g (pre ++ [x]) (better best (g x)).
Proof.
  intros Hbest. destruct (g x) as [m'|] eqn:Ex; destruct best as [b|]; cbn [better].
  - destruct Hbest as (l1 & y & l2 & -> & Ey & Hlt & Hle).
    destruct (m_score b <? m_score m') eqn:Elt.
    + apply Z.ltb_lt in Elt. exists (l1 ++ y :: l2)%list, x, []. repeat split; [exact Ex| |].
      * intros z mz Hz Ez. apply elem_of_app in Hz as [Hz|Hz].
        -- specialize (Hlt z mz Hz Ez). lia.
        -- apply elem_of_cons in Hz as [->|Hz].
           ++ rewrite Ey in Ez. injection Ez as <-. exact Elt.
           ++ specialize (Hle z mz Hz Ez). lia.
      * intros z mz Hz. inversion Hz.
    + apply Z.ltb_ge in Elt. exists l1, y, (l2 ++ [x])%list. repeat split.
      * now rewrite <- app_assoc.
      * exact Ey.
      * exact Hlt.
      * intros z mz Hz Ez. apply elem_of_app in Hz as [Hz|Hz]; [now apply (Hle z)|].
        apply list_elem_of_singleton in Hz as ->. rewrite Ex in Ez. now injection Ez as <-.
  - exists pre, x, []. repeat split; [exact Ex| |].
    + intros z mz Hz Ez. cbn in Hbest. rewrite (Hbest z Hz) in Ez. discriminate.
    + intros z mz Hz. inversion Hz.
  - destruct Hbest as (l1 & y & l2 & -> & Ey & Hlt & Hle).
    exists l1, y, (l2 ++ [x])%list. repeat split.
    + now rewrite <- app_assoc.
    + exact Ey.
    + exact Hlt.
    + intros z mz Hz Ez. apply elem_of_app in Hz as [Hz|Hz]; [now apply (Hle z)|].
      apply list_elem_of_singleton in Hz as ->. rewrite Ex in Ez. discriminate.
  - intros z Hz. apply elem_of_app in Hz as [Hz|Hz]; [now apply Hbest|].
    now apply list_elem_of_singleton in Hz as ->.
Qed.

Lemma fold_better_firstBest {A} (g : A -> option ScoreMatch) (xs pre : list A)
  (best : option ScoreMatch) :
  firstBest g pre best ->
  firstBest g (pre ++ xs) (fold_left (fun b x => better b (g x)) xs best).
Proof.
  revert pre best. induction xs as [|x xs IH]; intros pre best Hbest; cbn [fold_left].
  - now rewrite app_nil_r.
  - replace (pre ++ x :: xs)%list with ((pre ++ [x]) ++ xs)%list
      by now rewrite <- app_assoc.
    apply IH. now apply better_firstBest.
Qed.

Lemma bestFieldMatch_firstBest kw fields scores :
  firstBest (fun f => detectMatch kw f scores) fields (bestFieldMatch kw fields scores).
Proof.
  unfold bestFieldMatch.
  apply (fold_better_firstBest (fun f => detectMatch kw f scores) fields [] None).
  intros x Hx. inversion Hx.
Qed.

(** What [firstBest] says without the positions. *)
Lemma firstBest_max {A} (g : A -> option ScoreMatch) (xs : list A) r :
  firstBest g xs r ->
  match r with
  | Some m =>
      (exists x, x ∈ xs /\ g x = Some m)
      /\ forall x m', x ∈ xs -> g x = Some m' -> m_score m' <= m_score m
  | None => forall x, x ∈ xs -> g x = None
  end.
Proof.
  destruct r as [m|]; [|trivial].
  intros (l1 & x & l2 & -> & Ex & Hlt & Hle). split.
  - exists x. split; [|exact Ex]. apply elem_of_app. right. apply elem_of_cons. now left.
  - intros y m' Hy Ey. apply elem_of_app in Hy as [Hy|Hy].
    + specialize (Hlt y m' Hy Ey). lia.
    + apply elem_of_cons in Hy as [->|Hy].
      * rewrite Ex in Ey. injection Ey as <-. lia.
      * now apply (Hle y).
Qed.

Lemma keywords_bestPair keywords fields scores :
  bestPair keywords fields scores
    (fold_left (fun best kw => better best (bestFieldMatch kw fields scores))
       keywords None).
Proof.
  pose proof (fold_better_firstBest (fun kw => bestFieldMatch kw fields scores)
                keywords [] None) as H.
  cbn [app] in H. specialize (H ltac:(intros x Hx; inversion Hx)).
  apply firstBest_max in H.
  destruct (fold_left _ keywords None) as [m|]; cbn [bestPair].
  - destruct H as ((kw & Hkw & Ekw) & Hmax). split.
    + pose proof (firstBest_max _ _ _ (bestFieldMatch_firstBest kw fields scores)) as Hf.
      rewrite Ekw in Hf. destruct Hf as ((f & Hf & Ef) & _). now exists kw, f.
    + intros t f m' Ht Hf Em'.
      pose proof (firstBest_max _ _ _ (bestFieldMatch_firstBest t fields scores)) as Hb.
      destruct (bestFieldMatch t fields scores) as [b|] eqn:Eb.
      * destruct Hb as (_ & Hb). specialize (Hb f m' Hf Em').
        specialize (Hmax t b Ht Eb). lia.
      * rewrite (Hb f Hf) in Em'. discriminate.
  - intros t f Ht Hf.
    pose proof (firstBest_max _ _ _ (bestFieldMatch_firstBest t fields scores)) as Hb.
    rewrite (H t Ht) in Hb. now apply Hb.
Qed.

Lemma phrase_bestPair phrase fields scores :
  bestPair [phrase] fields scores (bestFieldMatch phrase fields scores).
Proof.
  pose proof (firstBest_max _ _ _ (bestFieldMatch_firstBest phrase fields scores)) as Hb.
  destruct (bestFieldMatch phrase fields scores) as [m|]; cbn [bestPair].
  - destruct Hb as ((f & Hf & Ef) & Hmax). split.
    + exists phrase, f. repeat split; [|assumption..]. apply elem_of_cons. now left.
    + intros t f' m' Ht Hf' Em'. apply list_elem_of_singleton in Ht as ->.
      now apply (Hmax f').
  - intros t f Ht Hf. apply list_elem_of_singleton in Ht as ->. now apply Hb.
Qed.

Lemma scoreQuery_bestPair keywords phrase fields scores :
  bestPair (searchTerms keywords phrase) fields scores
    (scoreQuery keywords phrase fields scores).
Proof.
  unfold scoreQuery, searchTerms.
  pose proof (keywords_bestPair keywords fields scores) as Hk.
  pose proof (phrase_bestPair phrase fields scores) as Hp.
  destruct (1 <? length keywords)%nat.
  - destruct (bestFieldMatch phrase fields scores) as [a|];
      destruct (fold_left _ keywords None) as [b|]; cbn [bestPair] in *.
    + destruct Hk as ((tk & fk & Htk & Hfk & Ek) & Hkmax).
      destruct Hp as ((tp & fp & Htp & Hfp & Ep) & Hpmax).
      destruct (m_score a <? m_score b) eqn:Elt;
        [apply Z.ltb_lt in Elt | apply Z.ltb_ge in Elt]; split.
      * exists tk, fk. repeat split; [|assumption..]. apply elem_of_app. now left.
      * intros t f m' Ht Hf Em'. apply elem_of_app in Ht as [Ht|Ht].
        -- now apply (Hkmax t f).
        -- specialize (Hpmax t f m' Ht Hf Em'). lia.
      * exists tp, fp. repeat split; [|assumption..]. apply elem_of_app. now right.
      * intros t f m' Ht Hf Em'. apply elem_of_app in Ht as [Ht|Ht].
        -- specialize (Hkmax t f m' Ht Hf Em'). lia.
        -- now apply (Hpmax t f).
    + destruct Hp as ((tp & fp & Htp & Hfp & Ep) & Hpmax). split.
      * exists tp, fp. repeat split; [|assumption..]. apply elem_of_app. now right.
      * intros t f m' Ht Hf Em'. apply elem_of_app in Ht as [Ht|Ht].
        -- rewrite (Hk t f Ht Hf) in Em'. discriminate.
        -- now apply (Hpmax t f).
    + destruct Hk as ((tk & fk & Htk & Hfk & Ek) & Hkmax). split.
      * exists tk, fk. repeat split; [|assumption..]. apply elem_of_app. now left.
      * intros t f m' Ht Hf Em'. apply elem_of_app in Ht as [Ht|Ht].
        -- now apply (Hkmax t f).
        -- rewrite (Hp t f Ht Hf) in Em'. discriminate.
    + intros t f Ht Hf. apply elem_of_app in Ht as [Ht|Ht]; [now apply Hk|now apply Hp].
  - rewrite app_nil_r. destruct (fold_left _ keywords None) as [b|]; exact Hk.
Qed.

(** With the default scores a match has one of four shapes, and only an
    exact match reaches 1.5. *)
Lemma detectMatch_default kw field m :
  detectMatch kw field DEFAULT_SCORER_CONFIG = Some m ->
  m_score m <= 1500000
  /\ (m_score m = 1500000 -> m = {| m_type := exact; m_score := 1500000 |}).
Proof.
  unfold detectMatch. intros H.
  repeat match type of H with
         | (if ?c then _ else _) = _ => destruct c
         end; try discriminate; injection H as <-; cbn; split; (lia || (intros; (reflexivity || lia))).
Qed.

Lemma trim_lower_nonempty (s : string) : trim (toLowerCase s) <> "" -> s <> "".
Proof. intros H ->. now apply H. Qed.

Lemma detectMatch_equal kw field scores :
  trim (toLowerCase kw) <> "" ->
  trim (toLowerCase field) = trim (toLowerCase kw) ->
  detectMatch kw field scores = Some {| m_type := exact; m_score := sc_exact scores |}.
Proof.
  intros Hk Hf. unfold detectMatch.
  assert (kw <> "") as Hkw by now apply trim_lower_nonempty.
  assert (field <> "") as Hfield by (apply trim_lower_nonempty; now rewrite Hf).
  apply nonempty_true in Hkw, Hfield. rewrite Hkw, Hfield. cbn [negb orb].
  rewrite Hf. apply nonempty_true in Hk. rewrite Hk. cbn [negb orb].
  now rewrite String.eqb_refl.
Qed.

End BestMatch.

Section ScorerTheorems.
Import Scorer Spec.

(** X1.  [bestFieldMatch] returns the match of one of the fields, the first
    among the highest-scoring ones: no earlier field scores as high and no
    later field scores higher.  It returns nothing exactly when the keyword
    matches no field. *)
Theorem bestFieldMatch_first_maximum (kw : string) (fields : list string)
  (scores : MatchScores) :
  match bestFieldMatch kw fields scores with
  | Some m =>
      exists before f after,
        fields = (before ++ f :: after)%list
        /\ detectMatch kw f scores = Some m
        /\ (forall f' m', f' ∈ before -> detectMatch kw f' scores = Some m' ->
                          m_score m' < m_score m)
        /\ (forall f' m', f' ∈ after -> detectMatch kw f' scores = Some m' ->
                          m_score m' <= m_score m)
  | None => forall f, f ∈ fields -> detectMatch kw f scores = None
  end.
Proof. exact (bestFieldMatch_firstBest kw fields scores). Qed.

Lemma bestFieldMatch_first_maximum_witness :
  exists before f after,
    ["Bob"; "Alice"; "al"; "AL"] = (before ++ f :: after)%list
    /\ detectMatch "al" f DEFAULT_SCORER_CONFIG
       = Some {| m_type := exact; m_score := 1500000 |}
    /\ (forall f' m', f' ∈ before ->
          detectMatch "al" f' DEFAULT_SCORER_CONFIG = Some m' -> m_score m' < 1500000)
    /\ (forall f' m', f' ∈ after ->
          detectMatch "al" f' DEFAULT_SCORER_CONFIG = Some m' -> m_score m' <= 1500000).
Proof.
  pose proof (bestFieldMatch_first_maximum "al" ["Bob"; "Alice"; "al"; "AL"]
                DEFAULT_SCORER_CONFIG) as H.
  assert (bestFieldMatch "al" ["Bob"; "Alice"; "al"; "AL"] DEFAULT_SCORER_CONFIG
          = Some {| m_type := exact; m_score := 1500000 |}) as E
    by (vm_compute; reflexivity).
  rewrite E in H. exact H.
Defined.

(** X2.  [scoreQuery] returns the highest-scoring match over all pairs of a
    search term and a field, where the terms are the keywords and, for two
    keywords or more, the phrase.  It returns nothing exactly when no pair
    matches; in particular without keywords nothing matches, whatever the
    phrase. *)
Theorem scoreQuery_best_pair (keywords : list string) (phrase : string)
  (fields : list string) (scores : MatchScores) :
  let terms := searchTerms keywords phrase in
  match scoreQuery keywords phrase fields scores with
  | Some m =>
      (exists t f, t ∈ terms /\ f ∈ fields /\ detectMatch t f scores = Some m)
      /\ forall t f m', t ∈ terms -> f ∈ fields ->
           detectMatch t f scores = Some m' -> m_score m' <= m_score m
  | None => forall t f, t ∈ terms -> f ∈ fields -> detectMatch t f scores = None
  end.
Proof. exact (scoreQuery_bestPair keywords phrase fields scores). Qed.

Lemma scoreQuery_best_pair_witness :
  exists m,
    scoreQuery ["ali"; "mar"] "ali mar" ["Bob Ali Mar"; "Marc"] DEFAULT_SCORER_CONFIG
    = Some m
    /\ m = {| m_type := startsWithT; m_score := 1000000 |}
    /\ (forall t f m', t ∈ ["ali"; "mar"; "ali mar"] -> f ∈ ["Bob Ali Mar"; "Marc"] ->
          detectMatch t f DEFAULT_SCORER_CONFIG = Some m' -> m_score m' <= m_score m).
Proof.
  pose proof (scoreQuery_best_pair ["ali"; "mar"] "ali mar" ["Bob Ali Mar"; "Marc"]
                DEFAULT_SCORER_CONFIG) as H.
  assert (scoreQuery ["ali"; "mar"] "ali mar" ["Bob Ali Mar"; "Marc"] DEFAULT_SCORER_CONFIG
          = Some {| m_type := startsWithT; m_score := 1000000 |}) as E
    by (vm_compute; reflexivity).
  cbv zeta in H. rewrite E in H. destruct H as (_ & H).
  eexists. split; [exact E|]. split; [reflexivity|exact H].
Defined.

(** X3.  With the default scores an exact match cannot be outranked: when
    some field equals some keyword, case and surrounding white space apart,
    [scoreQuery] reports an exact match with score 1.5, whatever the other
    keywords, the phrase and the other fields are. *)
Theorem scoreQuery_exact_wins (keywords : list string) (phrase : string)
  (fields : list string) (kw f : string) :
  kw ∈ keywords -> f ∈ fields ->
  trim (toLowerCase kw) <> "" ->
  trim (toLowerCase f) = trim (toLowerCase kw) ->
  scoreQuery keywords phrase fields DEFAULT_SCORER_CONFIG
  = Some {| m_type := exact; m_score := 1500000 |}.
Proof.
  intros Hkw Hf Hne Heq.
  pose proof (detectMatch_equal kw f DEFAULT_SCORER_CONFIG Hne Heq) as Hex.
  pose proof (scoreQuery_bestPair keywords phrase fields DEFAULT_SCORER_CONFIG) as Hbest.
  assert (kw ∈ searchTerms keywords phrase) as Hterm
    by (unfold searchTerms; apply elem_of_app; now left).
  destruct (scoreQuery keywords phrase fields DEFAULT_SCORER_CONFIG) as [m|];
    cbn [bestPair] in Hbest.
  - destruct Hbest as ((t & f' & _ & _ & Em) & Hmax).
    specialize (Hmax kw f _ Hterm Hf Hex). cbn in Hmax.
    destruct (detectMatch_default t f' m Em) as (Hle & Hexact).
    f_equal. apply Hexact. lia.
  - rewrite (Hbest kw f Hterm Hf) in Hex. discriminate.
Qed.

Lemma scoreQuery_exact_wins_witness :
  scoreQuery ["team"; "alice"] "team alice" ["Team Alice Martin"; " ALICE "]
    DEFAULT_SCORER_CONFIG
  = Some {| m_type := exact; m_score := 1500000 |}.
Proof.
  apply (scoreQuery_exact_wins ["team"; "alice"] "team alice"
           ["Team Alice Martin"; " ALICE "] "alice" " ALICE ").
  - apply elem_of_cons. right. apply elem_of_cons. now left.
  - apply elem_of_cons. right. apply elem_of_cons. now left.
  - vm_compute. discriminate.
  - vm_compute. reflexivity.
Defined.

Lemma lookup_assign_all k (kvs props : list (string * jsval)) :
  k ∉ map fst kvs ->
  Js.lookup k (fold_left (fun ps kv => Js.assign (fst kv) (snd kv) ps) kvs props)
  = Js.lookup k props.
Proof.
  revert props. induction kvs as [|[k' v'] kvs IH]; intros props Hk; cbn [fold_left].
  - reflexivity.
  - cbn [map fst] in Hk. apply not_elem_of_cons in Hk as [Hne Hk].
    rewrite IH by exact Hk. cbn [fst snd]. now apply lookup_assign_ne.
Qed.

Lemma field_extend_other props kvs k :
  k ∉ map fst kvs -> Js.field (Js.extend (JObj props) kvs) k = Js.lookup k props.
Proof. intros Hk. unfold Js.extend, Js.field. cbn [Js.spread]. now apply lookup_assign_all. Qed.

Lemma mul_toFixed6_one (s : Z) : mul_toFixed6 s micro = s.
Proof.
  unfold mul_toFixed6, micro. change (1000000 / 2) with 500000.
  destruct (s * 1000000 <? 0) eqn:E.
  - replace (- (s * 1000000) + 500000) with (500000 + (- s) * 1000000) by lia.
    rewrite Z.div_add by lia. change (500000 / 1000000) with 0. lia.
  - replace (s * 1000000 + 500000) with (500000 + s * 1000000) by lia.
    rewrite Z.div_add by lia. change (500000 / 1000000) with 0. lia.
Qed.

Lemma scoreAll_elem_of items keywords phrase getFields getWeight cfg r :
  r ∈ scoreAll items keywords phrase getFields getWeight cfg <->
  exists item m,
    item ∈ items
    /\ scoreQuery keywords phrase (getFields item) cfg = Some m
    /\ r = Js.extend item (scoreProps m (getWeight item)).
Proof.
  induction items as [|item items IH]; cbn [scoreAll].
  - split; [intros H; inversion H|intros (i & m & H & _); inversion H].
  - unfold computeScore.
    destruct (scoreQuery keywords phrase (getFields item) cfg) as [m|] eqn:Em.
    + rewrite elem_of_cons, IH. split.
      * intros [->|(i & m' & Hi & Em' & ->)].
        -- exists item, m. repeat split; [apply elem_of_cons; now left|exact Em].
        -- exists i, m'. repeat split; [apply elem_of_cons; now right|exact Em'].
      * intros (i & m' & Hi & Em' & ->). apply elem_of_cons in Hi as [->|Hi].
        -- left. rewrite Em in Em'. now injection Em' as <-.
        -- right. now exists i, m'.
    + rewrite IH. split.
      * intros (i & m' & Hi & Em' & ->). exists i, m'.
        repeat split; [apply elem_of_cons; now right|exact Em'].
      * intros (i & m' & Hi & Em' & ->). apply elem_of_cons in Hi as [->|Hi].
        -- rewrite Em in Em'. discriminate.
        -- now exists i, m'.
Qed.

Lemma scoreAll_length items keywords phrase getFields getWeight cfg :
  (length (scoreAll items keywords phrase getFields getWeight cfg) <= length items)%nat.
Proof.
  induction items as [|item items IH]; cbn [scoreAll length]; [lia|].
  destruct (computeScore _ _ _ _ _ _); cbn [length]; lia.
Qed.

(** X4.  [rankResults] keeps exactly the items that [scoreQuery] matches:
    its output is, up to the order, the matching items one for one, each
    with a numeric [_score], [_matchType] (the kind of its match) and
    [_matchScore] (the score of its match) written over it; the items
    without a match are dropped.  On a plain object every other property,
    such as [id] and [_module], is left as it was. *)
Theorem rankResults_keeps_matching_items (items : list jsval)
  (keywords : list string) (phrase : string) (getFields : jsval -> list string)
  (getWeight : jsval -> option Z) (cfg : MatchScores) :
  let ranked := rankResults items keywords phrase getFields getWeight cfg in
  (exists scoredItems,
      Forall2 (rankedAs keywords phrase getFields cfg)
        (List.filter (matching keywords phrase getFields cfg) items) scoredItems
      /\ ranked ≡ₚ scoredItems)
  /\ (forall r, r ∈ ranked ->
        exists item, item ∈ items /\ rankedAs keywords phrase getFields cfg item r)
  /\ (forall item, item ∈ items -> matching keywords phrase getFields cfg item = true ->
        exists r, r ∈ ranked /\ rankedAs keywords phrase getFields cfg item r)
  /\ (forall props m score k,
        k <> "_score" -> k <> "_matchType" -> k <> "_matchScore" ->
        Js.field (Js.extend (JObj props) (rankProps m score)) k = Js.field (JObj props) k)
  /\ length ranked = length (List.filter (matching keywords phrase getFields cfg) items)
  /\ (length ranked <= length items)%nat.
Proof.
  intros ranked.
  split; [apply rankResults_rankedAs|].
  split.
  { intros r Hr. apply sort_elem_of in Hr.
    apply scoreAll_elem_of in Hr as (item & m & Hi & Em & ->).
    exists item. split; [exact Hi|]. now exists m, (mul_toFixed6 (m_score m) (weight_or_1 (getWeight item))). }
  split.
  { intros item Hi Hm. unfold matching in Hm.
    destruct (scoreQuery keywords phrase (getFields item) cfg) as [m|] eqn:Em; [|discriminate].
    exists (Js.extend item (scoreProps m (getWeight item))). split.
    - apply sort_elem_of, scoreAll_elem_of. now exists item, m.
    - exists m, (mul_toFixed6 (m_score m) (weight_or_1 (getWeight item))).
      split; [exact Em|reflexivity]. }
  split.
  { intros props m score k H1 H2 H3. apply field_extend_other. cbn.
    intros Hk. repeat (apply elem_of_cons in Hk as [Hk|Hk]; [congruence|]). inversion Hk. }
  split.
  { unfold ranked, rankResults. rewrite sort_length. symmetry.
    eapply Forall2_length, scoreAll_rankedAs. }
  unfold ranked, rankResults. rewrite sort_length. apply scoreAll_length.
Qed.

(** Bob does not match [al], Alma does: one ranked record, Alma's, with its
    [id] as it was. *)
Lemma rankResults_keeps_matching_items_witness :
  exists r,
    rankResults [JObj [("id", JStr "3"); ("full_name", JStr "Bob")];
                 JObj [("id", JStr "7"); ("_module", JStr "users"); ("full_name", JStr "Alma")]]
      ["al"] "al" (fun i => [Js.String_ (Js.field i "full_name")]) (fun _ => Some 1500000)
      DEFAULT_SCORER_CONFIG = [r]
    /\ rankedAs ["al"] "al" (fun i => [Js.String_ (Js.field i "full_name")])
         DEFAULT_SCORER_CONFIG
         (JObj [("id", JStr "7"); ("_module", JStr "users"); ("full_name", JStr "Alma")]) r
    /\ Js.field r "id" = JStr "7"
    /\ Js.field r "_matchType" = JStr "startsWith".
Proof.
  pose proof (rankResults_keeps_matching_items
                [JObj [("id", JStr "3"); ("full_name", JStr "Bob")];
                 JObj [("id", JStr "7"); ("_module", JStr "users"); ("full_name", JStr "Alma")]]
                ["al"] "al"
                (fun i => [Js.String_ (Js.field i "full_name")]) (fun _ => Some 1500000)
                DEFAULT_SCORER_CONFIG) as ((scoredItems & HF & Hperm) & _ & _ & Hkeep & _).
  assert (List.filter (matching ["al"] "al" (fun i => [Js.String_ (Js.field i "full_name")])
                         DEFAULT_SCORER_CONFIG)
            [JObj [("id", JStr "3"); ("full_name", JStr "Bob")];
             JObj [("id", JStr "7"); ("_module", JStr "users"); ("full_name", JStr "Alma")]]
          = [JObj [("id", JStr "7"); ("_module", JStr "users"); ("full_name", JStr "Alma")]])
    as Ef by (vm_compute; reflexivity).
  rewrite Ef in HF.
  inversion HF as [|item r l1 l2 Hr Hrest]; subst. inversion Hrest; subst.
  apply Permutation_singleton_r in Hperm.
  exists r. split; [exact Hperm|]. split; [exact Hr|].
  destruct Hr as (m & score & Em & ->).
  split; [apply Hkeep; discriminate|].
  assert (m = {| m_type := startsWithT; m_score := 1000000 |}) as ->
    by (vm_compute in Em; now injection Em as <-).
  reflexivity.
Defined.

(** X5.  A module weight that is missing or zero counts as 1
    ([rawModuleWeight || 1]): the final [_score] of such an item is its
    match score. *)
Theorem computeScore_unweighted (item : jsval) (keywords : list string)
  (phrase : string) (fields : list string) (w : option Z) (cfg : MatchScores)
  (r : jsval) :
  w = None \/ w = Some 0 ->
  computeScore item keywords phrase fields w cfg = Some r ->
  exists m,
    scoreQuery keywords phrase fields cfg = Some m
    /\ Js.field r "_score" = JNum (m_score m)
    /\ Js.field r "_matchScore" = JNum (m_score m).
Proof.
  intros Hw Hr. unfold computeScore in Hr.
  destruct (scoreQuery keywords phrase fields cfg) as [m|]; [|discriminate].
  injection Hr as <-. exists m. split; [reflexivity|].
  assert (weight_or_1 w = micro) as -> by (destruct Hw as [->| ->]; reflexivity).
  rewrite mul_toFixed6_one. unfold Js.extend, Js.field. cbn [fold_left fst snd]. split.
  - rewrite lookup_assign_ne by discriminate. rewrite lookup_assign_ne by discriminate.
    apply lookup_assign_eq.
  - apply lookup_assign_eq.
Qed.

Lemma computeScore_unweighted_witness :
  exists m,
    scoreQuery ["al"] "al" ["Alma"] DEFAULT_SCORER_CONFIG = Some m
    /\ Js.field (Js.extend (JObj [("id", JStr "7")]) (scoreProps m (Some 0))) "_score"
       = JNum (m_score m)
    /\ Js.field (Js.extend (JObj [("id", JStr "7")]) (scoreProps m (Some 0))) "_matchScore"
       = JNum (m_score m).
Proof.
  destruct (computeScore_unweighted (JObj [("id", JStr "7")]) ["al"] "al" ["Alma"]
              (Some 0) DEFAULT_SCORER_CONFIG
              (Js.extend (JObj [("id", JStr "7")])
                 (scoreProps {| m_type := startsWithT; m_score := 1000000 |} (Some 0))))
    as (m & Em & H1 & H2).
  - now right.
  - vm_compute. reflexivity.
  - exists m. split; [exact Em|].
    assert (m = {| m_type := startsWithT; m_score := 1000000 |}) as ->
      by (vm_compute in Em; now injection Em as <-).
    split; vm_compute; reflexivity.
Defined.

End ScorerTheorems.

(** ** queryParser.js: what a parse holds *)

Section ParseShape.
Import QueryParser Spec.

Lemma parseQueryWith_flags (V : list string) (text : string) :
  let pq := parseQueryWith V text in
  isEmpty pq = (length (keywords pq) =? 0)%nat && (size (filters pq) =? 0)%nat
  /\ isMultiWord pq = (1 <? length (keywords pq))%nat
  /\ phrase pq = trimmed pq
  /\ raw pq = text.
Proof.
  intros pq. subst pq. unfold parseQueryWith.
  destruct (fold_left (collect V) (execAll 0 text) (∅, [])) as [F R]. now repeat split.
Qed.

Lemma collect_lookup (V : list string) (k : string) (ms : list (string * string))
  (acc : gmap string string * list string) :
  fst (fold_left (collect V) ms acc) !! k
  = if includesToken V k
    then fold_left
           (fun o m => if String.eqb (toLowerCase (fst m)) k
                       then Some (stripMarker (snd m)) else o)
           ms (fst acc !! k)
    else fst acc !! k.
Proof.
  revert acc. induction ms as [|m ms IH]; intros acc; cbn [fold_left].
  - now destruct (includesToken V k).
  - rewrite IH.
    assert (fst (collect V acc m) !! k
            = if includesToken V k
              then if String.eqb (toLowerCase (fst m)) k
                   then Some (stripMarker (snd m)) else fst acc !! k
              else fst acc !! k) as ->.
    { unfold collect. destruct (String.eqb_spec (toLowerCase (fst m)) k) as [->|Hne].
      - destruct (includesToken V k); [|reflexivity].
        cbn [fst]. now rewrite lookup_insert_eq.
      - destruct (includesToken V (toLowerCase (fst m)));
          [|now destruct (includesToken V k)].
        cbn [fst]. rewrite lookup_insert_ne by exact Hne.
        now destruct (includesToken V k). }
    now destruct (includesToken V k).
Qed.

Lemma filters_shape (V : list string) (text : string) :
  map_Forall (fun k v => includesToken V k = true /\ spaceFree v)
    (filters (parseQueryWith V text)).
Proof.
  destruct (parseQueryWith_fields V text) as (-> & _ & _).
  apply collect_keeps.
  - eapply Forall_impl; [apply execAll_shape|]. intros m (_ & _ & ? & ?). now split.
  - apply map_Forall_empty.
Qed.

Lemma splitFrom_word (s : string) :
  startsWithWord s = true -> splitFrom true s = splitFrom false s.
Proof.
  destruct s as [|c s]; [discriminate|]. cbn [startsWithWord splitFrom].
  intros H. apply negb_true_iff in H. now rewrite H.
Qed.

Lemma join_cons_char (c : ascii) (p : string) (ps : list string) :
  Js.join " " (String c p :: ps) = String c (Js.join " " (p :: ps)).
Proof. destruct ps; reflexivity. Qed.

Lemma splitFrom_tidy (s : string) :
  collapsed false s = true -> endsWithWord s = true ->
  exists p ps,
    splitFrom false s = p :: ps
    /\ spaceFree p
    /\ (startsWithWord s = true -> p <> "")
    /\ Forall isKeyword ps
    /\ Js.join " " (p :: ps) = s.
Proof.
  induction s as [|c s IH]; [discriminate|].
  intros Hc He. cbn [collapsed] in Hc. cbn [splitFrom startsWithWord].
  destruct (is_space c) eqn:Ec.
  - cbn [negb andb] in Hc. apply andb_true_iff in Hc as [Hsp Hc].
    apply Ascii.eqb_eq in Hsp. subst c.
    destruct s as [|d s']; [discriminate|].
    assert (is_space d = false) as Ed.
    { cbn [collapsed] in Hc. destruct (is_space d); [discriminate|reflexivity]. }
    assert (collapsed false (String d s') = true) as Hc'.
    { cbn [collapsed] in Hc |- *. now rewrite Ed in Hc |- *. }
    assert (startsWithWord (String d s') = true) as Hw
      by (cbn [startsWithWord]; now rewrite Ed).
    destruct (IH Hc' He) as (p & ps & Esplit & Hp & Hne & Hps & Hjoin).
    exists "", (p :: ps). rewrite splitFrom_word by exact Hw. rewrite Esplit.
    repeat split.
    + discriminate.
    + constructor; [split; [now apply Hne|exact Hp]|exact Hps].
    + change (Js.join " " ("" :: p :: ps)) with (String " " (Js.join " " (p :: ps))).
      now rewrite Hjoin.
  - destruct s as [|d s'].
    + exists (String c ""), []. cbn [splitFrom]. repeat split.
      * unfold spaceFree. cbn [allb]. unfold non_space. now rewrite Ec.
      * discriminate.
      * constructor.
    + assert (endsWithWord (String d s') = true) as He' by exact He.
      destruct (IH Hc He') as (p & ps & Esplit & Hp & _ & Hps & Hjoin).
      rewrite Esplit. exists (String c p), ps. repeat split.
      * unfold spaceFree in *. cbn [allb]. unfold non_space at 1. now rewrite Ec.
      * discriminate.
      * exact Hps.
      * now rewrite join_cons_char, Hjoin.
Qed.

Lemma keywords_join (V : list string) (text : string) :
  let pq := parseQueryWith V text in
  Js.join " " (keywords pq) = trimmed pq /\ Forall isKeyword (keywords pq).
Proof.
  intros pq. destruct (parseQueryWith_fields V text) as (_ & HT & HK).
  fold pq in HT, HK. rewrite HK.
  pose proof (normalize_tidy
                (fold_left (fun r tok => removeFirst tok r)
                   (snd (fold_left (collect V) (execAll 0 text) (∅, []))) text)) as Hn.
  cbv zeta in Hn. rewrite <- HT in Hn. destruct Hn as [Hc [Hnil|[Hs He]]].
  - rewrite Hnil. cbn. split; [reflexivity|constructor].
  - assert (nonempty (trimmed pq) = true) as ->
      by (destruct (trimmed pq); [discriminate|reflexivity]).
    destruct (splitFrom_tidy (trimmed pq) Hc He) as (p & ps & Esplit & Hp & Hne & Hps & Hjoin).
    unfold splitSpaces. rewrite Esplit. split; [exact Hjoin|].
    constructor; [split; [now apply Hne|exact Hp]|exact Hps].
Qed.

Lemma includes_colon_cons (c : ascii) (s : string) :
  includes ":" (String c s) = false -> includes ":" s = false.
Proof. rewrite includes_cons. intros H. now apply orb_false_iff in H as [_ H]. Qed.

Lemma matchAt_no_colon (s : string) : includes ":" s = false -> matchAt s = None.
Proof.
  intros H. destruct (matchAt s) as [[k v]|] eqn:Em; [|reflexivity].
  apply matchAt_Some in Em as (_ & _ & _ & _ & r & ->).
  assert (includes ":" (k ++ ":" ++ v ++ r) = true) as Hin
    by (apply includes_spec; now exists k, (v ++ r)%string).
  congruence.
Qed.

Lemma execAll_no_colon (n : nat) (s : string) :
  includes ":" s = false -> execAll n s = [].
Proof.
  revert n. induction s as [|c s IH]; intros n H; cbn [execAll]; [reflexivity|].
  pose proof (includes_colon_cons c s H) as H'.
  destruct n as [|n]; [|now apply IH].
  rewrite (matchAt_no_colon _ H). now apply IH.
Qed.

Lemma blank_no_colon (s : string) : blank s -> includes ":" s = false.
Proof.
  unfold blank. induction s as [|c s IH]; intros H; [reflexivity|].
  cbn [allb] in H. apply andb_true_iff in H as [Hc Hs].
  rewrite includes_cons. apply orb_false_iff. split; [|now apply IH].
  cbn [startsWith]. apply andb_false_iff. left.
  apply Ascii.eqb_neq. intros <-. discriminate.
Qed.

Lemma parse_no_colon (V : list string) (text : string) :
  includes ":" text = false ->
  filters (parseQueryWith V text) = ∅
  /\ trimmed (parseQueryWith V text) = trim (collapseSpaces text).
Proof.
  intros H. destruct (parseQueryWith_fields V text) as (-> & -> & _).
  now rewrite (execAll_no_colon 0 text H).
Qed.

Lemma serialize_no_filters (pq : ParsedQuery) :
  filters pq = ∅ -> serializeQuery pq = trimmed pq.
Proof.
  intros H. unfold serializeQuery. rewrite H, map_to_list_empty.
  cbn [Js.sort fold_right map Js.join List.filter nonempty].
  now destruct (trimmed pq).
Qed.

End ParseShape.

Section ParserTheorems.
Import QueryParser Spec.

(** X6.  The filter stored under a key is the value of the last token in
    the text whose key, lower-cased, is that key, with one leading [@] or
    [#] removed; keys outside the vocabulary are never stored.  A stored
    value holds no white space. *)
Theorem parseQuery_filters_last_wins (validTokens : list string) (text k : string) :
  let pq := parseQueryWith validTokens text in
  filters pq !! k
  = (if includesToken validTokens k then lastValue k (execAll 0 text) else None)
  /\ (forall v, filters pq !! k = Some v ->
                includesToken validTokens k = true /\ spaceFree v).
Proof.
  intros pq. split.
  - destruct (parseQueryWith_fields validTokens text) as (HF & _ & _). fold pq in HF.
    rewrite HF, collect_lookup. cbn [fst]. rewrite lookup_empty. reflexivity.
  - intros v Hv. exact (filters_shape validTokens text k v Hv).
Qed.

Lemma parseQuery_filters_last_wins_witness :
  filters (parseQuery "From:@ann report from:#bob type:pdf") !! "from" = Some "bob"
  /\ filters (parseQuery "From:@ann report from:#bob type:pdf") !! "type" = None
  /\ spaceFree "bob".
Proof.
  destruct (parseQuery_filters_last_wins FILTER_TOKENS
              "From:@ann report from:#bob type:pdf" "from") as (Hfrom & Hshape).
  destruct (parseQuery_filters_last_wins FILTER_TOKENS
              "From:@ann report from:#bob type:pdf" "type") as (Htype & _).
  cbv zeta in Hfrom, Htype, Hshape. fold (parseQuery "From:@ann report from:#bob type:pdf") in *.
  assert (filters (parseQuery "From:@ann report from:#bob type:pdf") !! "from" = Some "bob")
    as E by (rewrite Hfrom; vm_compute; reflexivity).
  split; [exact E|]. split; [rewrite Htype; vm_compute; reflexivity|].
  exact (proj2 (Hshape "bob" E)).
Defined.

Lemma keywords_nil (V : list string) (text : string) :
  keywords (parseQueryWith V text) = [] <-> trimmed (parseQueryWith V text) = "".
Proof.
  destruct (keywords_join V text) as (Hjoin & Hkw). cbv zeta in Hjoin, Hkw. split.
  - intros H. now rewrite H in Hjoin.
  - intros H. destruct (parseQueryWith_fields V text) as (_ & _ & HK).
    cbv zeta in HK. rewrite HK, H. reflexivity.
Qed.

(** X7.  After a parse the phrase is the trimmed text, the keywords joined
    by single spaces give the trimmed text back, and every keyword is
    non-empty and free of white space.  The query is empty exactly when no
    text is left and no filter was extracted. *)
Theorem parseQuery_keywords_rebuild_text (validTokens : list string) (text : string) :
  let pq := parseQueryWith validTokens text in
  Js.join " " (keywords pq) = trimmed pq
  /\ phrase pq = trimmed pq
  /\ Forall isKeyword (keywords pq)
  /\ (isEmpty pq = true <-> trimmed pq = "" /\ filters pq = ∅).
Proof.
  intros pq. destruct (keywords_join validTokens text) as (Hjoin & Hkw).
  destruct (parseQueryWith_flags validTokens text) as (He & _ & Hp & _).
  fold pq in Hjoin, Hkw, He, Hp. repeat split; try assumption.
  - rewrite He in H. apply andb_true_iff in H as [H _].
    apply Nat.eqb_eq in H. apply length_zero_iff_nil in H.
    now apply keywords_nil.
  - rewrite He in H. apply andb_true_iff in H as [_ H].
    apply Nat.eqb_eq in H. now apply map_size_empty_iff.
  - intros [HT HF]. rewrite He. apply andb_true_iff. split.
    + apply Nat.eqb_eq. apply keywords_nil in HT. fold pq in HT. now rewrite HT.
    + apply Nat.eqb_eq. now apply map_size_empty_iff.
Qed.

Lemma parseQuery_keywords_rebuild_text_witness :
  Js.join " " (keywords (parseQuery "  weekly   report from:ann  "))
  = trimmed (parseQuery "  weekly   report from:ann  ")
  /\ trimmed (parseQuery "  weekly   report from:ann  ") = "weekly report"
  /\ isEmpty (parseQuery "from:ann") = false.
Proof.
  destruct (parseQuery_keywords_rebuild_text FILTER_TOKENS "  weekly   report from:ann  ")
    as (Hjoin & _ & _ & _).
  destruct (parseQuery_keywords_rebuild_text FILTER_TOKENS "from:ann")
    as (_ & _ & _ & Hempty).
  split; [exact Hjoin|]. split; [vm_compute; reflexivity|].
  destruct (isEmpty (parseQueryWith FILTER_TOKENS "from:ann")) eqn:E; [|reflexivity].
  exfalso. destruct (proj1 Hempty eq_refl) as [_ HF].
  assert (filters (parseQueryWith FILTER_TOKENS "from:ann") !! "from" = Some "ann") as Hl
    by (vm_compute; reflexivity).
  rewrite HF in Hl. rewrite lookup_empty in Hl. discriminate.
Defined.

(** X8.  A text without a colon has no filter token: the parse extracts no
    filter, the trimmed text is the input with its white-space runs
    collapsed and its ends trimmed, the serialized query is that text, and
    a remote fetch is needed exactly when the text has at least [minLen]
    characters. *)
Theorem parseQuery_plain_text (text : string) :
  includes ":" text = false ->
  let pq := parseQuery text in
  filters pq = ∅
  /\ trimmed pq = trim (collapseSpaces text)
  /\ serializeQuery pq = trim (collapseSpaces text)
  /\ (forall minLen,
        needsServerFetch pq minLen
        = (minLen <=? String.length (trim (collapseSpaces text)))%nat).
Proof.
  intros H pq. destruct (parse_no_colon FILTER_TOKENS text H) as (HF & HT).
  fold (parseQuery text) in HF, HT. fold pq in HF, HT. repeat split.
  - exact HF.
  - exact HT.
  - rewrite <- HT. now apply serialize_no_filters.
  - intros minLen. unfold needsServerFetch. rewrite HF, HT, map_size_empty.
    cbn. now rewrite orb_false_r.
Qed.

Lemma parseQuery_plain_text_witness :
  serializeQuery (parseQuery " Alice   Martin ") = "Alice Martin"
  /\ needsServerFetch (parseQuery " Alice   Martin ") 3 = true.
Proof.
  destruct (parseQuery_plain_text " Alice   Martin " eq_refl) as (_ & _ & HS & HN).
  split; [rewrite HS; vm_compute; reflexivity|].
  rewrite HN. vm_compute. reflexivity.
Defined.

(** X9.  A text of white space only, the empty text included, parses to the
    empty query: no keywords, no filters, an empty trimmed text, and no
    remote fetch for any positive minimum length. *)
Theorem parseQuery_blank (text : string) :
  blank text ->
  let pq := parseQuery text in
  isEmpty pq = true
  /\ keywords pq = []
  /\ trimmed pq = ""
  /\ filters pq = ∅
  /\ (forall minLen, (0 < minLen)%nat -> needsServerFetch pq minLen = false).
Proof.
  intros Hb pq.
  destruct (parse_no_colon FILTER_TOKENS text (blank_no_colon text Hb)) as (HF & HT).
  fold (parseQuery text) in HF, HT. fold pq in HF, HT.
  assert (trimmed pq = "") as HT'.
  { rewrite HT. unfold collapseSpaces. rewrite (collapseFrom_blank false text Hb).
    now destruct (nonempty text). }
  assert (keywords pq = []) as HK by now apply keywords_nil.
  destruct (parseQueryWith_flags FILTER_TOKENS text) as (He & _).
  fold (parseQuery text) in He. fold pq in He.
  repeat split; try assumption.
  - rewrite He, HK, HF, map_size_empty. reflexivity.
  - intros minLen Hpos. unfold needsServerFetch. rewrite HT', HF, map_size_empty.
    cbn [String.length]. rewrite orb_false_r. apply Nat.leb_gt. exact Hpos.
Qed.

Lemma parseQuery_blank_witness :
  isEmpty (parseQuery "   ") = true /\ needsServerFetch (parseQuery "   ") 1 = false.
Proof.
  destruct (parseQuery_blank "   " eq_refl) as (He & _ & _ & _ & Hn).
  split; [exact He|]. apply Hn. lia.
Defined.

(** Parsing the serialized query gives the filters and the trimmed text of
    the first parse, under the conditions of the round trip. *)
Lemma reparse_fields (text : string) :
  let pq := parseQuery text in
  cleanValues pq = true ->
  tokenFree pq = true ->
  let pq' := parseQuery (serializeQuery pq) in
  filters pq' = filters pq /\ trimmed pq' = trimmed pq.
Proof.
  intros pq Hclean Hfree pq'.
  pose proof (entries_good text Hclean Hfree) as Hgood. fold pq in Hgood.
  set (T := trimmed pq) in *.
  set (entries := Js.sort (fun x y => localeCompare (fst x) (fst y))
                    (map_to_list (filters pq))) in *.
  set (fs := Js.join " " (map tokenText entries)).
  assert (HS : serializeQuery pq = Js.join " " (List.filter nonempty [T; fs])) by reflexivity.
  destruct (serialize_shape T entries Hgood) as (sp & Hshape & Hb & Hsp & Hcase).
  fold fs in Hshape. rewrite Hshape in HS.
  assert (Hscan : execAll 0 (serializeQuery pq) = (execAll 0 T ++ entries)%list).
  { rewrite HS. destruct Hcase as [->|[-> [HT|He]]].
    - change (T ++ " " ++ fs)%string with (T ++ String " " fs)%string.
      rewrite execAll_cut; [|reflexivity|lia]. unfold fs.
      now rewrite (scan_tokens T entries Hgood).
    - rewrite HT. change ("" ++ "" ++ fs)%string with fs. unfold fs.
      rewrite (scan_tokens T entries Hgood). reflexivity.
    - unfold fs. rewrite He. cbn [map Js.join String.append]. rewrite !append_nil_r.
      now rewrite app_nil_r. }
  assert (Hcollect : fold_left (collect FILTER_TOKENS) (execAll 0 (serializeQuery pq)) (∅, [])
                     = (filters pq, map tokenText entries)).
  { rewrite Hscan, fold_left_app.
    rewrite (collect_fold_invalid FILTER_TOKENS (execAll 0 T)).
    2:{ unfold tokenFree in Hfree. apply andb_true_iff in Hfree as [Hfree _]. exact Hfree. }
    rewrite collect_fold_valid.
    2:{ eapply Forall_impl; [exact Hgood|]. intros kv Hkv.
        destruct (goodEntry_token T kv Hkv) as (_ & _ & Hl & _ & _).
        destruct Hkv as (Hk & _ & _ & Hv & _). now repeat split. }
    cbn [app]. f_equal. rewrite fold_insert_list_to_map.
    transitivity (list_to_map (map_to_list (filters pq)) : gmap string string);
      [|apply list_to_map_to_list].
    assert (Hperm : rev entries ≡ₚ map_to_list (filters pq)).
    { rewrite <- Permutation_rev. apply sort_perm. }
    apply list_to_map_proper; [|exact Hperm].
    rewrite Hperm. apply NoDup_fst_map_to_list. }
  destruct (parseQueryWith_fields FILTER_TOKENS (serializeQuery pq)) as (HF & HT' & _).
  fold (parseQuery (serializeQuery pq)) in HF, HT'. fold pq' in HF, HT'.
  rewrite Hcollect in HF, HT'. cbn [fst snd] in HF, HT'.
  split; [exact HF|].
  destruct (remove_tokens T entries sp Hgood Hb Hsp) as (sp' & Hb' & Hrem).
  fold fs in Hrem. rewrite HS, Hrem in HT'.
  destruct (parseQueryWith_fields FILTER_TOKENS text) as (_ & HT & _).
  fold (parseQuery text) in HT. fold pq in HT. fold T in HT.
  rewrite HT'.
  pose proof (normalize_tidy
    (fold_left (fun r tok => removeFirst tok r)
       (snd (fold_left (collect FILTER_TOKENS) (execAll 0 text) (∅, []))) text)) as Hn.
  cbv zeta in Hn. rewrite <- HT in Hn. destruct Hn as [Hc Hse].
  now apply normalize_again.
Qed.

(** X10.  Under the conditions of the round trip (clean filter values, a
    token-free remaining text) the serialized query is a fixed point:
    parsing it and serializing again gives the same text, with the same
    trimmed text, hence the same cache key. *)
Theorem serializeQuery_fixed_point (text : string) :
  let pq := parseQuery text in
  cleanValues pq = true ->
  tokenFree pq = true ->
  let pq' := parseQuery (serializeQuery pq) in
  serializeQuery pq' = serializeQuery pq
  /\ trimmed pq' = trimmed pq
  /\ Slice.cacheKey pq' = Slice.cacheKey pq.
Proof.
  intros pq Hclean Hfree pq'.
  destruct (reparse_fields text Hclean Hfree) as (HF & HT).
  fold pq in HF, HT. fold pq' in HF, HT.
  unfold serializeQuery, Slice.cacheKey. now rewrite HF, HT.
Qed.

Lemma serializeQuery_fixed_point_witness :
  serializeQuery (parseQuery (serializeQuery (parseQuery "to:bob  Plan from:ann")))
  = serializeQuery (parseQuery "to:bob  Plan from:ann")
  /\ serializeQuery (parseQuery "to:bob  Plan from:ann") = "Plan from:ann to:bob".
Proof.
  destruct (serializeQuery_fixed_point "to:bob  Plan from:ann") as (HS & _ & _).
  - vm_compute. reflexivity.
  - vm_compute. reflexivity.
  - split; [exact HS|]. vm_compute. reflexivity.
Defined.

End ParserTheorems.

(** ** searchSlice.js: identifier sets *)

Section ExclusionFacts.
Import Slice Spec.
Variable JSON_parse : string -> option jsval.

Lemma forEachM_Ok {A S} (f : S -> A -> result S) (l : list A) (s : S) :
  (forall s' x, x ∈ l -> exists s'', f s' x = Ok s'') ->
  exists s', forEachM f s l = Ok s'.
Proof.
  revert s. induction l as [|x l IH]; intros s Hf; cbn [forEachM].
  - now exists s.
  - destruct (Hf s x) as (s1 & E); [apply elem_of_cons; now left|].
    rewrite E. cbn [bind]. apply IH. intros s' y Hy. apply Hf. apply elem_of_cons. now right.
Qed.

Lemma forEachM_inv {A S} (f : S -> A -> result S) (I : list A -> S -> Prop)
  (l pre : list A) (s s' : S) :
  (forall pre x s s', I pre s -> f s x = Ok s' -> I (pre ++ [x])%list s') ->
  I pre s -> forEachM f s l = Ok s' -> I (pre ++ l)%list s'.
Proof.
  intros Hstep. revert pre s. induction l as [|x l IH]; intros pre s HI Hrun;
    cbn [forEachM] in Hrun.
  - injection Hrun as <-. now rewrite app_nil_r.
  - destruct (f s x) as [s1|e] eqn:E; [|discriminate]. cbn [bind] in Hrun.
    replace (pre ++ x :: l)%list with ((pre ++ [x]) ++ l)%list by now rewrite <- app_assoc.
    eapply IH; [|exact Hrun]. eapply Hstep; eassumption.
Qed.

Lemma forEachM_Throw {A S} (f : S -> A -> result S) (P : JsError -> Prop)
  (l : list A) (s : S) :
  (forall s x e, f s x = Throw e -> P e) ->
  Exists (fun x => forall s, exists e, f s x = Throw e) l ->
  exists e, forEachM f s l = Throw e /\ P e.
Proof.
  intros HP Hex. revert s. induction Hex as [x l Hx|x l _ IH]; intros s; cbn [forEachM].
  - destruct (Hx s) as (e & E). rewrite E. exists e. split; [reflexivity|]. now apply (HP s x).
  - destruct (f s x) as [s1|e] eqn:E; cbn [bind].
    + apply IH.
    + exists e. split; [reflexivity|]. now apply (HP s x).
Qed.

Lemma prop_Ok v k : Js.nullish v = false -> Js.prop v k = Ok (Js.field v k).
Proof. intros H. unfold Js.prop. now rewrite H. Qed.

Lemma prop_Throw v k :
  Js.nullish v = true -> exists e, Js.prop v k = Throw e /\ isTypeError e.
Proof. intros H. unfold Js.prop. rewrite H. eexists. split; reflexivity. Qed.

Lemma prop_Throw_TypeError v k e : Js.prop v k = Throw e -> isTypeError e.
Proof. unfold Js.prop. destruct (Js.nullish v); [|discriminate]. now intros [= <-]. Qed.

Lemma excludeChat_Ok logged sets chat :
  Js.nullish chat = false ->
  exists v,
    getOtherUserId JSON_parse (Js.field chat "recipantssummary") logged
      (Js.field chat "title") = Ok v
    /\ excludeChat JSON_parse logged sets chat
       = Ok (if Js.truthy (Js.field chat "chatid")
             then {[ idText "chatid" chat ]} ∪ fst sets else fst sets,
             if String.eqb (Js.String_ (Js.field chat "chat_type")) "1" && Js.truthy v
             then {[ Js.String_ v ]} ∪ snd sets else snd sets).
Proof.
  intros Hn.
  destruct (getOtherUserId_total JSON_parse (Js.field chat "recipantssummary") logged
              (Js.field chat "title")) as (v & Ev).
  exists v. split; [exact Ev|].
  unfold excludeChat. rewrite prop_Ok by exact Hn. cbn [bind]. unfold idText.
  destruct (String.eqb _ "1"); [|reflexivity].
  rewrite Ev. cbn [bind andb]. reflexivity.
Qed.

Lemma excludeChat_Throw logged sets chat e :
  excludeChat JSON_parse logged sets chat = Throw e -> isTypeError e.
Proof.
  unfold excludeChat. destruct (Js.prop chat "chatid") as [v|e'] eqn:E; cbn [bind].
  - destruct (String.eqb _ "1"); [|discriminate].
    destruct (getOtherUserId_total JSON_parse (Js.field chat "recipantssummary") logged
                (Js.field chat "title")) as (o & ->). discriminate.
  - intros [= <-]. now apply prop_Throw_TypeError in E.
Qed.

Lemma excludeUser_Throw sets u e : excludeUser sets u = Throw e -> isTypeError e.
Proof.
  unfold excludeUser. destruct (Js.prop u "zuid") as [v|e'] eqn:E; cbn [bind]; [discriminate|].
  intros [= <-]. now apply prop_Throw_TypeError in E.
Qed.

(** What the chats leave in the two sets. *)
Lemma chats_excluded logged (chats : list jsval) sets :
  forEachM (excludeChat JSON_parse logged) (∅, ∅) chats = Ok sets ->
  (forall id, id ∈ fst sets <->
     exists c, c ∈ chats /\ Js.truthy (Js.field c "chatid") = true
               /\ idText "chatid" c = id)
  /\ (forall id, id ∈ snd sets <->
        exists c v, c ∈ chats /\ otherParty JSON_parse logged c v /\ Js.String_ v = id).
Proof.
  intros Hrun.
  apply (forEachM_inv (excludeChat JSON_parse logged)
           (fun pre s =>
              (forall id, id ∈ fst s <->
                 exists c, c ∈ pre /\ Js.truthy (Js.field c "chatid") = true
                           /\ idText "chatid" c = id)
              /\ (forall id, id ∈ snd s <->
                    exists c v, c ∈ pre /\ otherParty JSON_parse logged c v
                                /\ Js.String_ v = id))
           chats [] (∅, ∅) sets); [| |exact Hrun].
  - clear. intros pre x s s' [Hc Hu] Hstep.
    destruct (Js.nullish x) eqn:Hn.
    { unfold excludeChat in Hstep. destruct (prop_Throw x "chatid" Hn) as (e & E & _).
      rewrite E in Hstep. discriminate. }
    destruct (excludeChat_Ok logged s x Hn) as (v & Ev & Estep).
    rewrite Estep in Hstep. injection Hstep as <-. cbn [fst snd]. split; intros id.
    + destruct (Js.truthy (Js.field x "chatid")) eqn:Et.
      * rewrite elem_of_union, elem_of_singleton, Hc. split.
        -- intros [->|(c & Hin & Htc & <-)].
           ++ exists x. repeat split; [|exact Et]. apply elem_of_app. right.
              now apply list_elem_of_singleton.
           ++ exists c. repeat split; [|exact Htc]. apply elem_of_app. now left.
        -- intros (c & Hin & Htc & <-). apply elem_of_app in Hin as [Hin|Hin].
           ++ right. now exists c.
           ++ apply list_elem_of_singleton in Hin as ->. now left.
      * rewrite Hc. split.
        -- intros (c & Hin & Htc & <-). exists c. repeat split; [|exact Htc].
           apply elem_of_app. now left.
        -- intros (c & Hin & Htc & <-). apply elem_of_app in Hin as [Hin|Hin].
           ++ now exists c.
           ++ apply list_elem_of_singleton in Hin as ->. congruence.
    + destruct (String.eqb (Js.String_ (Js.field x "chat_type")) "1" && Js.truthy v) eqn:Eb.
      * apply andb_true_iff in Eb as [Ety Etv]. apply String.eqb_eq in Ety.
        rewrite elem_of_union, elem_of_singleton, Hu. split.
        -- intros [->|(c & w & Hin & Ho & <-)].
           ++ exists x, v. repeat split; try assumption. apply elem_of_app. right.
              now apply list_elem_of_singleton.
           ++ exists c, w. split; [apply elem_of_app; now left|]. now split.
        -- intros (c & w & Hin & Ho & <-). apply elem_of_app in Hin as [Hin|Hin].
           ++ right. now exists c, w.
           ++ apply list_elem_of_singleton in Hin as ->. left.
              destruct Ho as (_ & Ew & _). rewrite Ev in Ew. now injection Ew as <-.
      * rewrite Hu. split.
        -- intros (c & w & Hin & Ho & <-). exists c, w.
           split; [apply elem_of_app; now left|]. now split.
        -- intros (c & w & Hin & Ho & <-). apply elem_of_app in Hin as [Hin|Hin].
           ++ now exists c, w.
           ++ apply list_elem_of_singleton in Hin as ->. exfalso.
              destruct Ho as (Ety & Ew & Etw). rewrite Ev in Ew. injection Ew as <-.
              rewrite Ety, Etw in Eb. discriminate.
  - cbn [fst snd]. split; intros id; split.
    + intros H. now apply elem_of_empty in H.
    + intros (c & H & _). inversion H.
    + intros H. now apply elem_of_empty in H.
    + intros (c & v & H & _). inversion H.
Qed.

(** What the users add to the second set. *)
Lemma users_excluded (users : list jsval) sets0 sets :
  forEachM excludeUser sets0 users = Ok sets ->
  fst sets = fst sets0
  /\ (forall id, id ∈ snd sets <->
        id ∈ snd sets0
        \/ exists u, u ∈ users /\ Js.truthy (Js.field u "zuid") = true
                     /\ idText "zuid" u = id).
Proof.
  intros Hrun.
  apply (forEachM_inv excludeUser
           (fun pre s =>
              fst s = fst sets0
              /\ (forall id, id ∈ snd s <->
                    id ∈ snd sets0
                    \/ exists u, u ∈ pre /\ Js.truthy (Js.field u "zuid") = true
                                 /\ idText "zuid" u = id))
           users [] sets0 sets); [| |exact Hrun].
  - clear. intros pre x s s' [Hc Hu] Hstep. unfold excludeUser in Hstep.
    destruct (Js.nullish x) eqn:Hn.
    { destruct (prop_Throw x "zuid" Hn) as (e & E & _). rewrite E in Hstep. discriminate. }
    rewrite prop_Ok in Hstep by exact Hn. cbn [bind] in Hstep. injection Hstep as <-.
    cbn [fst snd]. split; [exact Hc|]. intros id.
    destruct (Js.truthy (Js.field x "zuid")) eqn:Et.
    + rewrite elem_of_union, elem_of_singleton, Hu. split.
      * intros [->|[H|(u & Hin & Htu & <-)]].
        -- right. exists x. repeat split; [|exact Et]. apply elem_of_app. right.
           now apply list_elem_of_singleton.
        -- now left.
        -- right. exists u. repeat split; [|exact Htu]. apply elem_of_app. now left.
      * intros [H|(u & Hin & Htu & <-)].
        -- right. now left.
        -- apply elem_of_app in Hin as [Hin|Hin].
           ++ right. right. now exists u.
           ++ apply list_elem_of_singleton in Hin as ->. now left.
    + rewrite Hu. split.
      * intros [H|(u & Hin & Htu & <-)]; [now left|]. right. exists u.
        repeat split; [|exact Htu]. apply elem_of_app. now left.
      * intros [H|(u & Hin & Htu & <-)]; [now left|].
        apply elem_of_app in Hin as [Hin|Hin].
        -- right. now exists u.
        -- apply list_elem_of_singleton in Hin as ->. congruence.
  - split; [reflexivity|]. intros id. split; [now left|].
    intros [H|(u & H & _)]; [exact H|inversion H].
Qed.

Lemma buildExclusionSets_Ok (chats users : list jsval) logged :
  Forall (fun c => Js.nullish c = false) chats ->
  Forall (fun u => Js.nullish u = false) users ->
  exists sets, buildExclusionSets JSON_parse chats users logged = Ok sets.
Proof.
  intros Hc Hu. unfold buildExclusionSets.
  destruct (forEachM_Ok (excludeChat JSON_parse logged) chats (∅, ∅)) as (s & ->).
  { intros s' x Hx. rewrite Forall_forall in Hc.
    destruct (excludeChat_Ok logged s' x (Hc x Hx)) as (v & _ & ->). now eexists. }
  cbn [bind]. apply forEachM_Ok. intros s' x Hx. rewrite Forall_forall in Hu.
  unfold excludeUser. rewrite prop_Ok by now apply Hu. cbn [bind]. now eexists.
Qed.

Lemma buildExclusionSets_Throw (chats users : list jsval) logged :
  Exists (fun x => Js.nullish x = true) (chats ++ users) ->
  exists e, buildExclusionSets JSON_parse chats users logged = Throw e /\ isTypeError e.
Proof.
  intros Hex. unfold buildExclusionSets.
  destruct (forEachM (excludeChat JSON_parse logged) (∅, ∅) chats) as [s|e] eqn:Echats;
    cbn [bind].
  - apply Exists_app in Hex as [Hex|Hex].
    + exfalso.
      destruct (forEachM_Throw (excludeChat JSON_parse logged) isTypeError chats (∅, ∅))
        as (e & E & _); [apply excludeChat_Throw| |congruence].
      eapply Exists_impl; [exact Hex|]. intros x Hx s'. cbv beta in Hx.
      unfold excludeChat. destruct (prop_Throw x "chatid" Hx) as (e & -> & _).
      now exists e.
    + apply forEachM_Throw; [apply excludeUser_Throw|].
      eapply Exists_impl; [exact Hex|]. intros x Hx s'. cbv beta in Hx.
      unfold excludeUser. destruct (prop_Throw x "zuid" Hx) as (e & -> & _).
      now exists e.
  - exists e. split; [reflexivity|].
    destruct chats as [|c chats']; [discriminate|].
    assert (forall (l : list jsval) s0,
               forEachM (excludeChat JSON_parse logged) s0 l = Throw e -> isTypeError e) as Hall.
    { clear. induction l as [|x l IH]; intros s0 H; cbn [forEachM] in H; [discriminate|].
      destruct (excludeChat JSON_parse logged s0 x) as [s1|e1] eqn:E1; cbn [bind] in H.
      - now apply (IH s1).
      - injection H as <-. now apply excludeChat_Throw in E1. }
    now apply (Hall (c :: chats') (∅, ∅)).
Qed.

End ExclusionFacts.

Section ExclusionTheorems.
Import Slice Spec.

Lemma resolveOther_member logged title (ps : list jsval) p :
  resolveOther logged title ps = Some p -> p ∈ ps.
Proof.
  unfold resolveOther. cbn [firstSuccess]. intros H. apply list_elem_of_In.
  destruct (strategyLoggedIn logged ps) as [a|] eqn:Ea.
  { injection H as <-. unfold strategyLoggedIn in Ea.
    destruct (supplied logged); [|discriminate]. now apply List.find_some in Ea as [Ea _]. }
  destruct (strategyTitle title ps) as [b|] eqn:Eb.
  { injection H as <-. unfold strategyTitle in Eb.
    destruct (supplied title); [|discriminate]. now apply List.find_some in Eb as [Eb _]. }
  destruct (strategyOnly ps) as [c|] eqn:Ec; [|discriminate].
  injection H as <-. unfold strategyOnly in Ec.
  destruct ps as [|q [|? ?]]; try discriminate. injection Ec as <-. now left.
Qed.

(** X11.  On a participant list of records [getOtherUserId] returns [null]
    or the truthy [zuid] of one of the participants.  When the logged-in
    identifier is supplied and some participant has another [zuid], the
    answer is never the logged-in identifier. *)
Theorem getOtherUserId_is_a_participant
  (JSON_parse : string -> option jsval) (summary loggedInZuid chatTitle : jsval)
  (ps : list jsval) (v : jsval) :
  decoded JSON_parse summary = Some (JArr ps) ->
  Forall isRecord ps ->
  getOtherUserId JSON_parse summary loggedInZuid chatTitle = Ok v ->
  (v = JNull \/ (Js.truthy v = true /\ exists p, p ∈ ps /\ Js.field p "zuid" = v))
  /\ (supplied loggedInZuid = true ->
      (exists p, p ∈ ps /\ Js.String_ (Js.field p "zuid") <> Js.String_ loggedInZuid) ->
      v = JNull \/ Js.String_ v <> Js.String_ loggedInZuid).
Proof.
  intros Hdec Hrec Hv.
  rewrite (getOtherUserId_records JSON_parse summary loggedInZuid chatTitle ps Hdec Hrec) in Hv.
  injection Hv as <-. split.
  - destruct (resolveOther loggedInZuid chatTitle ps) as [p|] eqn:Ep; [|now left].
    cbn [zuidOrNull]. unfold Js.or.
    destruct (Js.truthy (Js.field p "zuid")) eqn:Et; [|now left].
    right. split; [exact Et|]. exists p. split; [|reflexivity].
    now apply (resolveOther_member loggedInZuid chatTitle).
  - intros Hsup (p & Hp & Hne). unfold resolveOther, firstSuccess, strategyLoggedIn.
    rewrite Hsup.
    destruct (List.find _ ps) as [a|] eqn:Ea.
    + apply List.find_some in Ea as [_ Ea]. apply negb_true_iff, String.eqb_neq in Ea.
      cbn [zuidOrNull]. unfold Js.or.
      destruct (Js.truthy (Js.field a "zuid")); [now right|now left].
    + exfalso. apply list_elem_of_In in Hp.
      pose proof (List.find_none _ _ Ea p Hp) as Hp'. cbv beta in Hp'.
      apply negb_false_iff, String.eqb_eq in Hp'. contradiction.
Qed.

Lemma getOtherUserId_is_a_participant_witness :
  getOtherUserId Example.noJSON (JArr [Example.bob; Example.alice]) (JStr "2") JUndefined
  = Ok (JStr "1")
  /\ (JStr "1" = JNull \/ Js.String_ (JStr "1") <> Js.String_ (JStr "2")).
Proof.
  assert (getOtherUserId Example.noJSON (JArr [Example.bob; Example.alice]) (JStr "2")
            JUndefined = Ok (JStr "1")) as E by (vm_compute; reflexivity).
  split; [exact E|].
  refine (proj2 (getOtherUserId_is_a_participant Example.noJSON
                   (JArr [Example.bob; Example.alice]) (JStr "2") JUndefined
                   [Example.bob; Example.alice] (JStr "1") eq_refl _ E) eq_refl _).
  - repeat constructor; eexists; reflexivity.
  - exists Example.alice. split.
    + apply elem_of_cons. right. apply elem_of_cons. now left.
    + vm_compute. discriminate.
Defined.

(** X12.  When no chat and no user of the client data is [null] or
    [undefined], [buildExclusionSets] returns: the chat set holds exactly the
    identifiers [String(chatid)] of the chats with a truthy [chatid]; the
    user set holds exactly the resolved other parties of the one-to-one
    conversations and the identifiers [String(zuid)] of the users with a
    truthy [zuid].  A [null] or [undefined] record makes it throw a
    TypeError. *)
Theorem buildExclusionSets_contents
  (JSON_parse : string -> option jsval) (chats users : list jsval) (logged : jsval) :
  (Forall (fun c => Js.nullish c = false) chats ->
   Forall (fun u => Js.nullish u = false) users ->
   exists sets,
     buildExclusionSets JSON_parse chats users logged = Ok sets
     /\ (forall id, id ∈ fst sets <->
           exists c, c ∈ chats /\ Js.truthy (Js.field c "chatid") = true
                     /\ idText "chatid" c = id)
     /\ (forall id, id ∈ snd sets <->
           (exists c v, c ∈ chats /\ otherParty JSON_parse logged c v
                        /\ Js.String_ v = id)
           \/ exists u, u ∈ users /\ Js.truthy (Js.field u "zuid") = true
                        /\ idText "zuid" u = id))
  /\ (Exists (fun x => Js.nullish x = true) (chats ++ users) ->
      exists e, buildExclusionSets JSON_parse chats users logged = Throw e
                /\ isTypeError e).
Proof.
  split; [|apply buildExclusionSets_Throw].
  intros Hc Hu.
  destruct (buildExclusionSets_Ok JSON_parse chats users logged Hc Hu) as (sets & Hsets).
  exists sets. split; [exact Hsets|].
  unfold buildExclusionSets in Hsets.
  destruct (forEachM (excludeChat JSON_parse logged) (∅, ∅) chats) as [s0|e] eqn:E0;
    [|discriminate].
  cbn [bind] in Hsets.
  destruct (chats_excluded JSON_parse logged chats s0 E0) as (Hchat & Hother).
  destruct (users_excluded users s0 sets Hsets) as (Hfst & Huser).
  split.
  - intros id. rewrite Hfst. apply Hchat.
  - intros id. rewrite Huser, Hother. reflexivity.
Qed.

Lemma buildExclusionSets_contents_witness :
  exists sets,
    buildExclusionSets Example.noJSON [Example.chatAlice; Example.channelAlpha]
      [Example.userAlan] (JStr "2") = Ok sets
    /\ "c9" ∈ fst sets /\ "3" ∈ snd sets /\ "1" ∈ snd sets.
Proof.
  destruct (buildExclusionSets_contents Example.noJSON
              [Example.chatAlice; Example.channelAlpha] [Example.userAlan] (JStr "2"))
    as (Hok & _).
  destruct Hok as (sets & Hsets & Hchat & Huser).
  - repeat constructor.
  - repeat constructor.
  - exists sets. split; [exact Hsets|]. repeat split.
    + apply Hchat. exists Example.channelAlpha. repeat split.
      apply elem_of_cons. right. apply elem_of_cons. now left.
    + apply Huser. right. exists Example.userAlan. repeat split.
      apply elem_of_cons. now left.
    + apply Huser. left. exists Example.chatAlice, (JStr "1"). repeat split.
      apply elem_of_cons. now left.
Defined.

(** X13.  A [null] or [undefined] record among the chats or users of the
    client data stops an invocation that misses the cache before the local
    search: the exception of [buildExclusionSets] escapes the payload
    creator, no remote call is made, nothing is dispatched, and the store
    ends with the generic error message, its results and cache as before. *)
Theorem executeSearch_null_record
  (JSON_parse : string -> option jsval) (apis : ModuleApis) (p : Payload)
  (st : SearchState) (now now' : Z) :
  cacheHit st p now = None ->
  Exists (fun x => Js.nullish x = true)
    (chats (clientData p) ++ users (clientData p)) ->
  let r := executeSearch JSON_parse apis p st now now' in
  (exists e, outcome r = Threw e /\ isTypeError e)
  /\ trace r = [EvAbortSignal; EvExclusionSets]
  /\ error (storeAfter st r) = Some "Search error"
  /\ isLoading (storeAfter st r) = false
  /\ results (storeAfter st r) = results st
  /\ cache (storeAfter st r) = cache st.
Proof.
  intros Hmiss Hex r. subst r. rewrite executeSearch_miss by exact Hmiss.
  destruct (buildExclusionSets_Throw JSON_parse (chats (clientData p)) (users (clientData p))
              (Js.opt_prop (loggedUser p) "Zuid") Hex) as (e & He & Hty).
  unfold storeAfter, runPipeline. rewrite He. cbn.
  repeat split. now exists e.
Qed.

Lemma executeSearch_null_record_witness :
  let p := {| parsedQuery := QueryParser.parseQuery "al"; activeCategory := "all";
              clientData := {| chats := [JNull]; users := [] |};
              enabledModules := []; moduleWeights := ∅; scorerConfig := None;
              resolveFields := Example.titleAndName;
              resolveDedupKey := Example.moduleAndId;
              maxResults := None; loggedUser := JUndefined |} in
  error (storeAfter Example.emptyStore
           (executeSearch Example.noJSON Example.apis p Example.emptyStore 1000 2000))
  = Some "Search error".
Proof.
  intros p.
  refine (proj1 (proj2 (proj2 (executeSearch_null_record Example.noJSON Example.apis p
                                 Example.emptyStore 1000 2000 _ _)))).
  - vm_compute. reflexivity.
  - constructor. reflexivity.
Defined.

End ExclusionTheorems.

(** ** searchSlice.js: what the local stage returns *)

Section LocalResults.
Import Slice Spec.
Variable JSON_parse : string -> option jsval.

Lemma filterM_Forall {A} (f : A -> result bool) (l ys : list A) :
  filterM f l = Ok ys -> Forall (fun y => f y = Ok true) ys.
Proof.
  revert ys. induction l as [|x l IH]; intros ys H; cbn [filterM] in H.
  - injection H as <-. constructor.
  - destruct (f x) as [b|] eqn:Ex; [|discriminate]. cbn [bind] in H.
    destruct (filterM f l) as [zs|]; [|discriminate]. cbn [bind] in H.
    injection H as <-. destruct b; [constructor; [exact Ex|]|]; now apply IH.
Qed.

Lemma sort_Forall {A} (cmp : A -> A -> Z) (P : A -> Prop) (l : list A) :
  Forall P l -> Forall P (Js.sort cmp l).
Proof.
  rewrite !Forall_forall. intros H x Hx. apply H. now apply sort_elem_of in Hx.
Qed.

Lemma localChat_fields logged c r :
  localChat JSON_parse logged c = Ok r ->
  Js.field r "_source" = JStr "client"
  /\ Js.field r "_module" = JStr (chatTypeToModule (Js.field c "chat_type")).
Proof.
  unfold localChat. intros H.
  destruct (Js.prop c "title") as [t|]; [|discriminate]. cbn [bind] in H.
  destruct (replaceMarker t) as [t'|]; [|discriminate]. cbn [bind] in H.
  destruct (chatItemId JSON_parse logged c) as [id|]; [|discriminate]. cbn [bind] in H.
  injection H as <-. unfold Js.extend, Js.field. cbn [fold_left fst snd]. split.
  - rewrite lookup_assign_ne by discriminate. apply lookup_assign_eq.
  - rewrite lookup_assign_ne by discriminate. rewrite lookup_assign_ne by discriminate.
    apply lookup_assign_eq.
Qed.

Lemma localUser_fields u r :
  localUser u = Ok r ->
  Js.field r "_source" = JStr "client" /\ Js.field r "_module" = JStr "users".
Proof.
  unfold localUser. intros H.
  destruct (Js.prop u "Zuid") as [z|]; [|discriminate]. cbn [bind] in H.
  injection H as <-. unfold Js.extend, Js.field. cbn [fold_left fst snd]. split.
  - rewrite lookup_assign_ne by discriminate. apply lookup_assign_eq.
  - rewrite lookup_assign_ne by discriminate. rewrite lookup_assign_ne by discriminate.
    apply lookup_assign_eq.
Qed.

Lemma titleMatches_true queryLower c :
  titleMatches queryLower c = Ok true ->
  exists t, Js.field c "title" = JStr t /\ startsWith queryLower (toLowerCase t) = true.
Proof.
  unfold titleMatches. destruct (Js.field c "title") as [| | | |t| |]; try discriminate.
  intros [= H]. now exists t.
Qed.

Lemma userMatches_true queryLower zuids u :
  userMatches queryLower zuids u = Ok true ->
  (exists name email,
     lowerOf (Js.or (Js.or (Js.field u "full_name") (Js.field u "display_name"))
                (JStr "")) = Ok name
     /\ lowerOf (Js.or (Js.field u "email") (JStr "")) = Ok email
     /\ startsWith queryLower name || startsWith queryLower email = true)
  /\ idText "id" u ∉ zuids.
Proof.
  unfold userMatches. intros H.
  destruct (lowerOf (Js.or (Js.or _ _) _)) as [name|]; [|discriminate]. cbn [bind] in H.
  destruct (lowerOf (Js.or (Js.field u "email") _)) as [email|]; [|discriminate].
  cbn [bind] in H. injection H as H. apply andb_true_iff in H as [Hm Hz].
  split; [now exists name, email|].
  apply negb_true_iff, bool_decide_eq_false in Hz. exact Hz.
Qed.

Lemma firstn_length_le {A} (n : nat) (l : list A) : (length (firstn n l) <= n)%nat.
Proof. rewrite length_firstn. lia. Qed.

Lemma mapM_Throw_inv {A B} (f : A -> result B) (P : JsError -> Prop) (l : list A) e :
  (forall x e', f x = Throw e' -> P e') -> mapM f l = Throw e -> P e.
Proof.
  intros Hf. induction l as [|x l IH]; cbn [mapM]; [discriminate|].
  destruct (f x) as [y|e'] eqn:Ex; cbn [bind].
  - destruct (mapM f l) as [ys|e'']; cbn [bind]; [discriminate|].
    intros [= <-]. now apply IH.
  - intros [= <-]. now apply (Hf x).
Qed.

Lemma filterM_Throw_inv {A} (f : A -> result bool) (P : JsError -> Prop) (l : list A) e :
  (forall x e', f x = Throw e' -> P e') -> filterM f l = Throw e -> P e.
Proof.
  intros Hf. induction l as [|x l IH]; cbn [filterM]; [discriminate|].
  destruct (f x) as [b|e'] eqn:Ex; cbn [bind].
  - destruct (filterM f l) as [ys|e'']; cbn [bind]; [discriminate|].
    intros [= <-]. now apply IH.
  - intros [= <-]. now apply (Hf x).
Qed.

Lemma lowerOf_Throw v e : lowerOf v = Throw e -> isTypeError e.
Proof. destruct v; cbn [lowerOf]; try discriminate; now intros [= <-]. Qed.

Lemma runClientSearch_throws_TypeError (chats users : list jsval) queryLower logged e :
  runClientSearch JSON_parse chats users queryLower logged = Throw e -> isTypeError e.
Proof.
  unfold runClientSearch.
  destruct (mapM (localChat JSON_parse logged) _) as [mapped|e1] eqn:E1; cbn [bind].
  2:{ intros [= <-]. eapply mapM_Throw_inv; [|exact E1].
      intros x e'. apply localChat_throws_TypeError. }
  destruct (filterM (titleMatches queryLower) mapped) as [kept|e2] eqn:E2; cbn [bind].
  2:{ intros [= <-]. eapply filterM_Throw_inv; [|exact E2].
      intros x e'. unfold titleMatches.
      destruct (Js.field x "title"); try discriminate; now intros [= <-]. }
  destruct (mapM localUser _) as [mappedUsers|e3] eqn:E3; cbn [bind].
  2:{ intros [= <-]. eapply mapM_Throw_inv; [|exact E3].
      intros x e'. unfold localUser.
      destruct (Js.prop x "Zuid") as [z|e0] eqn:Ez; cbn [bind]; [discriminate|].
      intros [= <-]. now apply prop_Throw_TypeError in Ez. }
  destruct (filterM _ mappedUsers) as [keptUsers|e4] eqn:E4; cbn [bind]; [discriminate|].
  intros [= <-]. eapply filterM_Throw_inv; [|exact E4].
  intros x e'. unfold userMatches.
  destruct (lowerOf (Js.or (Js.or _ _) _)) as [name|e0] eqn:En; cbn [bind].
  - destruct (lowerOf (Js.or (Js.field x "email") _)) as [email|e5] eqn:Em; cbn [bind];
      [discriminate|].
    intros [= <-]. now apply lowerOf_Throw in Em.
  - intros [= <-]. now apply lowerOf_Throw in En.
Qed.

End LocalResults.

Section LocalTheorems.
Import Slice Spec.

(** X14.  When the local search returns, the combined list is the
    conversations followed by the persons; there are at most 500
    conversations and 100 persons; every conversation kept has a string
    title that, lower-cased, starts with the query, and every person kept
    has a name or an email that does; all carry the source tag [client];
    and no person kept has the identifier of a kept one-to-one
    conversation's other party. *)
Theorem runClientSearch_results
  (JSON_parse : string -> option jsval) (chats users : list jsval)
  (queryLower : string) (logged : jsval) (cs : ClientSearch) :
  runClientSearch JSON_parse chats users queryLower logged = Ok cs ->
  clientResults cs = (clientChats cs ++ clientUsers cs)%list
  /\ (length (clientChats cs) <= 500)%nat
  /\ (length (clientUsers cs) <= 100)%nat
  /\ Forall (localChatHit queryLower) (clientChats cs)
  /\ Forall (localUserHit queryLower) (clientUsers cs)
  /\ (forall c u, c ∈ clientChats cs -> u ∈ clientUsers cs ->
        isUsersModule c = true -> idText "id" c <> idText "id" u).
Proof.
  unfold runClientSearch. intros H.
  destruct (mapM (localChat JSON_parse logged) (firstn MAX_CLIENT_CHATS chats))
    as [mapped|] eqn:Emap; [|discriminate]. cbn [bind] in H.
  destruct (filterM (titleMatches queryLower) mapped) as [kept|] eqn:Ekept; [|discriminate].
  cbn [bind] in H.
  destruct (mapM localUser (firstn MAX_CLIENT_USERS users)) as [mappedUsers|] eqn:Eusers;
    [|discriminate]. cbn [bind] in H.
  destruct (filterM _ mappedUsers) as [keptUsers|] eqn:Ekeptu; [|discriminate].
  cbn [bind] in H. injection H as <-. cbn [clientResults clientChats clientUsers].
  pose proof (mapM_Ok_Forall _ _ _ _
                (fun c r Hr => proj1 (localChat_fields JSON_parse logged c r Hr)) Emap) as Hfields.
  pose proof (filterM_sublist _ _ _ Ekept) as Hsub.
  pose proof (filterM_Forall _ _ _ Ekept) as Hmatch.
  pose proof (mapM_Ok_Forall _ _ _ _ localUser_fields Eusers) as Hufields.
  pose proof (filterM_sublist _ _ _ Ekeptu) as Hsubu.
  pose proof (filterM_Forall _ _ _ Ekeptu) as Hmatchu.
  split; [reflexivity|]. split; [|split; [|split; [|split]]].
  - rewrite sort_length. apply sublist_length in Hsub.
    apply mapM_length in Emap. pose proof (firstn_length_le MAX_CLIENT_CHATS chats).
    unfold MAX_CLIENT_CHATS in *. lia.
  - apply sublist_length in Hsubu. apply mapM_length in Eusers.
    pose proof (firstn_length_le MAX_CLIENT_USERS users). unfold MAX_CLIENT_USERS in *. lia.
  - apply sort_Forall. rewrite Forall_forall in Hmatch, Hfields |- *.
    intros c Hc. split.
    + apply titleMatches_true. now apply Hmatch.
    + apply (Hfields c). eapply elem_of_sublist; eassumption.
  - rewrite Forall_forall in Hmatchu, Hufields |- *. intros u Hu.
    destruct (Hufields u) as [Hs Hm]; [eapply elem_of_sublist; eassumption|].
    destruct (userMatches_true _ _ _ (Hmatchu u Hu)) as (Hhit & _).
    now repeat split.
  - intros c u Hc Hu Hmod Heq. rewrite Forall_forall in Hmatchu.
    destruct (userMatches_true _ _ _ (Hmatchu u Hu)) as (_ & Hnot).
    apply Hnot. rewrite <- Heq. apply elem_of_list_to_set.
    apply list_elem_of_In, in_map_iff. exists c. split; [reflexivity|].
    apply filter_In. split; [now apply list_elem_of_In|exact Hmod].
Qed.

Lemma runClientSearch_results_witness :
  exists cs,
    runClientSearch Example.noJSON [Example.chatAlice; Example.channelAlpha]
      [Example.userAlan; JObj [("zuid", JStr "1"); ("full_name", JStr "Alice")]]
      "al" (JStr "2") = Ok cs
    /\ length (clientChats cs) = 2%nat
    /\ length (clientUsers cs) = 1%nat
    /\ Forall (localChatHit "al") (clientChats cs).
Proof.
  destruct (runClientSearch Example.noJSON [Example.chatAlice; Example.channelAlpha]
              [Example.userAlan; JObj [("zuid", JStr "1"); ("full_name", JStr "Alice")]]
              "al" (JStr "2")) as [cs|e] eqn:E; [|vm_compute in E; discriminate].
  exists cs. split; [reflexivity|].
  destruct (runClientSearch_results _ _ _ _ _ _ E) as (_ & _ & _ & Hchats & _).
  vm_compute in E. injection E as <-.
  split; [reflexivity|]. split; [reflexivity|]. exact Hchats.
Defined.

End LocalTheorems.

(** ** searchSlice.js: the remote fan-out *)

Section FanOut.
Import Scorer QueryParser Slice Spec.
Variable JSON_parse : string -> option jsval.

Lemma filter_cons_app {A} (f : A -> bool) (x : A) (l : list A) :
  List.filter f (x :: l) = ((if f x then [x] else []) ++ List.filter f l)%list.
Proof. cbn [List.filter]. now destruct (f x). Qed.

Lemma field_extend (v : jsval) (kvs : list (string * jsval)) (k : string) :
  Js.field (Js.extend v kvs) k
  = Js.lookup k (fold_left (fun props kv => Js.assign (fst kv) (snd kv) props) kvs
                   (Js.spread v)).
Proof. reflexivity. Qed.

Lemma addModule_names apis pq enabledModules activeCategory modName filterSet idField :
  map fst (addModule apis pq enabledModules activeCategory modName filterSet idField)
  = if called apis enabledModules activeCategory modName then [modName] else [].
Proof.
  unfold addModule, called. destruct (moduleApi apis modName); [|reflexivity].
  now destruct (enabled enabledModules modName && inCategory activeCategory modName).
Qed.

Lemma buildServerPromises_names apis pq logged enabledModules activeCategory sets :
  map fst (fst (buildServerPromises JSON_parse apis pq logged enabledModules
                  activeCategory sets))
  = "globalsearch" :: List.filter (called apis enabledModules activeCategory) optionalModules.
Proof.
  unfold buildServerPromises. destruct sets as [chatIds userIds].
  cbn [fst map]. rewrite !map_app, !addModule_names. f_equal.
  unfold optionalModules. rewrite !filter_cons_app. cbn [List.filter].
  now rewrite app_nil_r.
Qed.

Lemma settle_elem_of o tag keep item :
  item ∈ settle o tag keep -> keep item = true /\ exists x, tag x = Ok item.
Proof.
  unfold settle. destruct o as [raw|e]; [|intros H; inversion H].
  destruct (mapM tag (arrayOrEmpty raw)) as [l|] eqn:El; [|intros H; inversion H].
  intros H. apply list_elem_of_In, filter_In in H as [Hin Hkeep]. split; [exact Hkeep|].
  clear Hkeep. revert l El Hin. induction (arrayOrEmpty raw) as [|x xs IH]; intros l El Hin;
    cbn [mapM] in El.
  - injection El as <-. inversion Hin.
  - destruct (tag x) as [y|] eqn:Ex; [|discriminate]. cbn [bind] in El.
    destruct (mapM tag xs) as [ys|]; [|discriminate]. cbn [bind] in El.
    injection El as <-. destruct Hin as [<-|Hin]; [now exists x|]. now apply (IH ys).
Qed.

Lemma tagModule_fields modName idField x item :
  modName <> "" ->
  tagModule modName idField x = Ok item ->
  Js.truthy (Js.field item "_module") = true
  /\ Js.truthy (Js.field item "_source") = true
  /\ Js.field item "id" = Js.field x idField.
Proof.
  intros Hne. unfold tagModule. destruct (Js.prop x "_module") as [m|]; [|discriminate].
  cbn [bind]. intros [= <-]. rewrite !field_extend. cbn [fold_left fst snd].
  repeat split.
  - rewrite lookup_assign_ne by discriminate. rewrite lookup_assign_ne by discriminate.
    rewrite lookup_assign_eq. unfold Js.or. destruct (Js.truthy m) eqn:Em; [exact Em|].
    cbn. now apply nonempty_true.
  - rewrite lookup_assign_ne by discriminate. rewrite lookup_assign_eq. unfold Js.or.
    destruct (Js.truthy (Js.field x "_source")) eqn:Es; [exact Es|reflexivity].
  - apply lookup_assign_eq.
Qed.

Lemma addModule_values apis pq enabledModules activeCategory modName filterSet idField m l :
  modName <> "" ->
  (m, l) ∈ addModule apis pq enabledModules activeCategory modName filterSet idField ->
  m = modName
  /\ Forall (fun item =>
               Js.truthy (Js.field item "_module") = true
               /\ Js.truthy (Js.field item "_source") = true
               /\ notExcluded filterSet item = true) l.
Proof.
  intros Hne. unfold addModule. destruct (moduleApi apis modName) as [apiFn|];
    [|intros H; inversion H].
  destruct (enabled enabledModules modName && inCategory activeCategory modName);
    [|intros H; inversion H].
  intros H. apply list_elem_of_singleton in H. injection H as -> ->.
  split; [reflexivity|]. apply Forall_forall. intros item Hitem.
  apply settle_elem_of in Hitem as (Hkeep & x & Hx).
  destruct (tagModule_fields modName idField x item Hne Hx) as (Hm & Hs & _).
  now repeat split.
Qed.

Lemma settle_silenced o tag keep : settle (silenced o) tag keep = settle o tag keep.
Proof. destruct o as [[]|]; reflexivity. Qed.

Lemma addModule_silenced apis pq enabledModules activeCategory modName filterSet idField :
  addModule (silencedApis apis) pq enabledModules activeCategory modName filterSet idField
  = addModule apis pq enabledModules activeCategory modName filterSet idField.
Proof.
  unfold addModule, silencedApis. cbn [moduleApi].
  destruct (moduleApi apis modName); [|reflexivity].
  destruct (enabled enabledModules modName && inCategory activeCategory modName);
    [|reflexivity].
  now rewrite settle_silenced.
Qed.

Lemma buildServerPromises_silenced apis pq logged enabledModules activeCategory sets :
  buildServerPromises JSON_parse (silencedApis apis) pq logged enabledModules
    activeCategory sets
  = buildServerPromises JSON_parse apis pq logged enabledModules activeCategory sets.
Proof.
  unfold buildServerPromises. destruct sets as [chatIds userIds].
  rewrite !addModule_silenced.
  change (globalsearch (silencedApis apis) pq) with (silenced (globalsearch apis pq)).
  now rewrite settle_silenced.
Qed.

Lemma runPipeline_silenced apis p now' :
  runPipeline JSON_parse (silencedApis apis) p now' = runPipeline JSON_parse apis p now'.
Proof.
  unfold runPipeline, serverPromises.
  destruct (buildExclusionSets _ _ _ _) as [sets|]; [|reflexivity].
  destruct (runClientSearch _ _ _ _ _) as [cs|]; [|reflexivity].
  now rewrite buildServerPromises_silenced.
Qed.

End FanOut.

Section FanOutTheorems.
Import Scorer QueryParser Slice Spec.

Lemma optionalModules_NoDup : NoDup ("globalsearch" :: optionalModules).
Proof. apply (bool_decide_unpack _). vm_compute. exact I. Qed.

(** X15.  The remote calls [buildServerPromises] issues are the global
    search, always, followed by those of the twelve optional modules whose
    API is present, that are enabled, and that the active category admits,
    in a fixed order and each at most once.  Under a category other than
    [all] there are at most two calls: the global search and the module of
    that category. *)
Theorem buildServerPromises_calls
  (JSON_parse : string -> option jsval) (apis : ModuleApis) (pq : ParsedQuery)
  (logged : jsval) (enabledModules : list string) (activeCategory : string)
  (sets : ExclusionSets) :
  let names :=
    map fst (fst (buildServerPromises JSON_parse apis pq logged enabledModules
                    activeCategory sets)) in
  names = "globalsearch"
          :: List.filter (called apis enabledModules activeCategory) optionalModules
  /\ NoDup names
  /\ (activeCategory <> "all" ->
      forall m, m ∈ names -> m = "globalsearch" \/ m = activeCategory)
  /\ (activeCategory <> "all" -> length names <= 2)%nat.
Proof.
  intros names. subst names. rewrite buildServerPromises_names.
  split; [reflexivity|]. split; [|split].
  - pose proof optionalModules_NoDup as Hnd. apply NoDup_cons in Hnd as [Hg Hnd].
    apply NoDup_cons. split.
    + intros Hin. apply Hg. apply list_elem_of_In, filter_In in Hin as [Hin _].
      now apply list_elem_of_In.
    + now apply NoDup_ListNoDup, List.NoDup_filter, NoDup_ListNoDup.
  - intros Hcat m Hm. apply elem_of_cons in Hm as [->|Hm]; [now left|]. right.
    apply list_elem_of_In, filter_In in Hm as [_ Hm]. unfold called in Hm.
    destruct (moduleApi apis m); [|discriminate].
    apply andb_true_iff in Hm as [_ Hm]. unfold inCategory in Hm.
    apply orb_true_iff in Hm as [Hm|Hm]; apply String.eqb_eq in Hm; congruence.
  - intros Hcat. cbn [length]. apply le_n_S.
    assert (forall l, NoDup l ->
              (length (List.filter (called apis enabledModules activeCategory) l) <= 1)%nat)
      as Hone.
    { induction l as [|x l IH]; intros Hnd; cbn [List.filter length]; [lia|].
      apply NoDup_cons in Hnd as [Hx Hnd].
      destruct (called apis enabledModules activeCategory x) eqn:Ex; [|now apply IH].
      cbn [length].
      assert (List.filter (called apis enabledModules activeCategory) l = []) as ->; [|cbn; lia].
      destruct (List.filter _ l) as [|y ys] eqn:Ef; [reflexivity|]. exfalso.
      assert (In y (List.filter (called apis enabledModules activeCategory) l)) as Hy
        by (rewrite Ef; now left).
      apply filter_In in Hy as [Hyl Hy]. apply Hx.
      assert (forall m, called apis enabledModules activeCategory m = true ->
                        m = activeCategory) as Hc.
      { intros m Hm. unfold called in Hm. destruct (moduleApi apis m); [|discriminate].
        apply andb_true_iff in Hm as [_ Hm]. unfold inCategory in Hm.
        apply orb_true_iff in Hm as [Hm|Hm]; apply String.eqb_eq in Hm; congruence. }
      rewrite (Hc x Ex), <- (Hc y Hy). now apply list_elem_of_In. }
    apply Hone. pose proof optionalModules_NoDup as Hnd. now apply NoDup_cons in Hnd as [_ Hnd].
Qed.

Lemma buildServerPromises_calls_witness :
  map fst (fst (buildServerPromises Example.noJSON Example.apis (parseQuery "al")
                  (JStr "2") ["users"; "channels"] "users" (∅, ∅)))
  = ["globalsearch"; "users"]
  /\ (length (map fst (fst (buildServerPromises Example.noJSON Example.apis
                              (parseQuery "al") (JStr "2") ["users"; "channels"]
                              "users" (∅, ∅)))) <= 2)%nat.
Proof.
  destruct (buildServerPromises_calls Example.noJSON Example.apis (parseQuery "al")
              (JStr "2") ["users"; "channels"] "users" (∅, ∅)) as (Hn & _ & _ & Hlen).
  split; [rewrite Hn; vm_compute; reflexivity|].
  apply Hlen. discriminate.
Defined.

(** One [addModule] of [buildServerPromises], for the theorem below. *)
Ltac module_case H :=
  let Hm := fresh "Hm" in
  let Hl := fresh "Hl" in
  apply addModule_values in H as [Hm Hl]; [|discriminate];
  subst; eapply Forall_impl; [exact Hl|];
  let item := fresh "item" in
  let Ht := fresh "Ht" in
  let Hs := fresh "Hs" in
  let Hk := fresh "Hk" in
  let ids := fresh "ids" in
  let Hids := fresh "Hids" in
  intros item (Ht & Hs & Hk); split; [exact Ht|split; [exact Hs|]];
  intros ids Hids; vm_compute in Hids;
  first [ discriminate Hids
        | injection Hids as <-; cbn [notExcluded] in Hk;
          apply negb_true_iff, bool_decide_eq_false in Hk; exact Hk ].

(** X16.  Every record a module call other than the global search settles
    to carries a truthy [_module] and a truthy [_source], and, for the
    modules [users], [chats], [channels], [bots] and [threads], an [id] that
    is not in the identifier set built from the client data: what the
    client already holds is filtered out before ranking. *)
Theorem module_results_exclude_known
  (JSON_parse : string -> option jsval) (apis : ModuleApis) (pq : ParsedQuery)
  (logged : jsval) (enabledModules : list string) (activeCategory : string)
  (sets : ExclusionSets) (m : string) (l : list jsval) :
  (m, l) ∈ fst (buildServerPromises JSON_parse apis pq logged enabledModules
                  activeCategory sets) ->
  m <> "globalsearch" ->
  Forall (fun item =>
            Js.truthy (Js.field item "_module") = true
            /\ Js.truthy (Js.field item "_source") = true
            /\ forall ids, exclusionOf sets m = Some ids -> idText "id" item ∉ ids) l.
Proof.
  unfold buildServerPromises. destruct sets as [chatIds userIds]. cbn [fst].
  intros H Hne. apply elem_of_cons in H as [H|H]; [injection H as -> _; congruence|].
  clear Hne. unfold idText.
  repeat (apply elem_of_app in H as [H|H]; [module_case H|]).
  module_case H.
Qed.

Lemma module_results_exclude_known_witness :
  Forall (fun item => idText "id" item ∉ ({[ "3" ]} : gset string))
    [JObj [("zuid", JStr "7"); ("full_name", JStr "Alma"); ("_module", JStr "users");
           ("_source", JStr "server"); ("id", JStr "7")]].
Proof.
  pose proof (module_results_exclude_known Example.noJSON Example.apis (parseQuery "al")
                (JStr "2") ["users"] "all" (∅, {[ "3" ]}) "users"
                [JObj [("zuid", JStr "7"); ("full_name", JStr "Alma");
                       ("_module", JStr "users"); ("_source", JStr "server");
                       ("id", JStr "7")]]) as H.
  eapply Forall_impl; [apply H|].
  - vm_compute. apply elem_of_cons. right. apply elem_of_cons. now left.
  - discriminate.
  - intros item (_ & _ & Hid). apply Hid. reflexivity.
Defined.

(** X17.  Failures of the remote calls are absorbed.  A module call that
    fails, or that resolves to something other than an array, changes
    nothing but its own contribution: the invocation runs exactly as if that
    call had resolved to the empty array.  And no invocation ends as
    aborted: an aborted call is a failed call like any other, and the local
    steps throw nothing but TypeErrors. *)
Theorem failed_module_counts_as_empty
  (JSON_parse : string -> option jsval) (apis : ModuleApis) (p : Payload)
  (st : SearchState) (now now' : Z) :
  executeSearch JSON_parse (silencedApis apis) p st now now'
  = executeSearch JSON_parse apis p st now now'
  /\ outcome (executeSearch JSON_parse apis p st now now') <> Aborted.
Proof.
  unfold executeSearch. destruct (cacheHit st p now); [now split|].
  split; [apply runPipeline_silenced|].
  unfold runPipeline.
  destruct (buildExclusionSets _ _ _ _) as [sets|]; [|discriminate].
  destruct (runClientSearch _ _ _ _ _) as [cs|e] eqn:Ecs; [discriminate|].
  cbn [outcome]. apply runClientSearch_throws_TypeError in Ecs.
  rewrite (caught_TypeError e Ecs). discriminate.
Qed.

(** X18.  Once the exclusion sets are built and the local search has
    returned, the invocation publishes the local results as a partial list
    before it calls any remote module, whatever the modules do: its trace
    is the three local steps, the partial update, the module calls, and
    then the rest, in which no module is called.  And when the invocation
    is fulfilled, it was not served from the cache, it dispatched the
    partial update and then the cache entry that holds the returned list,
    and without a result cap the local results are a prefix of the returned
    list. *)
Theorem local_results_published_first
  (JSON_parse : string -> option jsval) (p : Payload) (st : SearchState)
  (now now' : Z) (sets : ExclusionSets) (cs : ClientSearch) :
  let logged := Js.opt_prop (loggedUser p) "Zuid" in
  cacheHit st p now = None ->
  buildExclusionSets JSON_parse (chats (clientData p)) (users (clientData p)) logged
  = Ok sets ->
  runClientSearch JSON_parse (chats (clientData p)) (users (clientData p))
    (toLowerCase (trimmed (parsedQuery p))) logged = Ok cs ->
  forall apis : ModuleApis,
    let r := executeSearch JSON_parse apis p st now now' in
    (exists rest,
        trace r
        = ([EvAbortSignal; EvExclusionSets; EvLocalSearch;
            EvDispatch (updateResults (clientResults cs) true)]
           ++ map EvModuleCall (moduleCalls (trace r)) ++ rest)%list
        /\ moduleCalls rest = [])
    /\ (forall rs fromCache,
          outcome r = Fulfilled rs fromCache ->
          fromCache = false
          /\ dispatched (trace r)
             = [updateResults (clientResults cs) true;
                setCacheEntry (cacheKey (parsedQuery p))
                  {| c_results := rs; c_timestamp := now';
                     c_activeCategory := activeCategory p |}]
          /\ (maxResults p = None ->
              exists remote, rs = (clientResults cs ++ remote)%list)).
Proof.
  intros logged Hmiss Hsets Hcs apis r. subst r.
  rewrite executeSearch_miss by exact Hmiss.
  destruct (runPipeline_local_ok JSON_parse apis p now' sets cs Hsets Hcs) as (Ho & Hm & Hd).
  split.
  - rewrite Hm. unfold runPipeline. fold logged. rewrite Hsets, Hcs. cbn [trace].
    eexists. split; [reflexivity|]. reflexivity.
  - intros rs fromCache Hout. rewrite Ho in Hout. injection Hout as <- <-.
    split; [reflexivity|]. split; [exact Hd|].
    intros Hcap. rewrite Hcap. cbn [capResults]. unfold mergeResults. now eexists.
Qed.

(** Remote modules that fail or answer with no array: the partial update
    with the three local results still comes first. *)
Lemma local_results_published_first_witness :
  let failing :=
    {| globalsearch := fun _ => Failed (TypeError "network");
       moduleApi := fun _ => Some (fun _ => Resolved JNull) |} in
  let r := executeSearch Example.noJSON failing (Example.payload "al" "all" None)
             Example.emptyStore 1000 2000 in
  exists cs rest,
    runClientSearch Example.noJSON [Example.chatAlice; Example.channelAlpha]
      [Example.userAlan] "al" (JStr "2") = Ok cs
    /\ length (clientResults cs) = 3%nat
    /\ trace r
       = ([EvAbortSignal; EvExclusionSets; EvLocalSearch;
           EvDispatch (updateResults (clientResults cs) true)]
          ++ map EvModuleCall (moduleCalls (trace r)) ++ rest)%list.
Proof.
  intros failing r.
  destruct (buildExclusionSets Example.noJSON
              (chats (clientData (Example.payload "al" "all" None)))
              (users (clientData (Example.payload "al" "all" None)))
              (Js.opt_prop (loggedUser (Example.payload "al" "all" None)) "Zuid"))
    as [sets|] eqn:Es; [|vm_compute in Es; discriminate].
  destruct (runClientSearch Example.noJSON
              (chats (clientData (Example.payload "al" "all" None)))
              (users (clientData (Example.payload "al" "all" None)))
              (toLowerCase (trimmed (parsedQuery (Example.payload "al" "all" None))))
              (Js.opt_prop (loggedUser (Example.payload "al" "all" None)) "Zuid"))
    as [cs|] eqn:Ec; [|vm_compute in Ec; discriminate].
  destruct (local_results_published_first Example.noJSON (Example.payload "al" "all" None)
              Example.emptyStore 1000 2000 sets cs eq_refl Es Ec failing)
    as ((rest & Ht & _) & _).
  exists cs, rest. split; [exact Ec|]. split; [|exact Ht].
  vm_compute in Ec. injection Ec as <-. reflexivity.
Defined.

End FanOutTheorems.

(** ** searchSlice.js: growing the client data *)

Section Enrichment.
Import Slice Spec.

Lemma enrich_fold (idField : string) (items l0 : list jsval) (s0 : gset string) :
  exists added,
    fst (fold_left (enrichStep idField) items (l0, s0)) = (l0 ++ added)%list
    /\ appendedFrom idField s0 items added.
Proof.
  revert l0 s0. induction items as [|x items IH]; intros l0 s0; cbn [fold_left].
  - exists []. cbn [fst]. rewrite app_nil_r. split; [reflexivity|].
    split; [constructor|]. split; [constructor|]. split; [constructor|].
    intros y Hy. inversion Hy.
  - unfold enrichStep at 2. cbn [fst snd]. fold (idText idField x).
    destruct (Js.truthy (Js.field x idField)) eqn:Et; cbn [andb].
    + destruct (bool_decide (idText idField x ∈ s0)) eqn:Ein; cbn [negb].
      * apply bool_decide_eq_true in Ein.
        destruct (IH l0 s0) as (added & Hl & Hsub & Hall & Hnd & Hcov).
        exists added. split; [exact Hl|]. repeat split; try assumption.
        -- now apply sublist_cons.
        -- intros y Hy Hti. apply elem_of_cons in Hy as [->|Hy]; [now left|].
           now apply Hcov.
      * apply bool_decide_eq_false in Ein.
        destruct (IH (l0 ++ [x])%list ({[ idText idField x ]} ∪ s0))
          as (added & Hl & Hsub & Hall & Hnd & Hcov).
        exists (x :: added). split; [rewrite Hl; now rewrite <- app_assoc|].
        rewrite Forall_forall in Hall. repeat split.
        -- now apply sublist_skip.
        -- constructor; [now split|]. apply Forall_forall. intros y Hy.
           destruct (Hall y Hy) as [Hti Hni]. split; [exact Hti|].
           intros Hin. apply Hni. apply elem_of_union. now right.
        -- cbn [map]. apply NoDup_cons. split; [|exact Hnd].
           intros Hin. apply list_elem_of_In, in_map_iff in Hin as (y & Heq & Hy).
           apply list_elem_of_In in Hy. destruct (Hall y Hy) as [_ Hni].
           apply Hni. apply elem_of_union. left. apply elem_of_singleton. exact Heq.
        -- intros y Hy Hti. cbn [map]. apply elem_of_cons in Hy as [->|Hy].
           ++ right. apply elem_of_cons. now left.
           ++ destruct (Hcov y Hy Hti) as [Hk|Hk].
              ** apply elem_of_union in Hk as [Hk|Hk]; [|now left].
                 apply elem_of_singleton in Hk. right. apply elem_of_cons. now left.
              ** right. apply elem_of_cons. now right.
    + destruct (IH l0 s0) as (added & Hl & Hsub & Hall & Hnd & Hcov).
      exists added. split; [exact Hl|]. repeat split; try assumption.
      * now apply sublist_cons.
      * intros y Hy Hti. apply elem_of_cons in Hy as [->|Hy]; [congruence|].
        now apply Hcov.
Qed.

Lemma enrichClientData_spec (chats users : list jsval) (sets : ExclusionSets)
  (captured : Captured) :
  exists addedChats addedUsers,
    enrichClientData chats users sets captured
    = ((chats ++ addedChats)%list, (users ++ addedUsers)%list)
    /\ appendedFrom "chatid" (fst sets) (globalSearchResults captured) addedChats
    /\ appendedFrom "zuid" (snd sets) (usersApiResults captured) addedUsers.
Proof.
  destruct (enrich_fold "chatid" (globalSearchResults captured) chats (fst sets))
    as (ac & Hc & Hac).
  destruct (enrich_fold "zuid" (usersApiResults captured) users (snd sets))
    as (au & Hu & Hau).
  exists ac, au. unfold enrichClientData. now rewrite Hc, Hu.
Qed.

End Enrichment.

Section EnrichmentTheorems.
Import Slice Spec.

(** X19.  [enrichClientData] only appends: the chats and users of the
    client data stay in place as a prefix.  It appends, in their order, the
    records of the global search with a truthy [chatid] that is not in the
    chat set, and the records of the users module with a truthy [zuid] that
    is not in the user set, each identifier once; afterwards every
    identifier of the two sources is known or appended. *)
Theorem enrichClientData_appends (chats users : list jsval) (sets : ExclusionSets)
  (captured : Captured) :
  exists addedChats addedUsers,
    enrichClientData chats users sets captured
    = ((chats ++ addedChats)%list, (users ++ addedUsers)%list)
    /\ appendedFrom "chatid" (fst sets) (globalSearchResults captured) addedChats
    /\ appendedFrom "zuid" (snd sets) (usersApiResults captured) addedUsers.
Proof. apply enrichClientData_spec. Qed.

Lemma enrichClientData_appends_witness :
  exists addedChats addedUsers,
    enrichClientData [Example.channelAlpha] [Example.userAlan] ({[ "c9" ]}, {[ "3" ]})
      {| globalSearchResults :=
           [Example.channelAlpha; JObj [("chatid", JStr "c5")];
            JObj [("chatid", JStr "c5"); ("title", JStr "again")]; JObj []];
         usersApiResults := [Example.userAlan; Example.userAlma] |}
    = (([Example.channelAlpha] ++ addedChats)%list, ([Example.userAlan] ++ addedUsers)%list)
    /\ addedChats = [JObj [("chatid", JStr "c5")]]
    /\ addedUsers = [Example.userAlma].
Proof.
  destruct (enrichClientData_appends [Example.channelAlpha] [Example.userAlan]
              ({[ "c9" ]}, {[ "3" ]})
              {| globalSearchResults :=
                   [Example.channelAlpha; JObj [("chatid", JStr "c5")];
                    JObj [("chatid", JStr "c5"); ("title", JStr "again")]; JObj []];
                 usersApiResults := [Example.userAlan; Example.userAlma] |})
    as (ac & au & E & _ & _).
  exists ac, au. split; [exact E|].
  vm_compute in E. injection E as <- <-. now split.
Defined.

(** An invocation never removes or reorders the client data it was
    given: after any run, be it a cache hit, a failure or a completed
    pipeline, the original chats and users are a prefix of the chats and
    users it leaves. *)
Theorem executeSearch_client_data_grows
  (JSON_parse : string -> option jsval) (apis : ModuleApis) (p : Payload)
  (st : SearchState) (now now' : Z) :
  let r := executeSearch JSON_parse apis p st now now' in
  chats (clientData p) `prefix_of` chats (data r)
  /\ users (clientData p) `prefix_of` users (data r).
Proof.
  intros r. subst r. unfold executeSearch.
  destruct (cacheHit st p now); [now split|].
  unfold runPipeline.
  destruct (buildExclusionSets _ _ _ _) as [sets|]; [|now split].
  destruct (runClientSearch _ _ _ _ _) as [cs|]; [|now split].
  cbn [data chats users].
  match goal with
  | |- context [enrichClientData ?c ?u ?s ?k] =>
      destruct (enrichClientData_spec c u s k) as (ac & au & -> & _ & _)
  end.
  cbn [fst snd]. split; [now exists ac|now exists au].
Qed.

End EnrichmentTheorems.

Section DistinctIds.
Import Slice Spec.

Lemma buildExclusionSets_chat_ids JSON_parse (chats users : list jsval) logged sets :
  buildExclusionSets JSON_parse chats users logged = Ok sets ->
  forall c, c ∈ chats -> Js.truthy (Js.field c "chatid") = true ->
            idText "chatid" c ∈ fst sets.
Proof.
  unfold buildExclusionSets. intros H c Hc Ht.
  destruct (forEachM (excludeChat JSON_parse logged) (∅, ∅) chats) as [s0|] eqn:E0;
    [|discriminate].
  cbn [bind] in H.
  destruct (chats_excluded JSON_parse logged chats s0 E0) as (Hchat & _).
  destruct (users_excluded users s0 sets H) as (-> & _).
  apply Hchat. now exists c.
Qed.

(** X21.  Distinct chat identifiers stay distinct: when every chat of the
    client data has a truthy [chatid] and no two share it (read as text),
    the same holds of the chats an invocation leaves, whatever the global
    search returned. *)
Theorem executeSearch_chat_ids_stay_distinct
  (JSON_parse : string -> option jsval) (apis : ModuleApis) (p : Payload)
  (st : SearchState) (now now' : Z) :
  Forall (fun c => Js.truthy (Js.field c "chatid") = true) (chats (clientData p)) ->
  NoDup (map (idText "chatid") (chats (clientData p))) ->
  let r := executeSearch JSON_parse apis p st now now' in
  Forall (fun c => Js.truthy (Js.field c "chatid") = true) (chats (data r))
  /\ NoDup (map (idText "chatid") (chats (data r))).
Proof.
  intros Htruthy Hnd r. subst r. unfold executeSearch.
  destruct (cacheHit st p now); [now split|].
  unfold runPipeline.
  destruct (buildExclusionSets _ _ _ _) as [sets|] eqn:Esets; [|now split].
  destruct (runClientSearch _ _ _ _ _) as [cs|]; [|now split].
  cbn [data chats].
  match goal with
  | |- context [enrichClientData ?c ?u ?s ?k] =>
      destruct (enrichClientData_spec c u s k) as (ac & au & -> & (_ & Hall & Hnew & _) & _)
  end.
  cbn [fst]. split.
  - apply Forall_app. split; [exact Htruthy|].
    eapply Forall_impl; [exact Hall|]. now intros c [Hc _].
  - rewrite map_app. apply NoDup_app. split; [exact Hnd|]. split; [|exact Hnew].
    intros id Hid Hid'.
    apply list_elem_of_In, in_map_iff in Hid as (c & <- & Hc). apply list_elem_of_In in Hc.
    apply list_elem_of_In, in_map_iff in Hid' as (a & Heq & Ha). apply list_elem_of_In in Ha.
    rewrite Forall_forall in Hall, Htruthy. destruct (Hall a Ha) as [_ Hnot].
    apply Hnot. rewrite Heq.
    eapply buildExclusionSets_chat_ids; [exact Esets|exact Hc|now apply Htruthy].
Qed.

Lemma executeSearch_chat_ids_stay_distinct_witness :
  NoDup (map (idText "chatid")
           (chats (data (executeSearch Example.noJSON Example.apis
                           (Example.payload "al" "all" None) Example.emptyStore 1000 2000)))).
Proof.
  apply (executeSearch_chat_ids_stay_distinct Example.noJSON Example.apis
           (Example.payload "al" "all" None) Example.emptyStore 1000 2000).
  - repeat constructor.
  - apply (bool_decide_unpack _). vm_compute. exact I.
Defined.

End DistinctIds.

(** ** searchSlice.js: the cache over time *)

Section CacheTheorems.
Import QueryParser Slice Spec.

(** X22.  What a completed search caches is reused: a later invocation with
    the same lower-cased trimmed text and the same category, less than ten
    minutes after the entry was written, returns the cached list marked as
    from the cache, without any step of the pipeline, whatever its filters,
    its client data and the remote modules are by then.  From ten minutes on
    the entry no longer counts and the pipeline runs again. *)
Theorem cached_results_are_reused
  (JSON_parse : string -> option jsval) (apis1 apis2 : ModuleApis)
  (p1 p2 : Payload) (st : SearchState) (t1 t1' t2 t2' : Z) (rs : list jsval) :
  let r1 := executeSearch JSON_parse apis1 p1 st t1 t1' in
  let st1 := storeAfter st r1 in
  let r2 := executeSearch JSON_parse apis2 p2 st1 t2 t2' in
  outcome r1 = Fulfilled rs false ->
  cacheKey (parsedQuery p2) = cacheKey (parsedQuery p1) ->
  activeCategory p2 = activeCategory p1 ->
  (t2 - t1' < CACHE_TIMEOUT_MS ->
   outcome r2 = Fulfilled rs true /\ trace r2 = [] /\ data r2 = clientData p2)
  /\ (CACHE_TIMEOUT_MS <= t2 - t1' -> r2 = runPipeline JSON_parse apis2 p2 t2').
Proof.
  intros r1 st1 r2 Hout Hkey Hcat.
  destruct (executeSearch_fulfilled_fresh JSON_parse apis1 p1 st t1 t1' rs Hout)
    as (_ & sets & cs & _ & _ & _ & Hd).
  pose proof (storeAfter_cache st r1 _ _ _ _ Hd) as Hcache. fold st1 in Hcache.
  assert (cache st1 !! cacheKey (parsedQuery p2)
          = Some {| c_results := rs; c_timestamp := t1';
                    c_activeCategory := activeCategory p1 |}) as Hlook
    by (rewrite Hcache, Hkey; apply lookup_insert_eq).
  split.
  - intros Hfresh.
    assert (cacheHit st1 p2 t2
            = Some {| c_results := rs; c_timestamp := t1';
                      c_activeCategory := activeCategory p1 |}) as Hhit
      by (apply cacheHit_Some; now repeat split).
    subst r2. unfold executeSearch. rewrite Hhit. now repeat split.
  - intros Hold. subst r2. apply executeSearch_miss.
    unfold cacheHit. rewrite Hlook. cbn [c_activeCategory c_timestamp].
    assert ((t2 - t1' <? CACHE_TIMEOUT_MS) = false) as -> by now apply Z.ltb_ge.
    now rewrite andb_false_r.
Qed.

Lemma cached_results_are_reused_witness :
  let r1 := executeSearch Example.noJSON Example.apis (Example.payload "al" "all" None)
              Example.emptyStore 1000 2000 in
  let st1 := storeAfter Example.emptyStore r1 in
  let p2 := {| parsedQuery := parseQuery "AL from:bob"; activeCategory := "all";
               clientData := {| chats := []; users := [] |};
               enabledModules := []; moduleWeights := ∅; scorerConfig := None;
               resolveFields := Example.titleAndName;
               resolveDedupKey := Example.moduleAndId;
               maxResults := None; loggedUser := JUndefined |} in
  exists rs,
    outcome r1 = Fulfilled rs false
    /\ outcome (executeSearch Example.noJSON Example.apis p2 st1 601999 602000)
       = Fulfilled rs true.
Proof.
  intros r1 st1 p2.
  destruct (outcome r1) as [rs [|]| | |] eqn:E; try (vm_compute in E; discriminate).
  exists rs. split; [reflexivity|].
  refine (proj1 (proj1 (cached_results_are_reused Example.noJSON Example.apis Example.apis
                          (Example.payload "al" "all" None) p2 Example.emptyStore
                          1000 2000 601999 602000 rs E _ _) _)).
  - vm_compute. reflexivity.
  - reflexivity.
  - vm_compute. reflexivity.
Defined.

(** X23.  An invocation that misses the cache and fails in a local step,
    building the exclusion sets or searching the client data, made no remote
    call and dispatched nothing: it ends in an error, the store keeps its cache and its results,
    the loading flag is cleared and an error message is set, and the client
    data is as it was. *)
Theorem failed_search_keeps_store
  (JSON_parse : string -> option jsval) (apis : ModuleApis) (p : Payload)
  (st : SearchState) (now now' : Z) (e : JsError) :
  let logged := Js.opt_prop (loggedUser p) "Zuid" in
  let r := executeSearch JSON_parse apis p st now now' in
  cacheHit st p now = None ->
  buildExclusionSets JSON_parse (chats (clientData p)) (users (clientData p)) logged
  = Throw e
  \/ runClientSearch JSON_parse (chats (clientData p)) (users (clientData p))
       (toLowerCase (trimmed (parsedQuery p))) logged = Throw e ->
  isRejection (outcome r)
  /\ moduleCalls (trace r) = []
  /\ dispatched (trace r) = []
  /\ cache (storeAfter st r) = cache st
  /\ results (storeAfter st r) = results st
  /\ isLoading (storeAfter st r) = false
  /\ (exists msg, error (storeAfter st r) = Some msg)
  /\ data r = clientData p.
Proof.
  intros logged r Hmiss Hfail. subst r. unfold executeSearch. rewrite Hmiss.
  unfold runPipeline, storeAfter. fold logged.
  destruct (buildExclusionSets _ _ _ _) as [sets|e0].
  - destruct Hfail as [Hb|Hc]; [discriminate Hb|]. rewrite Hc. cbn [outcome trace data].
    rewrite (caught_TypeError e (runClientSearch_throws_TypeError JSON_parse _ _ _ _ e Hc)).
    cbn. repeat split. now eexists.
  - cbn. repeat split. now eexists.
Qed.

(** A chat without a title makes the local search throw: the entry cached
    for [al] stays. *)
Lemma failed_search_keeps_store_witness :
  let p := {| parsedQuery := parseQuery "al"; activeCategory := "all";
              clientData := {| chats := [JObj [("chatid", JStr "c1")]]; users := [] |};
              enabledModules := []; moduleWeights := ∅; scorerConfig := None;
              resolveFields := Example.titleAndName;
              resolveDedupKey := Example.moduleAndId;
              maxResults := None; loggedUser := JUndefined |} in
  let r := executeSearch Example.noJSON Example.apis p Example.cachedStore 700000 700001 in
  isRejection (outcome r)
  /\ cache (storeAfter Example.cachedStore r) = cache Example.cachedStore.
Proof.
  intros p r.
  destruct (runClientSearch Example.noJSON (chats (clientData p)) (users (clientData p))
              (toLowerCase (trimmed (parsedQuery p))) (Js.opt_prop (loggedUser p) "Zuid"))
    as [cs|e] eqn:Ec; [vm_compute in Ec; discriminate|].
  destruct (failed_search_keeps_store Example.noJSON Example.apis p
              Example.cachedStore 700000 700001 e) as (H1 & _ & _ & H2 & _).
  - vm_compute. reflexivity.
  - right. exact Ec.
  - split; [exact H1|exact H2].
Defined.

(** X24.  Sweeping the cache at time [now] keeps exactly the entries
    younger than ten minutes at that time, unchanged, and removes the
    others; it never changes what a lookup at the time of the sweep or
    later finds. *)
Theorem clearExpiredCache_keeps_live_entries (st : SearchState) (now : Z) :
  let st' := reducer st (clearExpiredCache now) in
  (forall key entry,
     cache st' !! key = Some entry <->
     cache st !! key = Some entry /\ now - c_timestamp entry < CACHE_TIMEOUT_MS)
  /\ (forall p later, now <= later -> cacheHit st' p later = cacheHit st p later)
  /\ results st' = results st.
Proof.
  intros st'. subst st'. cbn [reducer cache results].
  assert (forall key entry,
            filter (fun kv : string * CacheEntry =>
                      now - c_timestamp (snd kv) < CACHE_TIMEOUT_MS) (cache st) !! key
            = Some entry <->
            cache st !! key = Some entry /\ now - c_timestamp entry < CACHE_TIMEOUT_MS) as Hf.
  { intros key entry. now rewrite map_lookup_filter_Some. }
  split; [exact Hf|]. split; [|reflexivity].
  intros p later Hlater. unfold cacheHit. cbn [cache].
  destruct (cache st !! cacheKey (parsedQuery p)) as [e|] eqn:Ee.
  - destruct (Z.lt_ge_cases (now - c_timestamp e) CACHE_TIMEOUT_MS) as [Hlive|Hdead].
    + now rewrite (proj2 (Hf _ e) (conj Ee Hlive)).
    + assert ((later - c_timestamp e <? CACHE_TIMEOUT_MS) = false) as ->
        by (apply Z.ltb_ge; lia).
      rewrite andb_false_r.
      destruct (filter _ (cache st) !! cacheKey (parsedQuery p)) as [e'|] eqn:Ef;
        [|reflexivity].
      apply Hf in Ef as [Ee' Hlive]. rewrite Ee in Ee'. injection Ee' as <-. lia.
  - destruct (filter _ (cache st) !! cacheKey (parsedQuery p)) as [e'|] eqn:Ef;
      [|reflexivity].
    apply Hf in Ef as [Ee' _]. congruence.
Qed.

Lemma clearExpiredCache_keeps_live_entries_witness :
  cacheHit (reducer Example.cachedStore (clearExpiredCache 1000))
    (Example.payload "al" "all" None) 2000
  = Some Example.cachedEntry
  /\ cache (reducer Example.cachedStore (clearExpiredCache 600000)) !! "al" = None.
Proof.
  destruct (clearExpiredCache_keeps_live_entries Example.cachedStore 1000) as (_ & Hhit & _).
  destruct (clearExpiredCache_keeps_live_entries Example.cachedStore 600000) as (Hkeep & _).
  split.
  - rewrite Hhit by lia. vm_compute. reflexivity.
  - destruct (cache (reducer Example.cachedStore (clearExpiredCache 600000)) !! "al")
      as [e|] eqn:E; [|reflexivity].
    apply Hkeep in E as [E Hlive]. vm_compute in E. injection E as <-.
    vm_compute in Hlive. discriminate.
Defined.

End CacheTheorems.

(** ** searchSlice.js: history, highlight and category counts *)

Section ViewFacts.
Import Slice Spec.

Lemma slice0_MAX_HISTORY {A} (l : list A) : Js.slice0 MAX_HISTORY l = firstn 20 l.
Proof. reflexivity. Qed.

Lemma filter_sublist {A} (f : A -> bool) (l : list A) : sublist (List.filter f l) l.
Proof.
  induction l as [|x l IH]; cbn [List.filter]; [constructor|].
  destruct (f x); [now apply sublist_skip|now apply sublist_cons].
Qed.

Lemma filter_all {A} (f : A -> bool) (l : list A) :
  (forall x, x ∈ l -> f x = true) -> List.filter f l = l.
Proof.
  induction l as [|x l IH]; intros H; cbn [List.filter]; [reflexivity|].
  rewrite (H x) by (apply elem_of_cons; now left). f_equal. apply IH.
  intros y Hy. apply H. apply elem_of_cons. now right.
Qed.

Lemma filter_ne_elem (q : string) (h : list string) x :
  x ∈ List.filter (fun y => negb (String.eqb y q)) h -> x ∈ h /\ x <> q.
Proof.
  intros H. apply list_elem_of_In, filter_In in H as [Hin Hne].
  split; [now apply list_elem_of_In|]. now apply negb_true_iff, String.eqb_neq in Hne.
Qed.

Lemma addToHistory_unfold (h : list string) (s : string) :
  trim s <> "" ->
  addToHistory h (Some s)
  = trim s :: firstn 19 (List.filter (fun y => negb (String.eqb y (trim s))) h).
Proof.
  intros Hq. unfold addToHistory. apply nonempty_true in Hq. rewrite Hq.
  now rewrite slice0_MAX_HISTORY.
Qed.

Lemma selectFilteredResults_filter (rs : list jsval) (category : string) :
  List.filter (fun r => String.eqb category "all" || ofCategory category r) rs
  = selectFilteredResults rs category.
Proof.
  unfold selectFilteredResults. destruct (String.eqb category "all"); cbn [orb].
  - apply filter_all. reflexivity.
  - reflexivity.
Qed.

Lemma countStep_fold (category : string) (rs : list jsval) (counts : gmap string Z) :
  Forall (fun r => stringOrAbsent (Js.field r "_module")) rs ->
  category <> "" ->
  default 0 (fold_left countStep rs counts !! category)
  = default 0 (counts !! category)
    + Z.of_nat (length (List.filter (ofCategory category) rs)).
Proof.
  intros Hrs Hcat. revert counts.
  induction Hrs as [|r rs Hr _ IH]; intros counts; cbn [fold_left List.filter length].
  - lia.
  - rewrite IH. unfold countStep, ofCategory.
    destruct Hr as [Hfalsy|(m & Hm)].
    + rewrite Hfalsy.
      assert (Js.strict_eq (Js.field r "_module") (JStr category) = false) as ->.
      { destruct (Js.field r "_module") as [| | | |m| |]; try reflexivity.
        cbn [Js.strict_eq]. apply String.eqb_neq. intros ->.
        cbn in Hfalsy. apply nonempty_false in Hfalsy. congruence. }
      reflexivity.
    + rewrite Hm. cbn [Js.strict_eq Js.String_ Js.truthy].
      destruct (nonempty m) eqn:Ene.
      * destruct (String.eqb_spec m category) as [->|Hne].
        -- rewrite lookup_insert_eq. cbn [from_option length]. unfold id. lia.
        -- rewrite lookup_insert_ne by exact Hne. reflexivity.
      * apply nonempty_false in Ene. subst m.
        destruct (String.eqb_spec "" category) as [<-|Hne]; [congruence|reflexivity].
Qed.

End ViewFacts.

Section ViewTheorems.
Import Slice Spec.

(** X25.  [addToHistory] with a text that is not blank puts the trimmed
    text first, keeps the other entries in their order without any copy of
    it, and cuts the list to twenty entries; a list without repetitions
    stays so, and adding the same text again changes nothing.  A blank or
    missing text leaves the history as it is. *)
Theorem addToHistory_most_recent_first (searchHistory : list string) (s : string) :
  let q := trim s in
  let next := addToHistory searchHistory (Some s) in
  (q = "" -> next = searchHistory)
  /\ addToHistory searchHistory None = searchHistory
  /\ (q <> "" ->
      hd_error next = Some q
      /\ (length next <= 20)%nat
      /\ (q ∉ tail next)
      /\ sublist (tail next) searchHistory
      /\ (NoDup searchHistory -> NoDup next)
      /\ addToHistory next (Some s) = next).
Proof.
  intros q next. split; [|split; [reflexivity|]].
  - intros Hq. subst next. unfold addToHistory. fold q. now rewrite Hq.
  - intros Hq. subst next. rewrite (addToHistory_unfold searchHistory s Hq). fold q.
    set (rest := List.filter (fun y => negb (String.eqb y q)) searchHistory).
    assert (q ∉ firstn 19 rest) as Hnotin.
    { intros Hin. apply (elem_of_sublist _ rest) in Hin; [|apply sublist_take].
      now apply filter_ne_elem in Hin as [_ Hne]. }
    assert (sublist (firstn 19 rest) searchHistory) as Hsub.
    { etransitivity; [apply sublist_take|apply filter_sublist]. }
    cbn [hd_error tail length]. repeat split.
    + pose proof (firstn_length_le 19 rest). lia.
    + exact Hnotin.
    + exact Hsub.
    + intros Hnd. apply NoDup_cons. split; [exact Hnotin|].
      now apply (sublist_NoDup _ searchHistory).
    + rewrite (addToHistory_unfold _ s Hq). fold q. f_equal.
      cbn [List.filter]. rewrite String.eqb_refl. cbn [negb].
      rewrite filter_all.
      * apply firstn_all2. pose proof (firstn_length_le 19 rest). lia.
      * intros x Hx. apply negb_true_iff, String.eqb_neq. intros ->. contradiction.
Qed.

Lemma addToHistory_most_recent_first_witness :
  addToHistory ["alice"; "bob"; "carol"] (Some "  bob ") = ["bob"; "alice"; "carol"]
  /\ NoDup (addToHistory ["alice"; "bob"; "carol"] (Some "  bob ")).
Proof.
  destruct (addToHistory_most_recent_first ["alice"; "bob"; "carol"] "  bob ")
    as (_ & _ & H).
  destruct H as (_ & _ & _ & _ & Hnd & _); [vm_compute; discriminate|].
  split; [vm_compute; reflexivity|].
  apply Hnd. apply (bool_decide_unpack _). vm_compute. exact I.
Defined.

(** X26.  After [moveHighlight] the highlighted index is [-1] or the index
    of a result shown under the active category, whatever the index was and
    whatever step was asked for; so the highlighted result is then [null]
    or one of the results shown, never [undefined]. *)
Theorem moveHighlight_in_range (results : list jsval) (activeCategory : string)
  (highlightedIndex payload : Z) :
  let next := moveHighlight results activeCategory highlightedIndex payload in
  let shown := selectFilteredResults results activeCategory in
  -1 <= next <= Z.of_nat (length shown) - 1
  /\ ((next = -1 /\ selectHighlightedResult results activeCategory next = JNull)
      \/ selectHighlightedResult results activeCategory next ∈ shown).
Proof.
  intros next shown. subst next. unfold moveHighlight.
  rewrite selectFilteredResults_filter. fold shown.
  set (next := Z.max (-1) (Z.min (highlightedIndex + payload) (Z.of_nat (length shown) - 1))).
  assert (-1 <= next <= Z.of_nat (length shown) - 1) as Hrange by (subst next; lia).
  split; [exact Hrange|].
  unfold selectHighlightedResult. fold shown.
  destruct (0 <=? next) eqn:Epos.
  - right. apply Z.leb_le in Epos.
    destruct (nth_error shown (Z.to_nat next)) as [r|] eqn:Enth.
    + now apply list_elem_of_In, (nth_error_In _ (Z.to_nat next)).
    + exfalso. apply nth_error_None in Enth. lia.
  - left. apply Z.leb_gt in Epos. split; [lia|reflexivity].
Qed.

Lemma moveHighlight_in_range_witness :
  moveHighlight [JObj [("_module", JStr "users")]; JObj [("_module", JStr "chats")]]
    "users" 0 5 = 0
  /\ selectHighlightedResult
       [JObj [("_module", JStr "users")]; JObj [("_module", JStr "chats")]] "users" 0
     = JObj [("_module", JStr "users")].
Proof.
  pose proof (moveHighlight_in_range
                [JObj [("_module", JStr "users")]; JObj [("_module", JStr "chats")]]
                "users" 0 5) as (Hrange & _).
  assert (moveHighlight [JObj [("_module", JStr "users")]; JObj [("_module", JStr "chats")]]
            "users" 0 5 = 0) as E.
  { cbv zeta in Hrange.
    change (Z.of_nat (length (selectFilteredResults
              [JObj [("_module", JStr "users")]; JObj [("_module", JStr "chats")]]
              "users")) - 1) with 0 in Hrange.
    assert (0 <= moveHighlight
                   [JObj [("_module", JStr "users")]; JObj [("_module", JStr "chats")]]
                   "users" 0 5) by (vm_compute; discriminate).
    lia. }
  split; [exact E|]. vm_compute. reflexivity.
Defined.

(** X27.  The category counts agree with the category filter.  Take results
    whose [_module] is a string or absent and names no member of
    [Object.prototype], and a category that names none either.  The count
    stored for a category other than [all] is the number of results the
    filter shows for it, zero standing for no entry.  The entry [all] holds
    the number of results, plus the number of results whose module is itself
    named [all]. *)
Theorem selectCategoryCounts_agree (results : list jsval) (category : string) :
  Forall (fun r => stringOrAbsent (Js.field r "_module")) results ->
  Forall plainModule results ->
  inherited category = false ->
  category <> "" ->
  let counts := selectCategoryCounts results in
  (category <> "all" ->
   default 0 (counts !! category)
   = Z.of_nat (length (selectFilteredResults results category)))
  /\ default 0 (counts !! "all")
     = Z.of_nat (length results)
       + Z.of_nat (length (List.filter (ofCategory "all") results)).
Proof.
  intros Hrs _ _ Hcat counts. subst counts. unfold selectCategoryCounts. split.
  - intros Hall. rewrite (countStep_fold category results _ Hrs Hcat).
    rewrite lookup_singleton_ne by congruence. cbn [default].
    unfold selectFilteredResults.
    assert (String.eqb category "all" = false) as -> by now apply String.eqb_neq.
    lia.
  - rewrite (countStep_fold "all" results _ Hrs) by discriminate.
    now rewrite lookup_singleton_eq.
Qed.

Lemma selectCategoryCounts_agree_witness :
  default 0 (selectCategoryCounts
               [JObj [("_module", JStr "users")]; JObj [("_module", JStr "chats")];
                JObj [("_module", JStr "users")]; JObj []] !! "users")
  = 2.
Proof.
  destruct (selectCategoryCounts_agree
              [JObj [("_module", JStr "users")]; JObj [("_module", JStr "chats")];
               JObj [("_module", JStr "users")]; JObj []] "users") as (H & _).
  - repeat (apply Forall_cons; split; [first [right; eexists; reflexivity | left; reflexivity]|]).
    apply Forall_nil_2.
  - repeat (apply Forall_cons; split; [reflexivity|]). apply Forall_nil_2.
  - reflexivity.
  - discriminate.
  - rewrite H by discriminate. vm_compute. reflexivity.
Defined.

End ViewTheorems.

(** ** searchSlice.js: the default key *)

Section DefaultKey.
Import Slice Spec.

Lemma field_not_nullish (v : jsval) (k : string) :
  Js.field v k <> JUndefined -> Js.nullish v = false.
Proof. destruct v; try reflexivity; intros H; now contradiction H. Qed.

Lemma toLowerCase_nonempty (s : string) : s <> "" -> toLowerCase s <> "".
Proof. destruct s; [congruence|discriminate]. Qed.

Lemma getDefaultDedupKey_person random item name :
  Js.field item "_module" = JStr "users" ->
  personName item = JStr name -> name <> "" ->
  getDefaultDedupKey random item = Ok ("users::name::" ++ toLowerCase name)%string.
Proof.
  intros Hm Hn Hne. unfold getDefaultDedupKey.
  rewrite prop_Ok by (apply (field_not_nullish _ "_module"); now rewrite Hm).
  cbn [bind]. fold (personName item). rewrite Hm, Hn. cbn [Js.strict_eq Js.truthy].
  apply nonempty_true in Hne. rewrite Hne. reflexivity.
Qed.

Lemma getDefaultDedupKey_record random item m :
  Js.field item "_module" = JStr m ->
  namedPerson item = false ->
  Js.nullish (Js.field item "id") = false ->
  getDefaultDedupKey random item = Ok (m ++ "::" ++ idText "id" item)%string.
Proof.
  intros Hm Hn Hid. unfold getDefaultDedupKey.
  rewrite prop_Ok by (apply (field_not_nullish _ "_module"); now rewrite Hm).
  cbn [bind]. fold (personName item). fold (namedPerson item). rewrite Hn, Hm.
  unfold Js.coalesce at 1. cbn [Js.nullish Js.String_].
  unfold Js.coalesce at 1. rewrite Hid. reflexivity.
Qed.

Lemma separator_injective (a b x y : string) :
  includes ":" a = false -> includes ":" b = false ->
  (a ++ "::" ++ x)%string = (b ++ "::" ++ y)%string -> a = b /\ x = y.
Proof.
  revert b. induction a as [|c a IH]; intros b Ha Hb H.
  - destruct b as [|d b].
    + cbn in H. split; [reflexivity|]. now injection H.
    + exfalso. cbn in H. injection H as <- _. rewrite includes_cons in Hb. discriminate.
  - destruct b as [|d b].
    + exfalso. cbn in H. injection H as -> _. rewrite includes_cons in Ha. discriminate.
    + cbn [String.append] in H. injection H as <- H.
      rewrite includes_cons in Ha, Hb.
      apply orb_false_iff in Ha as [_ Ha]. apply orb_false_iff in Hb as [_ Hb].
      destruct (IH b Ha Hb H) as [-> ->]. now split.
Qed.

End DefaultKey.

Section DefaultKeyTheorems.
Import Slice Spec.

(** X28.  The default key of a record tagged [users] that has a name (the
    first truthy of [full_name], [name], [title], a string) is made of the
    lower-cased name alone: two such records whose names differ at most in
    case have the same key, whatever their identifiers and sources, and no
    random number enters it. *)
Theorem getDefaultDedupKey_same_person (r1 r2 a b : jsval) (na nb : string) :
  Js.field a "_module" = JStr "users" ->
  Js.field b "_module" = JStr "users" ->
  personName a = JStr na -> personName b = JStr nb ->
  na <> "" -> toLowerCase na = toLowerCase nb ->
  getDefaultDedupKey r1 a = Ok ("users::name::" ++ toLowerCase na)%string
  /\ getDefaultDedupKey r2 b = getDefaultDedupKey r1 a.
Proof.
  intros Ha Hb Hna Hnb Hne Heq.
  assert (nb <> "") as Hne'.
  { intros ->. apply (toLowerCase_nonempty na Hne). now rewrite Heq. }
  rewrite (getDefaultDedupKey_person r1 a na Ha Hna Hne).
  rewrite (getDefaultDedupKey_person r2 b nb Hb Hnb Hne'). now rewrite Heq.
Qed.

Lemma getDefaultDedupKey_same_person_witness :
  getDefaultDedupKey (JInt 0)
    (JObj [("_module", JStr "users"); ("title", JStr "Alice Martin"); ("id", JStr "1")])
  = getDefaultDedupKey (JInt 0)
      (JObj [("_module", JStr "users"); ("full_name", JStr "alice martin");
             ("id", JStr "77")]).
Proof.
  symmetry.
  refine (proj2 (getDefaultDedupKey_same_person (JInt 0) (JInt 0)
                   (JObj [("_module", JStr "users"); ("title", JStr "Alice Martin");
                          ("id", JStr "1")])
                   (JObj [("_module", JStr "users"); ("full_name", JStr "alice martin");
                          ("id", JStr "77")])
                   "Alice Martin" "alice martin" eq_refl eq_refl eq_refl eq_refl _ eq_refl)).
  discriminate.
Defined.

(** X29.  For records that are not keyed by name and have an [id], the
    default key is the module and the identifier, with no random part.
    When the module names hold no colon, two such records have the same
    key exactly when they have the same module and the same identifier
    text: records of different modules never share a key. *)
Theorem getDefaultDedupKey_module_and_id (a b : jsval) (ma mb : string) :
  Js.field a "_module" = JStr ma -> Js.field b "_module" = JStr mb ->
  namedPerson a = false -> namedPerson b = false ->
  Js.nullish (Js.field a "id") = false -> Js.nullish (Js.field b "id") = false ->
  includes ":" ma = false -> includes ":" mb = false ->
  exists ka kb,
    (forall random, getDefaultDedupKey random a = Ok ka)
    /\ (forall random, getDefaultDedupKey random b = Ok kb)
    /\ (ka = kb <-> ma = mb /\ idText "id" a = idText "id" b).
Proof.
  intros Ha Hb Hna Hnb Hia Hib Hca Hcb.
  exists (ma ++ "::" ++ idText "id" a)%string, (mb ++ "::" ++ idText "id" b)%string.
  split; [intros random; now apply getDefaultDedupKey_record|].
  split; [intros random; now apply getDefaultDedupKey_record|].
  split.
  - now apply separator_injective.
  - now intros [-> ->].
Qed.

Lemma getDefaultDedupKey_module_and_id_witness :
  exists ka kb,
    getDefaultDedupKey (JInt 0) (JObj [("_module", JStr "chats"); ("id", JStr "c1")]) = Ok ka
    /\ getDefaultDedupKey (JInt 0) (JObj [("_module", JStr "channels"); ("id", JStr "c1")])
       = Ok kb
    /\ ka <> kb.
Proof.
  destruct (getDefaultDedupKey_module_and_id
              (JObj [("_module", JStr "chats"); ("id", JStr "c1")])
              (JObj [("_module", JStr "channels"); ("id", JStr "c1")])
              "chats" "channels" eq_refl eq_refl eq_refl eq_refl eq_refl eq_refl
              eq_refl eq_refl) as (ka & kb & Ha & Hb & Hiff).
  exists ka, kb. split; [apply Ha|]. split; [apply Hb|].
  intros Heq. apply Hiff in Heq as [Hm _]. discriminate.
Defined.

End DefaultKeyTheorems.

(** ** searchSlice.js: adding a filter *)

Section AddFilter.
Import QueryParser Slice Spec.

Lemma scan_wellFormed (entries : list (string * string)) :
  Forall wellFormedToken entries ->
  execAll 0 (Js.join " " (map tokenText entries)) = entries.
Proof.
  induction 1 as [|kv entries Hkv Hrest IH]; [reflexivity|].
  destruct Hkv as (Hne & Hw & Hv & Hs).
  assert (Hone : execAll 0 (tokenText kv) = [kv]).
  { destruct kv as [k v]. now apply execAll_token. }
  destruct entries as [|kv' entries].
  - exact Hone.
  - change (Js.join " " (map tokenText (kv :: kv' :: entries)))
      with (tokenText kv ++ String " " (Js.join " " (map tokenText (kv' :: entries))))%string.
    rewrite execAll_cut; [|reflexivity|lia]. now rewrite Hone, IH.
Qed.

Lemma filterString_tokens (activeFilters : list (string * jsval)) :
  filterString activeFilters = Js.join " " (map tokenText (map entryText activeFilters)).
Proof. unfold filterString. now rewrite map_map. Qed.

Lemma lastValue_skip (k : string) (ms : list (string * string)) (init : option string) :
  Forall (fun m => toLowerCase (fst m) <> k) ms ->
  fold_left (fun acc m => if String.eqb (toLowerCase (fst m)) k
                          then Some (stripMarker (snd m)) else acc) ms init
  = init.
Proof.
  intros H. revert init. induction H as [|m ms Hm _ IH]; intros init; cbn [fold_left].
  - reflexivity.
  - rewrite IH. now apply String.eqb_neq in Hm as ->.
Qed.

Lemma lastValue_unique (k v : string) (ms : list (string * string)) (init : option string) :
  toLowerCase k = k ->
  (k, v) ∈ ms ->
  (forall m, m ∈ ms -> toLowerCase (fst m) = k -> m = (k, v)) ->
  fold_left (fun acc m => if String.eqb (toLowerCase (fst m)) k
                          then Some (stripMarker (snd m)) else acc) ms init
  = Some (stripMarker v).
Proof.
  intros Hk. revert init. induction ms as [|m ms IH]; intros init Hin Huniq.
  - inversion Hin.
  - cbn [fold_left].
    assert (forall m', m' ∈ ms -> toLowerCase (fst m') = k -> m' = (k, v)) as Huniq'
      by (intros m' Hm'; apply Huniq; apply elem_of_cons; now right).
    destruct (decide ((k, v) ∈ ms)) as [Hin'|Hnot].
    + now apply IH.
    + apply elem_of_cons in Hin as [Heq|Hin]; [|contradiction]. subst m.
      cbn [fst snd]. rewrite Hk, String.eqb_refl. apply lastValue_skip.
      apply Forall_forall. intros m' Hm' Hl. apply Hnot.
      now rewrite <- (Huniq' m' Hm' Hl).
Qed.

Lemma assign_lookup key value (props : list (string * jsval)) :
  Js.lookup key (Js.assign key value props) = value.
Proof. apply lookup_assign_eq. Qed.

Lemma assign_elem_of key value (props : list (string * jsval)) kv :
  NoDup (map fst props) ->
  kv ∈ Js.assign key value props ->
  kv = (key, value) \/ (kv ∈ props /\ fst kv <> key).
Proof.
  induction props as [|[k' v'] props IH]; intros Hnd H; cbn [Js.assign] in H.
  - apply list_elem_of_singleton in H. now left.
  - cbn [map fst] in Hnd. apply NoDup_cons in Hnd as [Hk' Hnd].
    destruct (String.eqb_spec k' key) as [->|Hne].
    + apply elem_of_cons in H as [H|H]; [now left|]. right.
      split; [apply elem_of_cons; now right|].
      intros Heq. apply Hk'. rewrite <- Heq.
      apply list_elem_of_In, in_map. now apply list_elem_of_In.
    + apply elem_of_cons in H as [->|H].
      * right. split; [apply elem_of_cons; now left|exact Hne].
      * destruct (IH Hnd H) as [->|[Hin Hfst]]; [now left|].
        right. split; [apply elem_of_cons; now right|exact Hfst].
Qed.

Lemma assign_has key value (props : list (string * jsval)) :
  (key, value) ∈ Js.assign key value props.
Proof.
  induction props as [|[k' v'] props IH]; cbn [Js.assign].
  - apply elem_of_cons. now left.
  - destruct (String.eqb k' key); apply elem_of_cons; [now left|now right].
Qed.

End AddFilter.

Section AddFilterTheorems.
Import QueryParser Slice Spec.

(** X30.  [addFilter] makes a filter of the vocabulary effective: when the
    entries of [activeFilters], the new one included, each read as one
    token (a key of word characters, a value without white space, neither
    empty) and no other key is the new key up to case, then the rebuilt
    parsed query holds, under the new key, the new value with one leading
    [@] or [#] removed, whatever the query text says.  A key outside the
    vocabulary is stored in [activeFilters] but never reaches the parsed
    query. *)
Theorem addFilter_takes_effect (query : string) (activeFilters : list (string * jsval))
  (key : string) (value : jsval) :
  NoDup (map fst activeFilters) ->
  Forall (fun kv => wellFormedToken (entryText kv)) activeFilters ->
  wellFormedToken (key, Js.String_ value) ->
  (forall kv, kv ∈ activeFilters -> fst kv <> key -> toLowerCase (fst kv) <> key) ->
  let next := fst (addFilter query activeFilters key value) in
  let pq := snd (addFilter query activeFilters key value) in
  Js.lookup key next = value
  /\ filters pq !! key
     = if includesToken FILTER_TOKENS key
       then Some (stripMarker (Js.String_ value)) else None.
Proof.
  intros Hnd Hall Hnew Hcase next pq. subst next pq. unfold addFilter. cbn [fst snd].
  split; [apply assign_lookup|].
  destruct (parseQueryWith_fields FILTER_TOKENS
              (query ++ " " ++ filterString (Js.assign key value activeFilters)))
    as (HF & _ & _).
  fold (parseQuery (query ++ " " ++ filterString (Js.assign key value activeFilters))) in HF.
  rewrite HF, collect_lookup. cbn [fst]. rewrite lookup_empty.
  destruct (includesToken FILTER_TOKENS key) eqn:Evalid; [|reflexivity].
  destruct (keyShape_vocabulary key Evalid) as (_ & _ & Hlower).
  set (next := Js.assign key value activeFilters).
  assert (Forall wellFormedToken (map entryText next)) as Hshape.
  { apply Forall_forall. intros m Hm.
    apply list_elem_of_In, in_map_iff in Hm as (kv & <- & Hkv). apply list_elem_of_In in Hkv.
    destruct (assign_elem_of key value activeFilters kv Hnd Hkv) as [->|[Hin _]];
      [exact Hnew|].
    rewrite Forall_forall in Hall. now apply Hall. }
  change (query ++ " " ++ filterString next)%string
    with (query ++ String " " (filterString next))%string.
  rewrite execAll_cut; [|reflexivity|lia].
  rewrite filterString_tokens, (scan_wellFormed _ Hshape), fold_left_app.
  apply lastValue_unique.
  - exact Hlower.
  - apply list_elem_of_In, in_map_iff. exists (key, value). split; [reflexivity|].
    apply list_elem_of_In, assign_has.
  - intros m Hm Hl.
    apply list_elem_of_In, in_map_iff in Hm as (kv & <- & Hkv). apply list_elem_of_In in Hkv.
    destruct (assign_elem_of key value activeFilters kv Hnd Hkv) as [->|[Hin Hne]];
      [reflexivity|].
    exfalso. now apply (Hcase kv Hin Hne).
Qed.

Lemma addFilter_takes_effect_witness :
  filters (snd (addFilter "notes from:zed" [("to", JStr "bob")] "from" (JStr "@ann")))
  !! "from" = Some "ann".
Proof.
  refine (proj2 (addFilter_takes_effect "notes from:zed" [("to", JStr "bob")] "from"
                   (JStr "@ann") _ _ _ _)).
  - apply (bool_decide_unpack _). vm_compute. exact I.
  - repeat constructor; discriminate.
  - repeat split; discriminate.
  - intros kv Hkv _. apply list_elem_of_singleton in Hkv as ->. vm_compute. discriminate.
Defined.

End AddFilterTheorems.

(** ** searchSlice.js: nothing is lost in the merge *)

Section MergeTheorems.
Import Scorer Slice Spec.

(** X20.  The merge loses no key: every ranked remote record is represented
    in the merged list by a record with the same key, either a local record
    or a remote one, and every local record is in the merged list; the
    merged list is no longer than the two lists together. *)
Theorem mergeResults_covers_every_key (key : jsval -> string)
  (clientResults serverResults : list jsval) :
  let merged := mergeResults key clientResults serverResults in
  (forall c, c ∈ clientResults -> c ∈ merged)
  /\ (forall s, s ∈ serverResults -> exists x, x ∈ merged /\ key x = key s)
  /\ (length merged <= length clientResults + length serverResults)%nat.
Proof.
  intros merged. subst merged. unfold mergeResults. repeat split.
  - intros c Hc. apply elem_of_app. now left.
  - intros s Hs. destruct (deduplicateBy_covers key serverResults s Hs) as (x & Hx & Hkey).
    destruct (collides key clientResults x) eqn:Ecol.
    + unfold collides in Ecol. apply existsb_exists in Ecol as (c & Hc & Heq).
      apply String.eqb_eq in Heq. exists c. split.
      * apply elem_of_app. left. now apply list_elem_of_In.
      * congruence.
    + exists x. split; [|exact Hkey]. apply elem_of_app. right.
      apply list_elem_of_In, filter_In. split; [now apply list_elem_of_In|].
      now rewrite Ecol.
  - rewrite length_app. apply Nat.add_le_mono_l.
    etransitivity; [apply filter_length_le|].
    unfold deduplicateBy. rewrite sort_length, length_map.
    assert (forall items (seen : list (string * jsval)),
              (length (fold_left (dedupStep key) items seen)
               <= length seen + length items)%nat) as Hlen.
    { induction items as [|item items IH]; intros seen; cbn [fold_left length]; [lia|].
      etransitivity; [apply IH|].
      assert (forall k v (l : list (string * jsval)),
                (length (map_set k v l) <= S (length l))%nat) as Hset.
      { intros k v l. induction l as [|[k' v'] l IHl]; cbn [map_set length]; [lia|].
        destruct (decide (k' = k)); cbn [length]; lia. }
      unfold dedupStep. destruct (map_get (key item) seen).
      - destruct (Js.gt _ _); [|lia]. pose proof (Hset (key item) item seen). lia.
      - pose proof (Hset (key item) item seen). lia. }
    apply (Hlen serverResults []).
Qed.

Lemma mergeResults_covers_every_key_witness :
  exists x,
    x ∈ mergeResults Example.moduleAndId
          [JObj [("_module", JStr "users"); ("id", JStr "1"); ("full_name", JStr "Alice")]]
          [JObj [("_module", JStr "users"); ("id", JStr "1"); ("_score", JInt 2)];
           JObj [("_module", JStr "users"); ("id", JStr "7"); ("_score", JInt 1)]]
    /\ Example.moduleAndId x = "users::1".
Proof.
  destruct (mergeResults_covers_every_key Example.moduleAndId
              [JObj [("_module", JStr "users"); ("id", JStr "1"); ("full_name", JStr "Alice")]]
              [JObj [("_module", JStr "users"); ("id", JStr "1"); ("_score", JInt 2)];
               JObj [("_module", JStr "users"); ("id", JStr "7"); ("_score", JInt 1)]])
    as (_ & Hcover & _).
  destruct (Hcover (JObj [("_module", JStr "users"); ("id", JStr "1"); ("_score", JInt 2)]))
    as (x & Hx & Hkey).
  - apply elem_of_cons. now left.
  - exists x. split; [exact Hx|]. rewrite Hkey. vm_compute. reflexivity.
Defined.

End MergeTheorems.
